(** * micro-active: the Airy-disk and slit-diffraction simulation cores

    A shallow embedding of the numerical code of the two web components
    ([gaussian-profile], the Airy-disk resolution widget, and
    [diffraction-slit], the Huygens-Fresnel wavelet solver) together with the
    properties their specification states about them.

    Numbers.  A JavaScript [Number] is modelled as a real number: [+ - * /]
    are the field operations of [R], a decimal literal denotes the decimal it
    spells, and [Math.sqrt], [Math.cos], [Math.sin], [Math.log], [Math.abs],
    [Math.PI] are the functions of the same name of the real-number library.
    Rounding and overflow are outside this model, and [Float32Array] cells
    hold reals.  So is the NaN of arithmetic; the one a read outside an array
    leads to in the renderer is modelled, as [NotANumber] or [None].  Loops
    whose trip count depends on real data take a fuel argument and return
    [None] when it runs out. *)

From Stdlib Require Import Reals Lra Lia ZArith.
From stdpp Require Import base list gmap strings.

#[local] Open Scope R_scope.

(** Comparisons of Numbers are decided, so that the code's [if] and
    [filter] read as they do in the source. *)
#[global] Instance Rlt_decision (x y : R) : Decision (x < y) := Rlt_dec x y.
#[global] Instance Rle_decision (x y : R) : Decision (x <= y) := Rle_dec x y.
#[global] Instance Rgt_decision (x y : R) : Decision (x > y) := Rgt_dec x y.
#[global] Instance Rge_decision (x y : R) : Decision (x >= y) := Rge_dec x y.
#[global] Instance Req_decision : EqDecision R := Req_dec_T.

(** ** The parts of the JavaScript [Math] object the components use *)

Module JsMath.

Definition abs (x : R) : R := Rabs x.
Definition sqrt (x : R) : R := R_sqrt.sqrt x.
Definition cos (x : R) : R := Rtrigo_def.cos x.
Definition sin (x : R) : R := Rtrigo_def.sin x.
Definition log (x : R) : R := ln x.
Definition PI : R := Rtrigo1.PI.
Definition max (a b : R) : R := Rmax a b.
Definition min (a b : R) : R := Rmin a b.

(** [Math.floor] and [Math.ceil] return the integer as a Number. *)
Definition floor (x : R) : R := IZR (Zfloor x).
Definition ceil (x : R) : R := IZR (Zceil x).

(** [Math.round(x)] is [floor(x + 0.5)]: ties go towards +infinity. *)
Definition round (x : R) : R := IZR (Zfloor (x + 0.5)).

(** [Math.pow(b, n)] at a non-negative integer exponent. *)
Definition pow (b : R) (n : nat) : R := b ^ n.

End JsMath.

(** ** gaussian-profile: Airy disks of two point sources *)

Module Airy.

(** The reactive properties of the component that the numerical code reads. *)
Record GaussianProfile : Type := mkGaussianProfile {
  na : R;
  wavelength : R;
  distance : R;
  pixelSize : R;
  pixelOffset : R;
  noiseLevel : R
}.

(** A chart sample [{ x, y }]. *)
Record Point : Type := mkPoint { px : R; py : R }.

(** [besselJ1]: rational series below 8, asymptotic expansion from 8 on. *)
Definition besselJ1 (x : R) : R :=
  if decide (x = 0) then 0 else
  let ax := JsMath.abs x in
  if decide (ax < 8.0) then
    let y := x * x in
    let result := x * (72362614232.0 + y * (-7895059235.0 + y *
      (242396853.1 + y * (-2972611.439 + y * (15704.48260 + y *
      (-30.16036606)))))) in
    let result := result / (144725228442.0 + y * (2300535178.0 + y *
      (18583304.74 + y * (99447.43394 + y * (376.9991397 + y))))) in
    result
  else
    let z := 8.0 / ax in
    let y := z * z in
    let xx := ax - 2.356194491 in
    let p1 := 1.0 + y * (0.183105e-2 + y * (-0.3516396496e-4 +
      y * (0.2457520174e-5 + y * (-0.240337019e-6)))) in
    let q1 := 0.04687499995 + y * (-0.2002690873e-3 +
      y * (0.8449199096e-5 + y * (-0.88228987e-6 + y * 0.105787412e-6))) in
    let result := JsMath.sqrt (0.636619772 / ax) *
      (JsMath.cos xx * p1 - z * JsMath.sin xx * q1) in
    if decide (x < 0) then - result else result.

(** [airyDisk(r, wavelength, na, center)]: [[2 J1(x) / x]^2]. *)
Definition airyDisk (r wavelength na center : R) : R :=
  let rFromCenter := JsMath.abs (r - center) in
  if decide (rFromCenter = 0) then 1.0 else
  let lambda := wavelength / 1000 in
  let x := (2 * JsMath.PI / lambda) * na * rFromCenter in
  let j1 := besselJ1 x in
  let intensity := JsMath.pow (2 * j1 / x) 2 in
  intensity.

(** The resolution criteria, methods of the component. *)
Definition calculateRayleigh (this : GaussianProfile) : R :=
  let lambda := wavelength this / 1000 in
  0.61 * lambda / na this.

Definition calculateAbbe (this : GaussianProfile) : R :=
  let lambda := wavelength this / 1000 in
  0.5 * lambda / na this.

Definition calculateSparrow (this : GaussianProfile) : R :=
  let lambda := wavelength this / 1000 in
  0.47 * lambda / na this.

(** [generateAiryData(wavelength, na, distance)]: the three series the
    [for] loop pushes to, one sample per iteration. *)
Record AiryData : Type := mkAiryData {
  data1 : list Point;
  data2 : list Point;
  dataSum : list Point
}.

Definition rMin : R := -2.0.
Definition rMax : R := 2.0.
Definition numPoints : nat := 300.

Definition generateAiryData_step (wavelength na pos1 pos2 : R)
    (acc : AiryData) (i : nat) : AiryData :=
  let rVal := rMin + (rMax - rMin) * INR i / (INR numPoints - 1) in
  let i1 := airyDisk rVal wavelength na pos1 in
  let i2 := airyDisk rVal wavelength na pos2 in
  let iSum := i1 + i2 in
  {| data1 := data1 acc ++ [mkPoint rVal i1];
     data2 := data2 acc ++ [mkPoint rVal i2];
     dataSum := dataSum acc ++ [mkPoint rVal iSum] |}.

Definition generateAiryData (wavelength na distance : R) : AiryData :=
  let pos1 := - distance / 2 in
  let pos2 := distance / 2 in
  fold_left (generateAiryData_step wavelength na pos1 pos2)
            (seq 0 numPoints) (mkAiryData [] [] []).

(** [Math.random]: the draws are read off a stream, and the state is the
    position of the next one. *)
Record Rng : Type := mkRng { draws : nat -> R; cursor : nat }.

Definition random (g : Rng) : R * Rng :=
  (draws g (cursor g), mkRng (draws g) (S (cursor g))).

(** [gaussianRandom(mean, stdDev)]: Box-Muller on two draws. *)
Definition gaussianRandom (mean stdDev : R) (g : Rng) : R * Rng :=
  let '(u1, g) := random g in
  let '(u2, g) := random g in
  let z0 := JsMath.sqrt (-2.0 * JsMath.log u1) * JsMath.cos (2.0 * JsMath.PI * u2) in
  (z0 * stdDev + mean, g).

(** First loop of [discretizeData]: [while (pixelStart > rMin) pixelStart -= pixelSize]. *)
Fixpoint adjustStart (fuel : nat) (pixelSize pixelStart : R) : option R :=
  match fuel with
  | O => None
  | S fuel =>
      if decide (pixelStart > rMin)
      then adjustStart fuel pixelSize (pixelStart - pixelSize)
      else Some pixelStart
  end.

(** The body of the second loop for one pixel: the samples of the pixel are
    averaged, noise is added, and the two ends of the step are pushed. *)
Definition processPixel (continuousData : list Point) (noiseLevel : R)
    (pixelStart pixelEnd : R) (discretized : list Point) (g : Rng)
    : list Point * Rng :=
  let pointsInPixel :=
    filter (fun p => px p >= pixelStart /\ px p < pixelEnd) continuousData in
  if decide (0 < length pointsInPixel)%nat then
    let avgIntensity :=
      fold_left (fun sum p => sum + py p) pointsInPixel 0
        / INR (length pointsInPixel) in
    let '(avgIntensity, g) :=
      if decide (noiseLevel > 0)
      then let '(noise, g) := gaussianRandom 0 noiseLevel g in
           (avgIntensity + noise, g)
      else (avgIntensity, g) in
    (discretized ++ [mkPoint pixelStart avgIntensity; mkPoint pixelEnd avgIntensity], g)
  else (discretized, g).

(** Second loop: [while (pixelStart < rMax) { ...; pixelStart = pixelEnd }]. *)
Fixpoint processPixels (fuel : nat) (continuousData : list Point)
    (pixelSize noiseLevel : R) (pixelStart : R) (discretized : list Point)
    (g : Rng) : option (list Point * Rng) :=
  match fuel with
  | O => None
  | S fuel =>
      if decide (pixelStart < rMax) then
        let pixelEnd := pixelStart + pixelSize in
        let pixelCenter := (pixelStart + pixelEnd) / 2 in
        let '(discretized, g) :=
          processPixel continuousData noiseLevel pixelStart pixelEnd discretized g in
        processPixels fuel continuousData pixelSize noiseLevel pixelEnd discretized g
      else Some (discretized, g)
  end.

(** [discretizeData(continuousData, pixelSize, pixelOffset, noiseLevel)].
    [None] stands for a loop that is still running when the fuel is spent. *)
Definition discretizeData (fuel : nat) (continuousData : list Point)
    (pixelSize pixelOffset noiseLevel : R) (g : Rng)
    : option (list Point * Rng) :=
  if decide (pixelSize <= 0) then Some ([], g) else
  let discretized := [] in
  match adjustStart fuel pixelSize (- pixelOffset) with
  | None => None
  | Some pixelStart =>
      processPixels fuel continuousData pixelSize noiseLevel pixelStart discretized g
  end.

End Airy.

(** ** diffraction-slit: Huygens-Fresnel wavelet summation *)

Module Slit.

(** The component: its reactive properties, then its internal state.  A timer
    or animation handle is only ever tested for being set, so it is a flag;
    [_canvas] is the canvas once attached, with the bytes last put on it. *)
Record DiffractionSlit : Type := mkDiffractionSlit {
  mode : string;
  slitWidth : R;
  slitSeparation : R;
  wavelength : R;
  renderMode : string;
  numSources : R;
  waveletCount : R;
  speed : R;
  highQuality : bool;
  isPlaying : bool;
  _time : R;
  _animationId : bool;
  _recomputeTimer : bool;
  _canvas : option (list Z);
  _fieldReal : option (list R);
  _fieldImag : option (list R);
  _fieldAmp : option (list R);
  _normScale : R;
  _sources : list R;
  _res : R;
  _hW : nat;
  _hBY : nat
}.

(** Canvas layout, fixed by the constructor. *)
Definition _W : R := 800.
Definition _H : R := 384.
Definition _barrierY : R := 300.
Definition _barrierH : R := 4.
Definition _profileH : R := 55.

Definition constructor : DiffractionSlit :=
  {| mode := "double"; slitWidth := 1; slitSeparation := 5; wavelength := 20;
     renderMode := "intensity"; numSources := 50; waveletCount := 7;
     speed := 25; highQuality := true; isPlaying := true;
     _time := 0; _animationId := false; _recomputeTimer := false;
     _canvas := None;
     _fieldReal := None; _fieldImag := None; _fieldAmp := None;
     _normScale := 1; _sources := []; _res := 1; _hW := 0%nat; _hBY := 0%nat |}.

(** Assignments to single properties of [this]. *)

Definition set_slitWidth (v : R) (this : DiffractionSlit) : DiffractionSlit :=
  {| mode := mode this;
     slitWidth := v;
     slitSeparation := slitSeparation this;
     wavelength := wavelength this;
     renderMode := renderMode this;
     numSources := numSources this;
     waveletCount := waveletCount this;
     speed := speed this;
     highQuality := highQuality this;
     isPlaying := isPlaying this;
     _time := _time this;
     _animationId := _animationId this;
     _recomputeTimer := _recomputeTimer this;
     _canvas := _canvas this;
     _fieldReal := _fieldReal this;
     _fieldImag := _fieldImag this;
     _fieldAmp := _fieldAmp this;
     _normScale := _normScale this;
     _sources := _sources this;
     _res := _res this;
     _hW := _hW this;
     _hBY := _hBY this |}.

Definition set_slitSeparation (v : R) (this : DiffractionSlit) : DiffractionSlit :=
  {| mode := mode this;
     slitWidth := slitWidth this;
     slitSeparation := v;
     wavelength := wavelength this;
     renderMode := renderMode this;
     numSources := numSources this;
     waveletCount := waveletCount this;
     speed := speed this;
     highQuality := highQuality this;
     isPlaying := isPlaying this;
     _time := _time this;
     _animationId := _animationId this;
     _recomputeTimer := _recomputeTimer this;
     _canvas := _canvas this;
     _fieldReal := _fieldReal this;
     _fieldImag := _fieldImag this;
     _fieldAmp := _fieldAmp this;
     _normScale := _normScale this;
     _sources := _sources this;
     _res := _res this;
     _hW := _hW this;
     _hBY := _hBY this |}.

Definition set_time (v : R) (this : DiffractionSlit) : DiffractionSlit :=
  {| mode := mode this;
     slitWidth := slitWidth this;
     slitSeparation := slitSeparation this;
     wavelength := wavelength this;
     renderMode := renderMode this;
     numSources := numSources this;
     waveletCount := waveletCount this;
     speed := speed this;
     highQuality := highQuality this;
     isPlaying := isPlaying this;
     _time := v;
     _animationId := _animationId this;
     _recomputeTimer := _recomputeTimer this;
     _canvas := _canvas this;
     _fieldReal := _fieldReal this;
     _fieldImag := _fieldImag this;
     _fieldAmp := _fieldAmp this;
     _normScale := _normScale this;
     _sources := _sources this;
     _res := _res this;
     _hW := _hW this;
     _hBY := _hBY this |}.

Definition set_animationId (v : bool) (this : DiffractionSlit) : DiffractionSlit :=
  {| mode := mode this;
     slitWidth := slitWidth this;
     slitSeparation := slitSeparation this;
     wavelength := wavelength this;
     renderMode := renderMode this;
     numSources := numSources this;
     waveletCount := waveletCount this;
     speed := speed this;
     highQuality := highQuality this;
     isPlaying := isPlaying this;
     _time := _time this;
     _animationId := v;
     _recomputeTimer := _recomputeTimer this;
     _canvas := _canvas this;
     _fieldReal := _fieldReal this;
     _fieldImag := _fieldImag this;
     _fieldAmp := _fieldAmp this;
     _normScale := _normScale this;
     _sources := _sources this;
     _res := _res this;
     _hW := _hW this;
     _hBY := _hBY this |}.

Definition set_recomputeTimer (v : bool) (this : DiffractionSlit) : DiffractionSlit :=
  {| mode := mode this;
     slitWidth := slitWidth this;
     slitSeparation := slitSeparation this;
     wavelength := wavelength this;
     renderMode := renderMode this;
     numSources := numSources this;
     waveletCount := waveletCount this;
     speed := speed this;
     highQuality := highQuality this;
     isPlaying := isPlaying this;
     _time := _time this;
     _animationId := _animationId this;
     _recomputeTimer := v;
     _canvas := _canvas this;
     _fieldReal := _fieldReal this;
     _fieldImag := _fieldImag this;
     _fieldAmp := _fieldAmp this;
     _normScale := _normScale this;
     _sources := _sources this;
     _res := _res this;
     _hW := _hW this;
     _hBY := _hBY this |}.

Definition set_canvas (v : option (list Z)) (this : DiffractionSlit) : DiffractionSlit :=
  {| mode := mode this;
     slitWidth := slitWidth this;
     slitSeparation := slitSeparation this;
     wavelength := wavelength this;
     renderMode := renderMode this;
     numSources := numSources this;
     waveletCount := waveletCount this;
     speed := speed this;
     highQuality := highQuality this;
     isPlaying := isPlaying this;
     _time := _time this;
     _animationId := _animationId this;
     _recomputeTimer := _recomputeTimer this;
     _canvas := v;
     _fieldReal := _fieldReal this;
     _fieldImag := _fieldImag this;
     _fieldAmp := _fieldAmp this;
     _normScale := _normScale this;
     _sources := _sources this;
     _res := _res this;
     _hW := _hW this;
     _hBY := _hBY this |}.

(** [for (let j = 0; j < n; j++)]: the values [j] takes. *)
Definition upto (n : R) : list nat := seq 0 (Z.to_nat (Zceil n)).

(** [for (let x = lo; x < hi; x++)] from an integer [lo >= 0]. *)
Definition from_to (lo hi : R) : list nat :=
  let a := Z.to_nat (Zceil lo) in seq a (Z.to_nat (Zceil hi) - a).

(** [_getSlitRanges]: one [left, right] pair per aperture, in canvas pixels. *)
Definition _getSlitRanges (this : DiffractionSlit) : list (R * R) :=
  let lambda := wavelength this in
  let cx := _W / 2 in
  let sw := slitWidth this * lambda in
  if decide (mode this = "single") then
    [(cx - sw / 2, cx + sw / 2)]
  else
    let sep := slitSeparation this * lambda in
    [ (cx - sep / 2 - sw / 2, cx - sep / 2 + sw / 2);
      (cx + sep / 2 - sw / 2, cx + sep / 2 + sw / 2) ].

(** The source count: about 12 per wavelength of slit width, at least 10. *)
Definition sourceCount (this : DiffractionSlit) : R :=
  JsMath.max 10 (JsMath.round (slitWidth this * 12)).

(** The inner loop over [j] for one aperture, pushing to [sources]. *)
Definition pushSources (N : R) (sources : list R) (range : R * R) : list R :=
  let '(left_, right_) := range in
  let w := right_ - left_ in
  fold_left (fun sources j => sources ++ [left_ + (INR j + 0.5) * (w / N)])
            (upto N) sources.

Definition buildSources (N : R) (slitRanges : list (R * R)) : list R :=
  fold_left (pushSources N) slitRanges [].

(** The three field arrays and the running maximum while the grid is filled. *)
Record FieldAcc : Type := mkFieldAcc {
  fR : list R;
  fI : list R;
  fA : list R;
  maxAmp : R
}.

(** One source's wavelet added to the running sum [(uR, uI)] of a cell. *)
Definition addWavelet (k dy dy2 cx : R) (u : R * R) (s : R) : R * R :=
  let '(uR, uI) := u in
  let dx := cx - s in
  let r := JsMath.sqrt (dx * dx + dy2) in
  let amp := dy / (r * JsMath.sqrt r) in
  let phase := k * r in
  (uR + amp * JsMath.cos phase, uI + amp * JsMath.sin phase).

(** Body of the loop over [hx]: one cell of the grid. *)
Definition computeCell (k res dxSrc dy dy2 : R) (sources : list R)
    (rowOff : nat) (acc : FieldAcc) (hx : nat) : FieldAcc :=
  let cx := INR hx * res in
  let '(uR, uI) := fold_left (addWavelet k dy dy2 cx) sources (0, 0) in
  let uR := uR * dxSrc in
  let uI := uI * dxSrc in
  let idx := (rowOff + hx)%nat in
  let a := JsMath.sqrt (uR * uR + uI * uI) in
  {| fR := <[idx := uR]> (fR acc);
     fI := <[idx := uI]> (fI acc);
     fA := <[idx := a]> (fA acc);
     maxAmp := if decide (a > maxAmp acc) then a else maxAmp acc |}.

(** Body of the loop over [hy]: one row, skipped when [dy < 2]. *)
Definition computeRow (k res dxSrc barrierY : R) (sources : list R)
    (hW : nat) (acc : FieldAcc) (hy : nat) : FieldAcc :=
  let cy := INR hy * res in
  let dy := barrierY - cy in
  if decide (dy < 2) then acc else
  let dy2 := dy * dy in
  let rowOff := (hy * hW)%nat in
  fold_left (computeCell k res dxSrc dy dy2 sources rowOff) (seq 0 hW) acc.

(** The grid [_computeField] fills, before it is stored in [this]. *)
Definition fieldGrid (this : DiffractionSlit) : FieldAcc :=
  let W := _W in
  let barrierY := _barrierY in
  let lambda := wavelength this in
  let k := (2 * JsMath.PI) / lambda in
  let res := if highQuality this then 1 else 2 in
  let N := sourceCount this in
  let sources := buildSources N (_getSlitRanges this) in
  let dxSrc := (slitWidth this * lambda) / N in
  let hW := Z.to_nat (Zceil (W / res)) in
  let hBY := Z.to_nat (Zceil (barrierY / res)) in
  let totalPx := (hBY * hW)%nat in
  fold_left (computeRow k res dxSrc barrierY sources hW) (seq 0 hBY)
    (mkFieldAcc (replicate totalPx 0) (replicate totalPx 0) (replicate totalPx 0) 0).

(** [_computeField]: sources, grid and normalisation stored in [this]. *)
Definition _computeField (this : DiffractionSlit) : DiffractionSlit :=
  let res := if highQuality this then 1 else 2 in
  let N := sourceCount this in
  let sources := buildSources N (_getSlitRanges this) in
  let hW := Z.to_nat (Zceil (_W / res)) in
  let hBY := Z.to_nat (Zceil (_barrierY / res)) in
  let acc := fieldGrid this in
  {| mode := mode this; slitWidth := slitWidth this;
     slitSeparation := slitSeparation this; wavelength := wavelength this;
     renderMode := renderMode this; numSources := numSources this;
     waveletCount := waveletCount this; speed := speed this;
     highQuality := highQuality this; isPlaying := isPlaying this;
     _time := _time this; _animationId := _animationId this;
     _recomputeTimer := _recomputeTimer this; _canvas := _canvas this;
     _fieldReal := Some (fR acc);
     _fieldImag := Some (fI acc);
     _fieldAmp := Some (fA acc);
     _normScale := if decide (maxAmp acc > 0) then 1 / maxAmp acc else 1;
     _sources := sources; _res := res; _hW := hW; _hBY := hBY |}.

(** The helpers [clamp] and [wavefrontGray]. *)
Definition clamp (v lo hi : R) : R :=
  if decide (v < lo) then lo else if decide (v > hi) then hi else v.

Definition wavefrontGray (field amp : R) : R :=
  if decide (amp < 0.005) then 0 else
  let nf := field / amp in
  let crest := JsMath.max 0 ((nf - 0.6) / 0.4) in
  let af := JsMath.min 1 (amp * 3) in
  JsMath.round (crest * af * 255).

(** Storing a Number in a [Uint8ClampedArray]: clamped to [0, 255] and
    rounded to the nearest integer, ties to even. *)
Definition toUint8Clamp (v : R) : Z :=
  if decide (v <= 0) then 0%Z
  else if decide (v >= 255) then 255%Z
  else
    let f := Zfloor v in
    if decide (IZR f + 0.5 < v) then (f + 1)%Z
    else if decide (v < IZR f + 0.5) then f
    else if Z.even f then f else (f + 1)%Z.

(** [(v | 0)] at a non-negative [v] below [2^31]: the integer part. *)
Definition toInt (v : R) : nat := Z.to_nat (Zfloor v).

(** The slit membership mask over the canvas columns. *)
Definition buildSlitMask (slitRanges : list (R * R)) : list bool :=
  fold_left
    (fun slitMask '(l, r) =>
       let lo := JsMath.max 0 (JsMath.floor l) in
       let hi := JsMath.min _W (JsMath.ceil r) in
       fold_left (fun slitMask x => <[x := true]> slitMask) (from_to lo hi) slitMask)
    slitRanges (replicate (Z.to_nat (Zceil _W)) false).

(** What the pixel loop decides for one pixel: a gray level; the opaque
    barrier colour written by the branch that ends in [continue]; or no
    number at all.  A read [a[i]] outside a field array is [undefined], the
    arithmetic on it gives [NaN], and so do [clamp] and [wavefrontGray] (past
    its test of [amp]) on a [NaN]: that gray is [NotANumber]. *)
Inductive Shade : Type :=
  | Gray (gray : R)
  | BarrierColour
  | NotANumber.

Definition pixelShade (this : DiffractionSlit)
    (fieldReal fieldImag fieldAmp : list R) (slitMask : list bool)
    (cy cx : nat) : Shade :=
  let lambda := wavelength this in
  let k := (2 * JsMath.PI) / lambda in
  let omega := k in
  let t := _time this in
  let barrierY := _barrierY in
  let barrierH := _barrierH in
  let barrierBot := barrierY + barrierH in
  let norm := _normScale this in
  let res := _res this in
  let hW := _hW this in
  let cosWt := JsMath.cos (omega * t) in
  let sinWt := JsMath.sin (omega * t) in
  let rm := renderMode this in
  let inSlit := default false (slitMask !! cx) in
  if decide (INR cy < barrierY) then
    let dy := barrierY - INR cy in
    if decide (dy < 2) then
      Gray (if inSlit then 80 else 40)
    else
      let hx := toInt (INR cx / res) in
      let hy := toInt (INR cy / res) in
      let fi := (hy * hW + hx)%nat in
      let field : option R :=
        re ← fieldReal !! fi; im ← fieldImag !! fi;
        Some ((re * cosWt + im * sinWt) * norm) in
      let amp : option R := a ← fieldAmp !! fi; Some (a * norm) in
      if decide (rm = "intensity") then
        match field with
        | Some field => Gray (128 + 127 * clamp field (-1) 1)
        | None => NotANumber
        end
      else if decide (rm = "wavefronts") then
        match field, amp with
        | Some field, Some amp => Gray (wavefrontGray field amp)
        | None, Some amp => if decide (amp < 0.005) then Gray 0 else NotANumber
        | _, None => NotANumber
        end
      else
        match field with
        | Some field => Gray (50 + 30 * clamp field (-1) 1)
        | None => NotANumber
        end
  else if decide (INR cy < barrierBot) then
    if inSlit then
      let f := JsMath.cos (k * (barrierBot - INR cy) + omega * t) in
      if decide (rm = "intensity") then Gray (128 + 127 * clamp f (-1) 1)
      else if decide (rm = "wavefronts") then Gray (wavefrontGray f 1)
      else Gray (50 + 30 * clamp f (-1) 1)
    else BarrierColour
  else
    let f := JsMath.cos (k * (INR cy - barrierBot) + omega * t) in
    if decide (rm = "intensity") then Gray (128 + 127 * f)
    else if decide (rm = "wavefronts") then Gray (wavefrontGray f 1)
    else Gray (50 + 30 * f).

(** The four bytes of a pixel written at offset [pi] of the image data; a
    [NaN] is stored in a [Uint8ClampedArray] as 0. *)
Definition putPixel (d : list Z) (pi : nat) (s : Shade) : list Z :=
  match s with
  | BarrierColour =>
      <[(pi + 3)%nat := 255%Z]> (<[(pi + 2)%nat := 65%Z]>
        (<[(pi + 1)%nat := 55%Z]> (<[pi := 55%Z]> d)))
  | Gray gray =>
      let g := toUint8Clamp gray in
      <[(pi + 3)%nat := 255%Z]> (<[(pi + 2)%nat := g]>
        (<[(pi + 1)%nat := g]> (<[pi := g]> d)))
  | NotANumber =>
      <[(pi + 3)%nat := 255%Z]> (<[(pi + 2)%nat := 0%Z]>
        (<[(pi + 1)%nat := 0%Z]> (<[pi := 0%Z]> d)))
  end.

(** [_renderFrame]: a no-op without a canvas or a field; otherwise the pixel
    buffer is filled and put on the canvas.  The vector overlays drawn on top
    of it (wavelet arcs, barrier outline, intensity profile) are modelled on
    their own, in [SlitOverlay]. *)
Definition _renderFrame (this : DiffractionSlit) : DiffractionSlit :=
  match _canvas this, _fieldReal this with
  | Some _, Some fieldReal =>
      let fieldImag := default [] (_fieldImag this) in
      let fieldAmp := default [] (_fieldAmp this) in
      let W := Z.to_nat (Zceil _W) in
      let H := Z.to_nat (Zceil _H) in
      let slitMask := buildSlitMask (_getSlitRanges this) in
      let d :=
        fold_left
          (fun d cy =>
             fold_left
               (fun d cx =>
                  putPixel d ((cy * W + cx) * 4)%nat
                    (pixelShade this fieldReal fieldImag fieldAmp slitMask cy cx))
               (seq 0 W) d)
          (seq 0 H) (replicate (W * H * 4)%nat 0%Z) in
      set_canvas (Some d) this
  | _, _ => this
  end.

(** The animation loop and the debounced recompute. *)
Definition _startAnimation (this : DiffractionSlit) : DiffractionSlit :=
  if _animationId this then this else set_animationId true this.

Definition _stopAnimation (this : DiffractionSlit) : DiffractionSlit :=
  if _animationId this then set_animationId false this else this.

(** One animation frame at timestamp [ts]. *)
Definition tick (ts : R) (this : DiffractionSlit) : DiffractionSlit :=
  let this := set_time (ts * 0.001 * speed this) this in
  let this := _renderFrame this in
  set_animationId true this.

Definition _scheduleRecompute (this : DiffractionSlit) : DiffractionSlit :=
  set_recomputeTimer true this.

(** The callback the recompute timer runs after 60 ms. *)
Definition recomputeTimeout (this : DiffractionSlit) : DiffractionSlit :=
  let this := _computeField this in
  if isPlaying this then this else _renderFrame this.

(** [updated(changed)]: [changed] holds the names of the properties set. *)
Definition needsRecompute : list string :=
  ["slitWidth"; "slitSeparation"; "mode"; "wavelength"; "numSources"; "highQuality"].

Definition updated (changed : gset string) (this : DiffractionSlit)
    : DiffractionSlit :=
  let this :=
    if decide (mode this = "double" /\ slitSeparation this < slitWidth this) then
      if decide ("slitWidth" ∈ changed)
      then set_slitWidth (slitSeparation this) this
      else set_slitSeparation (slitWidth this) this
    else this in
  let this :=
    if decide (Exists (fun p => p ∈ changed) needsRecompute /\ is_Some (_canvas this))
    then _scheduleRecompute this else this in
  let this :=
    if decide ("renderMode" ∈ changed \/ "waveletCount" ∈ changed) then
      if decide (isPlaying this = false /\ is_Some (_canvas this))
      then _renderFrame this else this
    else this in
  if decide ("isPlaying" ∈ changed) then
    if isPlaying this then _startAnimation this else _stopAnimation this
  else this.

End Slit.

(** ** Number formatting and remainder *)

Module JsNumber.


(** The integer part of a Number, towards zero. *)
Definition trunc (x : R) : Z := if decide (x < 0) then Zceil x else Zfloor x.

(** [x % y]: the remainder has the sign of [x]. *)
Definition rem (x y : R) : R := x - y * IZR (trunc (x / y)).

End JsNumber.

(** ** gaussian-profile: the chart, the presets and the playback timer *)

Module AiryWidget.
Import Airy.

(** A dataset of the chart: its points and whether it is hidden. *)
Record Dataset : Type := mkDataset { data : list Point; hidden : bool }.

(** The chart [initChart] creates: object 1, object 2, the combined image
    and the pixelated image, in this order. *)
Record Chart : Type := mkChart {
  dataset0 : Dataset;
  dataset1 : Dataset;
  dataset2 : Dataset;
  dataset3 : Dataset
}.

(** The element: its reactive properties, its chart and timer handle, and
    the part of the host it acts on: whether the canvas is rendered, the
    random source, the interval timers that are running and the next handle
    [setInterval] hands out. *)
Record GaussianProfileElement : Type := mkElement {
  props : GaussianProfile;
  isPlaying : bool;
  chart : option Chart;
  animationInterval : option positive;
  canvas : bool;
  rng : Rng;
  intervals : list positive;
  nextHandle : positive
}.

Definition constructor (g : Rng) : GaussianProfileElement :=
  {| props := mkGaussianProfile 1.0 550 0.5 0 0 0;
     isPlaying := false; chart := None; animationInterval := None;
     canvas := false; rng := g; intervals := []; nextHandle := 1%positive |}.




(** [initChart]: nothing without a canvas; otherwise the four datasets. *)
Definition initChart (fuel : nat) (this : GaussianProfileElement)
    : option GaussianProfileElement :=
  if canvas this then
    let p := props this in
    let d := generateAiryData (wavelength p) (na p) (distance p) in
    match discretizeData fuel (dataSum d) (pixelSize p) (pixelOffset p)
                         (noiseLevel p) (rng this) with
    | None => None
    | Some (discretizedData, g) =>
        Some (mkElement p (isPlaying this)
                (Some {| dataset0 := mkDataset (data1 d) false;
                         dataset1 := mkDataset (data2 d) false;
                         dataset2 := mkDataset (dataSum d)
                                       (bool_decide (pixelSize p > 0));
                         dataset3 := mkDataset discretizedData
                                       (bool_decide (pixelSize p = 0)) |})
                (animationInterval this) (canvas this) g
                (intervals this) (nextHandle this))
    end
  else Some this.


(** [togglePlayback]: starting sets an interval timer of the host and keeps
    its handle; stopping clears the timer whose handle is kept. *)
Definition togglePlayback (this : GaussianProfileElement) : GaussianProfileElement :=
  let playing := negb (isPlaying this) in
  if playing then
    let id := nextHandle this in
    mkElement (props this) playing (chart this) (Some id) (canvas this)
              (rng this) (id :: intervals this) (Pos.succ id)
  else
    match animationInterval this with
    | Some id =>
        mkElement (props this) playing (chart this) None (canvas this)
                  (rng this) (filter (fun h => h <> id) (intervals this))
                  (nextHandle this)
    | None =>
        mkElement (props this) playing (chart this) None (canvas this)
                  (rng this) (intervals this) (nextHandle this)
    end.

(** [disconnectedCallback]: the timer whose handle is kept is cleared. *)
Definition disconnectedCallback (this : GaussianProfileElement)
    : GaussianProfileElement :=
  match animationInterval this with
  | Some id =>
      mkElement (props this) (isPlaying this) (chart this)
                (animationInterval this) (canvas this) (rng this)
                (filter (fun h => h <> id) (intervals this)) (nextHandle this)
  | None => this
  end.











End AiryWidget.

(** ** diffraction-slit: the overlays drawn on top of the pixel buffer *)

Module SlitOverlay.
Import Slit.

(** [a[i]] at an integer index: [undefined] outside the array. *)
Definition at_index {A : Type} (a : list A) (i : Z) : option A :=
  if decide (i < 0)%Z then None else a !! Z.to_nat i.

(** A call [ctx.arc(x, y, radius, startAngle, endAngle)]; the centre is
    [undefined] when the source index fell outside the array. *)
Record Arc : Type := mkArc {
  arc_x : option R;
  arc_y : R;
  arc_radius : R;
  arc_start : R;
  arc_end : R
}.

(** A call [fillRect] or [strokeRect]. *)
Record Rect : Type := mkRect { rect_x : R; rect_y : R; rect_w : R; rect_h : R }.

(** The evenly spaced subset of the sources of one aperture. *)
Definition selectDisplaySources (perSlit : R) (sources : list R)
    (displaySources : list (option R)) (range : R * R) : list (option R) :=
  let '(left_, right_) := range in
  let inSlit := filter (fun sx => sx >= left_ /\ sx <= right_) sources in
  let n := JsMath.min perSlit (INR (length inSlit)) in
  if decide (n <= 0) then displaySources else
  let step := INR (length inSlit) / n in
  fold_left
    (fun displaySources i =>
       displaySources ++ [at_index inSlit (Zfloor (INR i * step + step / 2))])
    (upto n) displaySources.

(** The phase offset, a fraction of a wavelength. *)
Definition phaseOffset (omega t : R) : R :=
  JsNumber.rem (JsNumber.rem ((omega * t) / (2 * JsMath.PI)) 1 + 1) 1.

(** The arcs of one display source. *)
Definition sourceArcs (lambda barrierY phaseOff maxR : R)
    (arcs : list Arc) (sx : option R) : list Arc :=
  fold_left
    (fun arcs n =>
       let r := (INR n + phaseOff) * lambda in
       if decide (r < 2) then arcs
       else arcs ++ [mkArc sx barrierY r (- JsMath.PI) 0])
    (upto (maxR / lambda)) arcs.

(** [_drawWavelets]: the arcs it strokes, in order. *)
Definition _drawWavelets (this : DiffractionSlit) (k omega t : R) : list Arc :=
  let lambda := wavelength this in
  let barrierY := _barrierY in
  let W := _W in
  let sources := _sources this in
  if decide (length sources = 0%nat) then [] else
  let perSlit := waveletCount this in
  let slitRanges := _getSlitRanges this in
  let displaySources :=
    fold_left (selectDisplaySources perSlit sources) slitRanges [] in
  let phaseOff := phaseOffset omega t in
  let maxR := JsMath.sqrt (W * W + barrierY * barrierY) in
  fold_left (sourceArcs lambda barrierY phaseOff maxR) displaySources [].

(** One aperture of the loop of [_drawBarrierOverlay]: the opaque segment to
    its left, if any, and the new [prev]. *)
Definition barrierFill (by_ bh : R) (st : R * list Rect) (range : R * R)
    : R * list Rect :=
  let '(prev, fills) := st in
  let '(l, r) := range in
  (r, if decide (l > prev) then fills ++ [mkRect prev by_ (l - prev) bh] else fills).

(** [_drawBarrierOverlay]: the rectangles filled, then the outlines stroked. *)
Definition _drawBarrierOverlay (slitRanges : list (R * R)) : list Rect * list Rect :=
  let W := _W in
  let by_ := _barrierY in
  let bh := _barrierH in
  let '(prev, fills) := fold_left (barrierFill by_ bh) slitRanges (0, []) in
  let fills :=
    if decide (prev < W) then fills ++ [mkRect prev by_ (W - prev) bh] else fills in
  (fills, map (fun range => mkRect (fst range) by_ (snd range - fst range) bh) slitRanges).

(** One column of the first loop of [_drawIntensityProfile]; [None] is the
    [NaN] that a read outside [fieldAmp] leads to, and [NaN > maxI] is false. *)
Definition profileStep (fieldAmp : list R) (res norm : R)
    (st : list (option R) * R) (cx : nat) : list (option R) * R :=
  let '(intensities, maxI) := st in
  let hx := toInt (INR cx / res) in
  let I : option R := a ← fieldAmp !! hx; Some (a * a * norm * norm) in
  (<[cx := I]> intensities,
   match I with
   | Some v => if decide (v > maxI) then v else maxI
   | None => maxI
   end).

(** [_drawIntensityProfile]: the vertices of the filled curve, or nothing
    when there is no field or the screen row is dark.  [lineTo] ignores a
    coordinate that is not a number. *)
Definition _drawIntensityProfile (this : DiffractionSlit) : option (list (R * R)) :=
  let W := _W in
  let ph := _profileH in
  let norm := _normScale this in
  match _fieldAmp this with
  | None => None
  | Some fieldAmp =>
      let res := _res this in
      let '(intensities, maxI) :=
        fold_left (profileStep fieldAmp res norm) (upto W)
                  (replicate (Z.to_nat (Zceil W)) (Some 0), 0) in
      if decide (maxI = 0) then None else
      let path := [(0, ph)] in
      let path :=
        fold_left
          (fun path cx =>
             match intensities !! cx with
             | Some (Some v) => path ++ [(INR cx, ph - (v / maxI) * (ph - 6))]
             | _ => path
             end)
          (upto W) path in
      Some (path ++ [(W - 1, ph)])
  end.

(** [firstUpdated]: the canvas is attached, the field computed, and the
    animation started or a single frame rendered. *)
Definition firstUpdated (this : DiffractionSlit) : DiffractionSlit :=
  let this := set_canvas (Some []) this in
  let this := _computeField this in
  if isPlaying this then _startAnimation this else _renderFrame this.

End SlitOverlay.

(** * Sample inputs

    Concrete parameter sets and states at which the properties below are
    instantiated. *)

Import Airy Slit.

(** The default optical parameters of the Airy component. *)
Definition sampleProfile : GaussianProfile :=
  mkGaussianProfile 1.0 550 0.5 0 0 0.

(** The summed profile of the default parameters. *)
Definition sampleSum : list Point := dataSum (generateAiryData 550 1.0 0.5).

(** A random source whose every draw is 0.5. *)
Definition halfDraws : Rng := mkRng (fun _ => 0.5) 0.

(** The slit component as constructed, switched to a single slit. *)
Definition singleSlit : DiffractionSlit :=
  {| mode := "single"; slitWidth := 1; slitSeparation := 5; Slit.wavelength := 20;
     renderMode := "intensity"; numSources := 50; waveletCount := 7;
     speed := 25; highQuality := true; isPlaying := true;
     _time := 0; _animationId := false; _recomputeTimer := false;
     _canvas := None;
     _fieldReal := None; _fieldImag := None; _fieldAmp := None;
     _normScale := 1; _sources := []; _res := 1; _hW := 0%nat; _hBY := 0%nat |}.

(** A double slit whose width has just been dragged to 8 wavelengths, above
    the separation of 5. *)
Definition wideSlit : DiffractionSlit := set_slitWidth 8 constructor.


(** * Closed forms

    Descriptions of what the loops compute, used to state and prove the
    properties: the sources of an aperture, the coherent sum of a grid cell,
    the steps of the pixel grid. *)

(** The [N] sources [pushSources] adds for one aperture. *)
Definition sourcesOf (N : R) (range : R * R) : list R :=
  map (fun j => fst range + (INR j + 0.5) * ((snd range - fst range) / N))
      (upto N).

(** The coherent sum of a cell over the sources, and the magnitude stored
    for the cell in column [hx] of a row. *)
Definition cellSum (k dy dy2 cx : R) (sources : list R) : R * R :=
  fold_left (addWavelet k dy dy2 cx) sources (0, 0).

Definition cellAmp (k res dxSrc dy dy2 : R) (sources : list R) (hx : nat) : R :=
  let u := cellSum k dy dy2 (INR hx * res) sources in
  JsMath.sqrt (fst u * dxSrc * (fst u * dxSrc) + snd u * dxSrc * (snd u * dxSrc)).

(** The sum of a list of Numbers. *)
Definition Rsum (l : list R) : R := fold_right Rplus 0 l.

(** Real and imaginary part of one source's wavelet at a cell. *)
Definition waveletRe (k dy dy2 cx s : R) : R :=
  let dx := cx - s in
  let r := JsMath.sqrt (dx * dx + dy2) in
  dy / (r * JsMath.sqrt r) * JsMath.cos (k * r).

Definition waveletIm (k dy dy2 cx s : R) : R :=
  let dx := cx - s in
  let r := JsMath.sqrt (dx * dx + dy2) in
  dy / (r * JsMath.sqrt r) * JsMath.sin (k * r).

(** The samples of a pixel [[a, b)], the step a pixel contributes, and the
    output over [m] pixels of width [p] from [s0]. *)
Definition inPixel (continuousData : list Point) (a b : R) : list Point :=
  filter (fun p => px p >= a /\ px p < b) continuousData.

Definition stepOf (continuousData : list Point) (a b y : R) : list Point :=
  if decide (0 < length (inPixel continuousData a b))%nat
  then [mkPoint a y; mkPoint b y] else [].

Definition stepsFrom (continuousData : list Point) (p s0 : R)
    (ys : nat -> R) (m : nat) : list Point :=
  flat_map (fun j => stepOf continuousData (s0 + INR j * p) (s0 + INR j * p + p) (ys j))
           (seq 0 m).

(** A sequence of steps: pairs of samples at the two edges of a non-empty
    pixel of width [p], carrying the same value. *)
Inductive Steps (continuousData : list Point) (p : R) : list Point -> Prop :=
  | Steps_nil : Steps continuousData p []
  | Steps_cons (a y : R) (rest : list Point) :
      (0 < length (inPixel continuousData a (a + p)))%nat ->
      Steps continuousData p rest ->
      Steps continuousData p (mkPoint a y :: mkPoint (a + p) y :: rest).

(** Consecutive steps share an edge: the right edge of step [k] (sample
    [2k+1]) is the left edge of step [k+1] (sample [2k+2]). *)
Definition contiguous (out : list Point) : Prop :=
  forall (k : nat) (b c : Point),
    out !! (2 * k + 1)%nat = Some b -> out !! (2 * k + 2)%nat = Some c ->
    px b = px c.

(** The value an array holds at index [i], and 0 where it holds none: used
    to state what the arrays contain, not to model a read of the program. *)
Definition cellValue (a : list R) (i : nat) : R := default 0 (a !! i).

(** The three arrays stay aligned while the grid is filled: every cell of
    [fA] is the modulus of the cell of [(fR, fI)], and the running maximum
    is not negative. *)
Definition consistent (acc : FieldAcc) : Prop :=
  length (fR acc) = length (fA acc) /\
  length (fI acc) = length (fA acc) /\
  0 <= maxAmp acc /\
  forall i : nat,
    cellValue (fA acc) i
    = JsMath.sqrt (cellValue (fR acc) i * cellValue (fR acc) i
                   + cellValue (fI acc) i * cellValue (fI acc) i).

(** The playback timer is sound when the element plays exactly if it holds
    the handle of the one interval the host is running for it. *)
Definition timerSound (this : AiryWidget.GaussianProfileElement) : Prop :=
  match AiryWidget.animationInterval this with
  | Some id => AiryWidget.isPlaying this = true /\ AiryWidget.intervals this = [id]
  | None => AiryWidget.isPlaying this = false /\ AiryWidget.intervals this = []
  end.

(** No cell of [fA] exceeds the running maximum. *)
Definition peaked (acc : FieldAcc) : Prop :=
  forall i : nat, cellValue (fA acc) i <= maxAmp acc.

(** The state [this] holds the field [_computeField] stored when it ran on
    [this0]: the three arrays, their scale and the resolution of their grid.
    The properties and the time of [this] may have changed since. *)
Definition holdsField (this0 this : DiffractionSlit) : Prop :=
  _fieldReal this = Some (fR (fieldGrid this0)) /\
  _fieldImag this = Some (fI (fieldGrid this0)) /\
  _fieldAmp this = Some (fA (fieldGrid this0)) /\
  _normScale this = _normScale (_computeField this0) /\
  _res this = _res (_computeField this0) /\
  _hW this = _hW (_computeField this0).

(** The running maximum is 0 or the magnitude of a cell below index [b]. *)
Definition attained (b : nat) (acc : FieldAcc) : Prop :=
  maxAmp acc = 0 \/
  exists i : nat, (i < b)%nat /\ fA acc !! i = Some (maxAmp acc).

(** Apertures in order along the barrier: each starts at or after [prev],
    the end of the one before it, and the last ends on the canvas. *)
Fixpoint inOrder (prev : R) (slitRanges : list (R * R)) : Prop :=
  match slitRanges with
  | [] => prev <= _W
  | (l, r) :: rest => prev <= l /\ l <= r /\ inOrder r rest
  end.

(** The total width of a list of rectangles. *)
Definition totalWidth (rects : list SlitOverlay.Rect) : R :=
  Rsum (map SlitOverlay.rect_w rects).

(** The intensity [_drawIntensityProfile] plots at column [cx]: the squared,
    normalised magnitude of the cell of row 0 the column falls on. *)
Definition profileValue (fieldAmp : list R) (res norm : R) (cx : nat) : R :=
  let a := cellValue fieldAmp (toInt (INR cx / res)) in
  a * a * norm * norm.

(** * Properties *)

(** ** The point-spread function *)

Lemma airyDisk_depends_on_distance (r r' wl n c : R) :
  Rabs (r - c) = Rabs (r' - c) -> airyDisk r wl n c = airyDisk r' wl n c.
Proof.
  intros H. unfold airyDisk, JsMath.abs. rewrite H. reflexivity.
Qed.

(** C1. The point-spread function is exactly 1.0 at its own centre, whatever
    the wavelength, the numerical aperture and the centre are, and it is
    symmetric about the centre: the values at [center + d] and at
    [center - d] are equal for every offset [d]. *)
Theorem airyDisk_center_and_symmetry (wl n center : R) :
  airyDisk center wl n center = 1.0 /\
  forall d : R,
    airyDisk (center + d) wl n center = airyDisk (center - d) wl n center.
Proof.
  split.
  - unfold airyDisk, JsMath.abs.
    replace (center - center) with 0 by lra. rewrite Rabs_R0.
    case_decide; [reflexivity | contradiction].
  - intros d. apply airyDisk_depends_on_distance.
    replace (center + d - center) with d by lra.
    replace (center - d - center) with (- d) by lra.
    symmetry. apply Rabs_Ropp.
Qed.

(** ** Resolution criteria *)

(** C6. For a wavelength in [400, 700] nm and a numerical aperture in
    [0.1, 1.4], Sparrow < Abbe < Rayleigh, where the three criteria are
    0.47, 0.5 and 0.61 times the wavelength in micrometres over the NA. *)
Theorem criterion_ordering (this : GaussianProfile)
    (Hwl : 400 <= Airy.wavelength this <= 700)
    (Hna : 0.1 <= na this <= 1.4) :
  calculateSparrow this < calculateAbbe this < calculateRayleigh this /\
  calculateRayleigh this = 0.61 * (Airy.wavelength this / 1000) / na this /\
  calculateAbbe this = 0.5 * (Airy.wavelength this / 1000) / na this /\
  calculateSparrow this = 0.47 * (Airy.wavelength this / 1000) / na this.
Proof.
  unfold calculateSparrow, calculateAbbe, calculateRayleigh.
  split; [| auto].
  assert (Hinv : 0 < / na this) by (apply Rinv_0_lt_compat; lra).
  assert (Hq : 0 < Airy.wavelength this / 1000 * / na this)
    by (apply Rmult_lt_0_compat; lra).
  unfold Rdiv in *.
  rewrite !Rmult_assoc. rewrite !Rmult_assoc in Hq. lra.
Qed.

Lemma criterion_ordering_witness :
  (400 <= Airy.wavelength sampleProfile <= 700) /\
  (0.1 <= na sampleProfile <= 1.4) /\
  calculateSparrow sampleProfile < calculateAbbe sampleProfile
    < calculateRayleigh sampleProfile.
Proof.
  assert (Hwl : 400 <= Airy.wavelength sampleProfile <= 700) by (simpl; lra).
  assert (Hna : 0.1 <= na sampleProfile <= 1.4) by (simpl; lra).
  split; [exact Hwl | split; [exact Hna |]].
  exact (proj1 (criterion_ordering sampleProfile Hwl Hna)).
Defined.

(** ** The pixel discretizer *)

(** C5. With a pixel size that is zero or negative, [discretizeData] returns
    the empty sequence whatever the profile, the offset and the noise level
    are: no loop is entered (it returns on any fuel) and nothing is drawn
    from the random source. *)
Theorem discretizeData_nonpositive_pixelSize
    (fuel : nat) (continuousData : list Point)
    (pixelSize pixelOffset noiseLevel : R) (g : Rng)
    (Hsize : pixelSize <= 0) :
  discretizeData fuel continuousData pixelSize pixelOffset noiseLevel g
    = Some ([], g).
Proof.
  unfold discretizeData. case_decide; [reflexivity | contradiction].
Qed.

Lemma discretizeData_nonpositive_pixelSize_witness :
  0 <= 0 /\
  discretizeData 0 [mkPoint (-2) 1; mkPoint 2 1] 0 0.3 0.1 halfDraws
    = Some ([], halfDraws).
Proof.
  split; [lra |].
  apply (discretizeData_nonpositive_pixelSize 0 _ 0 0.3 0.1 halfDraws). lra.
Defined.

(** ** Gray levels *)

Lemma clamp_bounds (v lo hi : R) : lo <= hi -> lo <= clamp v lo hi <= hi.
Proof.
  intros Hle. unfold clamp. repeat case_decide; lra.
Qed.

Lemma Rabs_le_both (a b : R) : Rabs a <= b -> - b <= a <= b.
Proof.
  unfold Rabs. destruct (Rcase_abs a); lra.
Qed.

Lemma round_between (x : R) (a b : Z) :
  IZR a <= x <= IZR b ->
  exists z : Z, JsMath.round x = IZR z /\ (a <= z <= b)%Z.
Proof.
  intros [Ha Hb]. unfold JsMath.round. eexists; split; [reflexivity |].
  split.
  - apply Zfloor_lub. lra.
  - assert (Hlt : (Zfloor (x + 0.5) < b + 1)%Z); [| lia].
    apply lt_IZR. rewrite plus_IZR.
    pose proof (Zfloor_bound (x + 0.5)) as Hfl. lra.
Qed.

Lemma wavefrontGray_integer (field amp : R) :
  0 <= amp -> Rabs field <= amp ->
  exists z : Z, wavefrontGray field amp = IZR z /\ (0 <= z <= 255)%Z.
Proof.
  intros Hamp Hfield. unfold wavefrontGray.
  case_decide as Hsmall.
  - exists 0%Z. split; [reflexivity | lia].
  - apply round_between.
    assert (Hpos : 0 < amp) by lra.
    assert (Hnf : -1 <= field / amp <= 1).
    { apply Rabs_le_both in Hfield.
      split; apply (Rmult_le_reg_r amp); try lra;
        unfold Rdiv; rewrite Rmult_assoc, Rinv_l by lra; lra. }
    set (nf := field / amp) in *.
    assert (Hcrest : 0 <= JsMath.max 0 ((nf - 0.6) / 0.4) <= 1).
    { unfold JsMath.max. split; [apply Rmax_l |]. apply Rmax_lub; lra. }
    assert (Haf : 0 <= JsMath.min 1 (amp * 3) <= 1).
    { unfold JsMath.min. split; [apply Rmin_glb; lra | apply Rmin_l]. }
    set (crest := JsMath.max 0 ((nf - 0.6) / 0.4)) in *.
    set (af := JsMath.min 1 (amp * 3)) in *.
    split; nra.
Qed.

(** C10. For [amp >= 0] and [|field| <= amp], [wavefrontGray] returns an
    integer gray level between 0 and 255, and it returns exactly 0 whenever
    [amp < 0.005]. *)
Theorem wavefrontGray_range (field amp : R)
    (Hamp : 0 <= amp) (Hfield : Rabs field <= amp) :
  (exists z : Z, wavefrontGray field amp = IZR z /\ (0 <= z <= 255)%Z) /\
  (amp < 0.005 -> wavefrontGray field amp = 0).
Proof.
  split.
  - apply wavefrontGray_integer; assumption.
  - intros Hsmall. unfold wavefrontGray.
    case_decide; [reflexivity | contradiction].
Qed.

Lemma wavefrontGray_range_witness :
  (0 <= 0.5) /\ (Rabs 0.5 <= 0.5) /\
  (exists z : Z, wavefrontGray 0.5 0.5 = IZR z /\ (0 <= z <= 255)%Z).
Proof.
  assert (Hamp : 0 <= 0.5) by lra.
  assert (Hfield : Rabs 0.5 <= 0.5) by (rewrite Rabs_pos_eq; lra).
  split; [exact Hamp | split; [exact Hfield |]].
  exact (proj1 (wavefrontGray_range 0.5 0.5 Hamp Hfield)).
Defined.

Lemma toUint8Clamp_bounds (v : R) (a : Z) :
  (0 <= a <= 255)%Z -> IZR a <= v <= 255 -> (a <= toUint8Clamp v <= 255)%Z.
Proof.
  intros Ha [Hlo Hhi]. unfold toUint8Clamp.
  assert (Ha0 : 0 <= IZR a) by (apply IZR_le; lia).
  case_decide as H0.
  { assert (a = 0)%Z; [| lia].
    apply Z.le_antisymm; [| lia]. apply le_IZR. lra. }
  case_decide as H255; [lia |].
  assert (Hfl : (a <= Zfloor v)%Z) by (apply Zfloor_lub; exact Hlo).
  assert (Hfu : (Zfloor v < 255)%Z).
  { apply lt_IZR. pose proof (Zfloor_bound v). lra. }
  repeat case_decide; try destruct (Z.even (Zfloor v)); lia.
Qed.

(** ** Slit geometry on update *)

Lemma renderFrame_geometry (this : DiffractionSlit) :
  mode (_renderFrame this) = mode this /\
  slitWidth (_renderFrame this) = slitWidth this /\
  slitSeparation (_renderFrame this) = slitSeparation this.
Proof.
  unfold _renderFrame.
  destruct (_canvas this); [destruct (_fieldReal this) |]; auto.
Qed.

Lemma updated_geometry (changed : gset string) (this : DiffractionSlit) :
  let clamped :=
    if decide (mode this = "double" /\ slitSeparation this < slitWidth this)
    then if decide ("slitWidth" ∈ changed)
         then set_slitWidth (slitSeparation this) this
         else set_slitSeparation (slitWidth this) this
    else this in
  slitWidth (updated changed this) = slitWidth clamped /\
  slitSeparation (updated changed this) = slitSeparation clamped.
Proof.
  intros clamped. unfold updated. fold clamped.
  generalize clamped. clear. intros s.
  set (s1 := if decide (Exists _ needsRecompute /\ _) then _ else s).
  assert (H1 : slitWidth s1 = slitWidth s /\ slitSeparation s1 = slitSeparation s).
  { unfold s1. case_decide; auto. }
  set (s2 := if decide (_ \/ _) then _ else s1).
  assert (H2 : slitWidth s2 = slitWidth s /\ slitSeparation s2 = slitSeparation s).
  { unfold s2. case_decide; [| exact H1].
    case_decide; [| exact H1].
    destruct (renderFrame_geometry s1) as (_ & Hw & Hs).
    rewrite Hw, Hs. exact H1. }
  case_decide; [| exact H2].
  unfold _startAnimation, _stopAnimation.
  destruct (isPlaying s2), (_animationId s2); exact H2.
Qed.

(** C7. In double-slit mode, after [updated] the separation is at least the
    width.  When the separation asked for is below the width, the update goes
    through with the two made equal: the width is lowered to the separation
    if the width is what changed, otherwise the separation is raised to the
    width. *)
Theorem updated_separation_ge_width
    (changed : gset string) (this : DiffractionSlit)
    (Hmode : mode this = "double") :
  slitSeparation (updated changed this) >= slitWidth (updated changed this) /\
  (slitSeparation this < slitWidth this ->
     slitSeparation (updated changed this) = slitWidth (updated changed this) /\
     ((("slitWidth" ∈ changed) /\
       slitWidth (updated changed this) = slitSeparation this /\
       slitSeparation (updated changed this) = slitSeparation this) \/
      (("slitWidth" ∉ changed) /\
       slitSeparation (updated changed this) = slitWidth this /\
       slitWidth (updated changed this) = slitWidth this))).
Proof.
  destruct (updated_geometry changed this) as [Hw Hs].
  rewrite Hw, Hs. clear Hw Hs.
  case_decide as Hc.
  - destruct Hc as [_ Hlt]. case_decide as Hin; simpl.
    + split; [lra |]. intros _. split; [reflexivity |]. left. auto.
    + split; [lra |]. intros _. split; [reflexivity |]. right. auto.
  - assert (Hge : ~ slitSeparation this < slitWidth this) by tauto.
    split; [lra |]. intros Hlt. contradiction.
Qed.

Lemma updated_separation_ge_width_witness :
  mode wideSlit = "double" /\
  slitSeparation wideSlit < slitWidth wideSlit /\
  slitSeparation (updated {["slitWidth"]} wideSlit) = 5 /\
  slitWidth (updated {["slitWidth"]} wideSlit) = 5.
Proof.
  assert (Hmode : mode wideSlit = "double") by reflexivity.
  assert (Hlt : slitSeparation wideSlit < slitWidth wideSlit) by (simpl; lra).
  destruct (updated_separation_ge_width {["slitWidth"]} wideSlit Hmode)
    as [_ Hclamp].
  destruct (Hclamp Hlt) as [_ [(_ & Hw & Hs) | (Hnot & _)]].
  - split; [exact Hmode | split; [exact Hlt |]].
    split; [rewrite Hs | rewrite Hw]; reflexivity.
  - exfalso. apply Hnot. apply elem_of_singleton. reflexivity.
Defined.

(** ** Source discretisation *)

Lemma fold_left_push {A B : Type} (f : B -> A) (l : list B) (acc : list A) :
  fold_left (fun acc j => acc ++ [f j]) l acc = acc ++ map f l.
Proof.
  revert acc. induction l as [| j l IH]; intros acc; simpl.
  - rewrite app_nil_r. reflexivity.
  - rewrite IH, <- app_assoc. reflexivity.
Qed.

Lemma pushSources_app (N : R) (sources : list R) (range : R * R) :
  pushSources N sources range = sources ++ sourcesOf N range.
Proof.
  destruct range as [l r]. unfold pushSources, sourcesOf. simpl.
  apply (fold_left_push (fun j => l + (INR j + 0.5) * ((r - l) / N))).
Qed.

Lemma buildSources_flat_map (N : R) (slitRanges : list (R * R)) :
  buildSources N slitRanges = flat_map (sourcesOf N) slitRanges.
Proof.
  unfold buildSources.
  assert (H : forall acc,
             fold_left (pushSources N) slitRanges acc
             = acc ++ flat_map (sourcesOf N) slitRanges).
  { induction slitRanges as [| rg rest IH]; intros acc; simpl.
    - rewrite app_nil_r. reflexivity.
    - rewrite IH, pushSources_app, <- app_assoc. reflexivity. }
  apply (H []).
Qed.

Lemma Zceil_IZR (z : Z) : Zceil (IZR z) = z.
Proof. apply Zceil_eq. lra. Qed.

Lemma sourceCount_integer (this : DiffractionSlit) :
  sourceCount this = IZR (Z.max 10 (Zfloor (slitWidth this * 12 + 0.5))).
Proof.
  unfold sourceCount, JsMath.max, JsMath.round.
  destruct (Z.max_spec 10 (Zfloor (slitWidth this * 12 + 0.5))) as [[Hlt ->] | [Hle ->]].
  - apply Rmax_right. apply IZR_le. lia.
  - apply Rmax_left. apply IZR_le. lia.
Qed.

(** C8. The solver places [N = max(10, round(slitWidth * 12))] sources in
    each aperture, the same [N] for every aperture: the source list is, range
    after range, the [N] points [left + (j + 0.5) * (width / N)], evenly
    spaced by [width / N].  At [slitWidth = 1] this [N] is 12, and a single
    slit then has 12 sources. *)
Theorem computeField_source_count (this : DiffractionSlit) :
  let N := Z.max 10 (Zfloor (slitWidth this * 12 + 0.5)) in
  sourceCount this = JsMath.max 10 (JsMath.round (slitWidth this * 12)) /\
  sourceCount this = IZR N /\
  _sources (_computeField this)
    = flat_map
        (fun range =>
           map (fun j => fst range
                         + (INR j + 0.5) * ((snd range - fst range) / IZR N))
               (seq 0 (Z.to_nat N)))
        (_getSlitRanges this) /\
  length (_sources (_computeField this))
    = (length (_getSlitRanges this) * Z.to_nat N)%nat /\
  (slitWidth this = 1 ->
     N = 12%Z /\
     (mode this = "single" -> length (_sources (_computeField this)) = 12%nat)).
Proof.
  intros N.
  assert (HN : sourceCount this = IZR N) by apply sourceCount_integer.
  assert (Hsrc : _sources (_computeField this)
                 = flat_map
                     (fun range =>
                        map (fun j => fst range
                               + (INR j + 0.5) * ((snd range - fst range) / IZR N))
                            (seq 0 (Z.to_nat N)))
                     (_getSlitRanges this)).
  { simpl. rewrite buildSources_flat_map, HN.
    unfold sourcesOf, upto. rewrite Zceil_IZR. reflexivity. }
  assert (Hlen : length (_sources (_computeField this))
                 = (length (_getSlitRanges this) * Z.to_nat N)%nat).
  { rewrite Hsrc. generalize (_getSlitRanges this). intros ranges.
    induction ranges as [| rg rest IH]; simpl; [reflexivity |].
    rewrite length_app, IH, length_map, length_seq. reflexivity. }
  split; [reflexivity |]. split; [exact HN |].
  split; [exact Hsrc |]. split; [exact Hlen |].
  intros Hw.
  assert (HN12 : N = 12%Z).
  { unfold N. rewrite Hw.
    rewrite (Zfloor_eq 12) by (simpl; lra). reflexivity. }
  split; [exact HN12 |].
  intros Hsingle. rewrite Hlen, HN12.
  unfold _getSlitRanges. rewrite decide_True by exact Hsingle. reflexivity.
Qed.

Lemma computeField_source_count_witness :
  slitWidth singleSlit = 1 /\ mode singleSlit = "single" /\
  sourceCount singleSlit = 12 /\
  length (_sources (_computeField singleSlit)) = 12%nat.
Proof.
  pose proof (computeField_source_count singleSlit) as (_ & HN & _ & _ & H1).
  destruct (H1 eq_refl) as [H12 Hlen].
  split; [reflexivity | split; [reflexivity |]].
  split; [rewrite HN, H12; reflexivity | exact (Hlen eq_refl)].
Defined.

(** ** The two-source profile *)

Lemma generateAiryData_fold (wl n pos1 pos2 : R) (l : list nat) (acc : AiryData) :
  let rVal := fun i : nat => rMin + (rMax - rMin) * INR i / (INR numPoints - 1) in
  fold_left (generateAiryData_step wl n pos1 pos2) l acc
  = {| data1 := data1 acc
                ++ map (fun i => mkPoint (rVal i) (airyDisk (rVal i) wl n pos1)) l;
       data2 := data2 acc
                ++ map (fun i => mkPoint (rVal i) (airyDisk (rVal i) wl n pos2)) l;
       dataSum := dataSum acc
                ++ map (fun i => mkPoint (rVal i)
                                   (airyDisk (rVal i) wl n pos1
                                    + airyDisk (rVal i) wl n pos2)) l |}.
Proof.
  intros rVal. revert acc.
  induction l as [| i l IH]; intros acc; simpl.
  - rewrite !app_nil_r. destruct acc; reflexivity.
  - rewrite IH. simpl. rewrite <- !app_assoc. reflexivity.
Qed.

Lemma INR_numPoints : INR numPoints = 300.
Proof. unfold numPoints. rewrite INR_IZR_INZ. reflexivity. Qed.

Lemma rVal_grid (i : nat) :
  rMin + (rMax - rMin) * INR i / (INR numPoints - 1) = -2 + INR i * (4 / 299).
Proof.
  rewrite INR_numPoints. unfold rMin, rMax. lra.
Qed.

Lemma lookup_map_seq0 {A : Type} (f : nat -> A) (n i : nat) :
  (i < n)%nat -> map f (seq 0 n) !! i = Some (f i).
Proof.
  intros Hi. change (map f (seq 0 n)) with (f <$> seq 0 n).
  rewrite list_lookup_fmap, lookup_seq_lt by exact Hi. reflexivity.
Qed.

(** The three series in closed form. *)
Lemma generateAiryData_closed (wl n dist : R) :
  let x := fun j : nat => -2 + INR j * (4 / 299) in
  generateAiryData wl n dist
  = {| data1 := map (fun i => mkPoint (x i) (airyDisk (x i) wl n (- dist / 2)))
                    (seq 0 300);
       data2 := map (fun i => mkPoint (x i) (airyDisk (x i) wl n (dist / 2)))
                    (seq 0 300);
       dataSum := map (fun i => mkPoint (x i)
                                  (airyDisk (x i) wl n (- dist / 2)
                                   + airyDisk (x i) wl n (dist / 2)))
                      (seq 0 300) |}.
Proof.
  intros x. unfold generateAiryData. rewrite generateAiryData_fold.
  cbn [data1 data2 dataSum app]. change numPoints with 300%nat at 2 4 6.
  unfold x. f_equal; apply map_ext; intros j; rewrite !rVal_grid; reflexivity.
Qed.

(** C2. [generateAiryData] returns three series of exactly 300 samples.
    Sample [i] of each series sits at the same position [-2 + i * 4/299], so
    the positions are equally spaced by 4/299, the first is exactly -2.0 and
    the last exactly 2.0.  Series 1 and 2 hold the point-spread function of
    the sources at [-distance/2] and [+distance/2], and the third series
    holds their sum [data1[i].y + data2[i].y]. *)
Theorem generateAiryData_profile (wl n dist : R) (i : nat)
    (Hi : (i < 300)%nat) :
  let out := generateAiryData wl n dist in
  let x := fun j : nat => -2 + INR j * (4 / 299) in
  length (data1 out) = 300%nat /\
  length (data2 out) = 300%nat /\
  length (dataSum out) = 300%nat /\
  (exists p1 p2 ps,
     data1 out !! i = Some p1 /\
     data2 out !! i = Some p2 /\
     dataSum out !! i = Some ps /\
     px p1 = x i /\ px p2 = px p1 /\ px ps = px p1 /\
     py p1 = airyDisk (x i) wl n (- dist / 2) /\
     py p2 = airyDisk (x i) wl n (dist / 2) /\
     py ps = py p1 + py p2) /\
  x 0%nat = -2.0 /\ x 299%nat = 2.0 /\
  (forall j : nat, x (S j) - x j = 4 / 299).
Proof.
  intros out x.
  assert (Hout : out = _) by apply generateAiryData_closed.
  fold x in Hout.
  rewrite Hout. cbn [data1 data2 dataSum].
  rewrite !length_map, !length_seq.
  split; [reflexivity |]. split; [reflexivity |]. split; [reflexivity |].
  split.
  - eexists _, _, _.
    rewrite !lookup_map_seq0 by exact Hi.
    split; [reflexivity |]. split; [reflexivity |]. split; [reflexivity |].
    cbn [px py]. auto 10.
  - unfold x. split; [simpl; lra |].
    split.
    + replace (INR 299) with 299 by (rewrite INR_IZR_INZ; reflexivity). lra.
    + intros j. rewrite S_INR. lra.
Qed.

Lemma generateAiryData_profile_witness :
  (299 < 300)%nat /\
  exists ps,
    dataSum (generateAiryData 550 1.0 0.5) !! 299%nat = Some ps /\
    px ps = -2 + INR 299 * (4 / 299).
Proof.
  assert (Hi : (299 < 300)%nat) by lia.
  split; [exact Hi |].
  destruct (generateAiryData_profile 550 1.0 0.5 299 Hi)
    as (_ & _ & _ & (p1 & p2 & ps & _ & _ & Hs & Hx1 & _ & Hxs & _) & _).
  exists ps. split; [exact Hs |]. rewrite Hxs. exact Hx1.
Defined.

(** ** The field grid *)

Lemma fA_computeCell k res dxSrc dy dy2 sources rowOff acc hx :
  fA (computeCell k res dxSrc dy dy2 sources rowOff acc hx)
  = <[(rowOff + hx)%nat := cellAmp k res dxSrc dy dy2 sources hx]> (fA acc).
Proof.
  unfold computeCell, cellAmp, cellSum.
  destruct (fold_left _ sources (0, 0)) as [uR uI]. reflexivity.
Qed.

Lemma fA_row_fold k res dxSrc dy dy2 sources rowOff (l : list nat) acc :
  fA (fold_left (computeCell k res dxSrc dy dy2 sources rowOff) l acc)
  = fold_left
      (fun a hx => <[(rowOff + hx)%nat := cellAmp k res dxSrc dy dy2 sources hx]> a)
      l (fA acc).
Proof.
  revert acc. induction l as [| hx l IH]; intros acc; simpl; [reflexivity |].
  rewrite IH, fA_computeCell. reflexivity.
Qed.

Lemma fold_insert_seq {A : Type} (g : nat -> A) (off n : nat) (a0 : list A) :
  let a := fold_left (fun a j => <[(off + j)%nat := g j]> a) (seq 0 n) a0 in
  length a = length a0 /\
  forall i : nat, (i < length a0)%nat ->
    a !! i = if decide (off <= i < off + n)%nat then Some (g (i - off)%nat)
             else a0 !! i.
Proof.
  cbv zeta. induction n as [| n [IHlen IHget]].
  - cbn [seq fold_left]. split; [reflexivity |]. intros i Hi.
    rewrite decide_False by lia. reflexivity.
  - rewrite seq_S, fold_left_app. cbn [fold_left Nat.add].
    split; [rewrite length_insert; exact IHlen |].
    intros i Hi. destruct (decide (off + n = i)%nat) as [<- | Hne].
    + rewrite list_lookup_insert_eq by (rewrite IHlen; exact Hi).
      rewrite decide_True by lia. do 2 f_equal. lia.
    + rewrite list_lookup_insert_ne by exact Hne.
      rewrite IHget by exact Hi.
      repeat case_decide; try reflexivity; try lia.
Qed.

Lemma fA_rows k res dxSrc barrierY sources (hW n : nat) (acc0 : FieldAcc) :
  let rows := fold_left (computeRow k res dxSrc barrierY sources hW) (seq 0 n) acc0 in
  let dy := fun hy : nat => barrierY - INR hy * res in
  length (fA rows) = length (fA acc0) /\
  forall hy hx : nat,
    (hx < hW)%nat -> (hy * hW + hx < length (fA acc0))%nat ->
    fA rows !! (hy * hW + hx)%nat
    = if decide ((hy < n)%nat /\ ~ (dy hy < 2))
      then Some (cellAmp k res dxSrc (dy hy) (dy hy * dy hy) sources hx)
      else fA acc0 !! (hy * hW + hx)%nat.
Proof.
  intros rows dy. subst rows.
  induction n as [| n [IHlen IHget]].
  - cbn [seq fold_left]. split; [reflexivity |]. intros hy hx _ _.
    rewrite decide_False by lia. reflexivity.
  - rewrite seq_S, fold_left_app. cbn [fold_left Nat.add].
    set (prev := fold_left _ (seq 0 n) acc0) in *.
    unfold computeRow. fold (dy n).
    destruct (decide (dy n < 2)) as [Hnear | Hfar].
    + split; [exact IHlen |]. intros hy hx Hx Hidx.
      rewrite IHget by assumption.
      destruct (decide (hy = n)) as [-> | Hne].
      * rewrite !decide_False by tauto. reflexivity.
      * apply decide_ext. intuition lia.
    + rewrite fA_row_fold.
      destruct (fold_insert_seq
                  (cellAmp k res dxSrc (dy n) (dy n * dy n) sources)
                  (n * hW) hW (fA prev)) as [Hlen Hget].
      split; [rewrite Hlen; exact IHlen |].
      intros hy hx Hx Hidx.
      rewrite Hget by (rewrite IHlen; exact Hidx).
      destruct (decide (hy = n)) as [-> | Hne].
      * rewrite decide_True by lia.
        rewrite decide_True by (split; [lia | exact Hfar]).
        do 2 f_equal. lia.
      * rewrite decide_False by nia.
        rewrite IHget by assumption.
        apply decide_ext. intuition lia.
Qed.

(** *** Mirror symmetry of the coherent sum *)

Lemma Rsum_app (l1 l2 : list R) : Rsum (l1 ++ l2) = Rsum l1 + Rsum l2.
Proof.
  induction l1 as [| x l1 IH]; simpl; [lra | rewrite IH; lra].
Qed.

Lemma Rsum_seq_flip (g : nat -> R) (n : nat) :
  Rsum (map (fun j => g (n - 1 - j)%nat) (seq 0 n)) = Rsum (map g (seq 0 n)).
Proof.
  induction n as [| n IH]; [reflexivity |].
  assert (HR : Rsum (map g (seq 0 (S n))) = Rsum (map g (seq 0 n)) + g n).
  { rewrite seq_S, map_app, Rsum_app. simpl. lra. }
  rewrite HR, <- IH. clear HR IH.
  cbn [seq map]. rewrite <- seq_shift, map_map.
  replace (S n - 1 - 0)%nat with n by lia.
  rewrite (map_ext (fun j => g (S n - 1 - S j)%nat) (fun j => g (n - 1 - j)%nat))
    by (intros j; f_equal; lia).
  unfold Rsum at 1. cbn [fold_right].
  fold (Rsum (map (fun j => g (n - 1 - j)%nat) (seq 0 n))). lra.
Qed.

Lemma fold_addWavelet k dy dy2 cx (l : list R) (u : R * R) :
  fold_left (addWavelet k dy dy2 cx) l u
  = (fst u + Rsum (map (waveletRe k dy dy2 cx) l),
     snd u + Rsum (map (waveletIm k dy dy2 cx) l)).
Proof.
  revert u. induction l as [| s l IH]; intros [uR uI]; simpl.
  - f_equal; lra.
  - rewrite IH. unfold waveletRe, waveletIm. simpl. f_equal; lra.
Qed.

Lemma cellSum_sums k dy dy2 cx (sources : list R) :
  cellSum k dy dy2 cx sources
  = (Rsum (map (waveletRe k dy dy2 cx) sources),
     Rsum (map (waveletIm k dy dy2 cx) sources)).
Proof.
  unfold cellSum. rewrite fold_addWavelet. simpl. f_equal; lra.
Qed.

Lemma wavelet_mirror k dy dy2 cx s (W : R) :
  waveletRe k dy dy2 (W - cx) s = waveletRe k dy dy2 cx (W - s) /\
  waveletIm k dy dy2 (W - cx) s = waveletIm k dy dy2 cx (W - s).
Proof.
  unfold waveletRe, waveletIm.
  replace ((W - cx - s) * (W - cx - s))
    with ((cx - (W - s)) * (cx - (W - s))) by lra.
  split; reflexivity.
Qed.

(** Evenly spaced points [a + (j + 0.5) d], [j < n], are their own mirror
    image about the middle of [[a, a + n d]]. *)
Lemma mirrored_points_sum (c : R -> R) (a d W : R) (n : nat) :
  W = 2 * a + INR n * d ->
  Rsum (map (fun s => c (W - s))
            (map (fun j => a + (INR j + 0.5) * d) (seq 0 n)))
  = Rsum (map c (map (fun j => a + (INR j + 0.5) * d) (seq 0 n))).
Proof.
  intros HW. rewrite !map_map.
  rewrite <- (Rsum_seq_flip (fun j => c (a + (INR j + 0.5) * d)) n).
  f_equal. apply map_ext_in. intros j Hj. apply in_seq in Hj.
  f_equal. rewrite !minus_INR by lia. simpl INR. lra.
Qed.

Lemma cellSum_mirror k dy dy2 cx (a d W : R) (n : nat) :
  W = 2 * a + INR n * d ->
  cellSum k dy dy2 (W - cx) (map (fun j => a + (INR j + 0.5) * d) (seq 0 n))
  = cellSum k dy dy2 cx (map (fun j => a + (INR j + 0.5) * d) (seq 0 n)).
Proof.
  intros HW. rewrite !cellSum_sums.
  rewrite <- (mirrored_points_sum (waveletRe k dy dy2 cx) a d W n HW).
  rewrite <- (mirrored_points_sum (waveletIm k dy dy2 cx) a d W n HW).
  f_equal; f_equal; apply map_ext; intros s; apply wavelet_mirror.
Qed.

Lemma sourceCount_positive (this : DiffractionSlit) :
  exists n : nat, sourceCount this = INR n /\ (0 < n)%nat /\ upto (sourceCount this) = seq 0 n.
Proof.
  pose proof (sourceCount_integer this) as HN.
  set (Nz := Z.max 10 (Zfloor (slitWidth this * 12 + 0.5))) in *.
  exists (Z.to_nat Nz).
  assert (HNz : (10 <= Nz)%Z) by (unfold Nz; lia).
  split; [| split].
  - rewrite HN, INR_IZR_INZ, Z2Nat.id by lia. reflexivity.
  - lia.
  - unfold upto. rewrite HN, Zceil_IZR. reflexivity.
Qed.

(** C9. With a single aperture, centred on the canvas, the field magnitude
    is symmetric about the aperture's vertical centre line: in every grid row
    [hy], two cells [hx] and [hx'] at equal horizontal distances on either
    side of the centre line hold the same magnitude (over exact arithmetic). *)
Theorem fieldAmp_mirror_symmetry (this : DiffractionSlit) (hy hx hx' : nat)
    (Hmode : mode this = "single")
    (Hy : (hy < _hBY (_computeField this))%nat)
    (Hx : (hx < _hW (_computeField this))%nat)
    (Hx' : (hx' < _hW (_computeField this))%nat)
    (Hmirror : INR hx * _res (_computeField this) - _W / 2
               = _W / 2 - INR hx' * _res (_computeField this)) :
  (exists l r, _getSlitRanges this = [(l, r)] /\ (l + r) / 2 = _W / 2) /\
  (exists (fieldAmp : list R) (a : R),
     _fieldAmp (_computeField this) = Some fieldAmp /\
     fieldAmp !! (hy * _hW (_computeField this) + hx)%nat = Some a /\
     fieldAmp !! (hy * _hW (_computeField this) + hx')%nat = Some a).
Proof.
  assert (Hranges : _getSlitRanges this
                    = [(_W / 2 - slitWidth this * Slit.wavelength this / 2,
                        _W / 2 + slitWidth this * Slit.wavelength this / 2)]).
  { unfold _getSlitRanges. rewrite decide_True by exact Hmode. reflexivity. }
  split.
  { eexists _, _. split; [exact Hranges |]. lra. }
  unfold _computeField in *. cbn [_hW _hBY _res _fieldAmp] in *.
  set (res := if highQuality this then 1 else 2) in *.
  set (hW := Z.to_nat (Zceil (_W / res))) in *.
  set (hBY := Z.to_nat (Zceil (_barrierY / res))) in *.
  exists (fA (fieldGrid this)).
  unfold fieldGrid. fold res hW hBY. rewrite Hranges.
  destruct (sourceCount_positive this) as (n & HN & Hn & Hupto).
  rewrite buildSources_flat_map. cbn [flat_map]. rewrite app_nil_r.
  unfold sourcesOf. rewrite Hupto. cbn [fst snd].
  set (sw := slitWidth this * Slit.wavelength this) in *.
  set (sources := map _ (seq 0 n)).
  set (k := 2 * JsMath.PI / Slit.wavelength this).
  set (dxSrc := sw / sourceCount this).
  set (acc0 := mkFieldAcc _ _ _ 0).
  destruct (fA_rows k res dxSrc _barrierY sources hW hBY acc0) as [_ Hget].
  assert (Hlen0 : length (fA acc0) = (hBY * hW)%nat)
    by (unfold acc0; cbn [fA]; apply length_replicate).
  assert (Hidx : forall c : nat, (c < hW)%nat -> (hy * hW + c < length (fA acc0))%nat)
    by (intros c Hc; rewrite Hlen0; nia).
  rewrite (Hget hy hx Hx (Hidx hx Hx)), (Hget hy hx' Hx' (Hidx hx' Hx')).
  case_decide as Hrow.
  - eexists. split; [reflexivity |]. split; [reflexivity |].
    f_equal. unfold cellAmp.
    replace (INR hx' * res) with (_W - INR hx * res) by lra.
    unfold sources.
    rewrite (cellSum_mirror k _ _ (INR hx * res)
               (_W / 2 - sw / 2) ((_W / 2 + sw / 2 - (_W / 2 - sw / 2)) / sourceCount this)
               _W n); [reflexivity |].
    rewrite HN. assert (Hn0 : INR n <> 0) by (apply not_0_INR; lia).
    field. exact Hn0.
  - exists 0. split; [reflexivity |].
    unfold acc0. cbn [fA].
    rewrite !lookup_replicate_2 by (rewrite <- Hlen0; apply Hidx; assumption).
    split; reflexivity.
Qed.

Lemma gridSize_singleSlit :
  _hW (_computeField singleSlit) = 800%nat /\
  _hBY (_computeField singleSlit) = 300%nat /\
  _res (_computeField singleSlit) = 1.
Proof.
  unfold _computeField. cbn [_hW _hBY _res singleSlit highQuality].
  unfold _W, _barrierY.
  rewrite (Zceil_eq 800), (Zceil_eq 300) by lra.
  split; [reflexivity | split; reflexivity].
Qed.

Lemma fieldAmp_mirror_symmetry_witness :
  exists (fieldAmp : list R) (a : R),
    _fieldAmp (_computeField singleSlit) = Some fieldAmp /\
    fieldAmp !! (7 * _hW (_computeField singleSlit) + 1)%nat = Some a /\
    fieldAmp !! (7 * _hW (_computeField singleSlit) + 799)%nat = Some a.
Proof.
  destruct gridSize_singleSlit as (HW & HBY & Hres).
  apply (fieldAmp_mirror_symmetry singleSlit 7 1 799 eq_refl).
  - rewrite HBY. lia.
  - rewrite HW. lia.
  - rewrite HW. lia.
  - rewrite Hres. unfold _W.
    replace (INR 799) with 799 by (rewrite INR_IZR_INZ; reflexivity).
    simpl INR. lra.
Defined.

(** ** The pixel grid of the discretizer *)

Lemma exists_nat_above (x : R) : exists n : nat, x <= INR n.
Proof.
  destruct (archimed x) as [Hup _].
  exists (Z.to_nat (up x)).
  destruct (Z_lt_le_dec (up x) 0) as [Hneg | Hpos].
  - apply IZR_lt in Hneg. pose proof (pos_INR (Z.to_nat (up x))). lra.
  - rewrite INR_IZR_INZ, Z2Nat.id by exact Hpos. lra.
Qed.

Lemma adjustStart_reaches (p : R) (n : nat) :
  p > 0 ->
  forall start : R, start <= rMin + INR n * p ->
  exists (s0 : R) (j : nat),
    (forall fuel : nat, (n < fuel)%nat -> adjustStart fuel p start = Some s0) /\
    s0 = start - INR j * p /\ s0 <= rMin /\ (s0 = start \/ rMin - p < s0).
Proof.
  intros Hp. induction n as [| n IH]; intros start Hstart.
  - exists start, 0%nat. simpl in Hstart.
    split; [| split; [simpl; lra | split; [lra | left; reflexivity]]].
    intros [| fuel] Hfuel; [lia |]. simpl.
    rewrite decide_False by lra. reflexivity.
  - destruct (decide (start > rMin)) as [Hgt | Hle].
    + rewrite S_INR in Hstart.
      destruct (IH (start - p)) as (s0 & j & Hrun & Hs0 & Hle0 & Hnear); [lra |].
      exists s0, (S j). split; [| split; [rewrite S_INR; lra | split; [exact Hle0 |]]].
      * intros [| fuel] Hfuel; [lia |]. simpl.
        rewrite decide_True by exact Hgt. apply Hrun. lia.
      * right. destruct Hnear as [-> | Hnear]; lra.
    + exists start, 0%nat.
      split; [| split; [simpl; lra | split; [lra | left; reflexivity]]].
      intros [| fuel] Hfuel; [lia |]. simpl.
      rewrite decide_False by exact Hle. reflexivity.
Qed.

Lemma processPixel_step (continuousData : list Point) (noise a b : R)
    (discretized : list Point) (g : Rng) :
  exists (y : R) (g' : Rng),
    processPixel continuousData noise a b discretized g
    = (discretized ++ stepOf continuousData a b y, g').
Proof.
  unfold processPixel, stepOf. fold (inPixel continuousData a b).
  case_decide.
  - case_decide.
    + destruct (gaussianRandom 0 noise g) as [z g']. eexists _, _. reflexivity.
    + eexists _, _. reflexivity.
  - exists 0, g. rewrite app_nil_r. reflexivity.
Qed.

Lemma stepsFrom_S (continuousData : list Point) (p s0 y : R) (ys : nat -> R) (m : nat) :
  stepsFrom continuousData p s0 (fun j => match j with O => y | S j' => ys j' end) (S m)
  = stepOf continuousData s0 (s0 + p) y ++ stepsFrom continuousData p (s0 + p) ys m.
Proof.
  unfold stepsFrom. cbn [seq flat_map]. f_equal.
  - simpl INR. replace (s0 + 0 * p) with s0 by lra. reflexivity.
  - rewrite <- seq_shift, flat_map_concat_map, map_map, <- flat_map_concat_map.
    apply flat_map_ext. intros j. rewrite S_INR.
    replace (s0 + (INR j + 1) * p) with (s0 + p + INR j * p) by lra.
    reflexivity.
Qed.

Lemma processPixels_reaches (continuousData : list Point) (p noise : R) (n : nat) :
  p > 0 ->
  forall (start : R) (discretized : list Point) (g : Rng),
    rMax <= start + INR n * p ->
    exists (m : nat) (ys : nat -> R) (g' : Rng),
      (forall fuel : nat, (n < fuel)%nat ->
         processPixels fuel continuousData p noise start discretized g
         = Some (discretized ++ stepsFrom continuousData p start ys m, g')) /\
      ((rMax <= start /\ m = 0%nat) \/
       (start < rMax /\ rMax <= start + INR m * p < rMax + p)).
Proof.
  intros Hp. induction n as [| n IH]; intros start discretized g Hend.
  - exists 0%nat, (fun _ => 0), g. simpl in Hend. split; [| left; split; [lra | reflexivity]].
    intros [| fuel] Hfuel; [lia |]. simpl.
    rewrite decide_False by lra. unfold stepsFrom. simpl. rewrite app_nil_r. reflexivity.
  - destruct (decide (start < rMax)) as [Hlt | Hge].
    + destruct (processPixel_step continuousData noise start (start + p) discretized g)
        as (y & g1 & Hpix).
      rewrite S_INR in Hend.
      destruct (IH (start + p) (discretized ++ stepOf continuousData start (start + p) y) g1)
        as (m & ys & g' & Hrun & Hm); [lra |].
      exists (S m), (fun j => match j with O => y | S j' => ys j' end), g'.
      split.
      * intros [| fuel] Hfuel; [lia |]. simpl.
        rewrite decide_True by exact Hlt. rewrite Hpix.
        rewrite Hrun by lia. rewrite stepsFrom_S, app_assoc. reflexivity.
      * right. split; [exact Hlt |]. rewrite S_INR.
        destruct Hm as [[Hstop ->] | [Hlt' Hm]]; [simpl | ]; lra.
    + exists 0%nat, (fun _ => 0), g. split; [| left; split; [lra | reflexivity]].
      intros [| fuel] Hfuel; [lia |]. simpl.
      rewrite decide_False by exact Hge. unfold stepsFrom. simpl.
      rewrite app_nil_r. reflexivity.
Qed.

Lemma nat_above_quotient (x p : R) :
  p > 0 -> exists n : nat, x <= INR n * p.
Proof.
  intros Hp. destruct (exists_nat_above (x / p)) as [n Hn]. exists n.
  apply (Rmult_le_compat_r p) in Hn; [| lra].
  unfold Rdiv in Hn. rewrite Rmult_assoc, Rinv_l, Rmult_1_r in Hn by lra.
  exact Hn.
Qed.

(** The output of [discretizeData] in closed form: the loops stop, the first
    pixel starts at [s0 = -offset - n p], the last of the [m] pixels ends at
    [s0 + m p], and the output is the steps of the non-empty pixels. *)
Lemma discretizeData_closed_form (continuousData : list Point)
    (p o noise : R) (g : Rng) :
  p > 0 -> 0 <= o <= p / 2 ->
  exists (fuel0 n m : nat) (s0 : R) (ys : nat -> R) (g' : Rng),
    s0 = - o - INR n * p /\
    rMin - p < s0 <= rMin /\
    rMax <= s0 + INR m * p < rMax + p /\
    forall fuel : nat, (fuel0 <= fuel)%nat ->
      discretizeData fuel continuousData p o noise g
      = Some (stepsFrom continuousData p s0 ys m, g').
Proof.
  intros Hp Ho.
  destruct (nat_above_quotient (- o - rMin) p Hp) as [n1 Hn1].
  destruct (adjustStart_reaches p n1 Hp (- o)) as (s0 & n & Hadj & Hs0 & Hle & Hnear);
    [lra |].
  destruct (nat_above_quotient (rMax - s0) p Hp) as [n2 Hn2].
  destruct (processPixels_reaches continuousData p noise n2 Hp s0 [] g)
    as (m & ys & g' & Hrun & Hm); [lra |].
  exists (S (n1 `max` n2)), n, m, s0, ys, g'.
  assert (Hlow : rMin - p < s0).
  { destruct Hnear as [-> | Hnear]; [unfold rMin; lra | exact Hnear]. }
  split; [exact Hs0 |]. split; [split; assumption |].
  split.
  - destruct Hm as [[Hstop _] | [_ Hm]]; [unfold rMin, rMax in *; lra | exact Hm].
  - intros fuel Hfuel. unfold discretizeData.
    rewrite decide_False by lra.
    rewrite Hadj by lia. rewrite Hrun by lia. reflexivity.
Qed.

Lemma stepsFrom_snoc (continuousData : list Point) (p s0 : R) (ys : nat -> R) (m : nat) :
  stepsFrom continuousData p s0 ys (S m)
  = stepsFrom continuousData p s0 ys m
    ++ stepOf continuousData (s0 + INR m * p) (s0 + INR m * p + p) (ys m).
Proof.
  unfold stepsFrom. rewrite seq_S, flat_map_app. cbn [flat_map Nat.add].
  rewrite app_nil_r. reflexivity.
Qed.

Lemma Steps_app (continuousData : list Point) (p : R) (l1 l2 : list Point) :
  Steps continuousData p l1 -> Steps continuousData p l2 ->
  Steps continuousData p (l1 ++ l2).
Proof.
  intros H1 H2. induction H1 as [| a y rest Hne _ IH]; [exact H2 |].
  simpl. apply Steps_cons; assumption.
Qed.

Lemma Steps_stepsFrom (continuousData : list Point) (p s0 : R) (ys : nat -> R) (m : nat) :
  Steps continuousData p (stepsFrom continuousData p s0 ys m).
Proof.
  induction m as [| m IH]; [apply Steps_nil |].
  rewrite stepsFrom_snoc. apply Steps_app; [exact IH |].
  unfold stepOf. case_decide as Hne; [| apply Steps_nil].
  apply Steps_cons; [exact Hne | apply Steps_nil].
Qed.

Lemma stepsFrom_bounds (continuousData : list Point) (p s0 lo hi : R)
    (ys : nat -> R) (M m : nat) :
  p > 0 -> lo <= s0 -> s0 + INR M * p <= hi -> (m <= M)%nat ->
  Forall (fun pt => lo <= px pt <= hi) (stepsFrom continuousData p s0 ys m).
Proof.
  intros Hp Hlo Hhi. induction m as [| m IH]; intros Hm; [apply List.Forall_nil |].
  rewrite stepsFrom_snoc. apply Forall_app. split; [apply IH; lia |].
  assert (HmM : INR m + 1 <= INR M) by (rewrite <- S_INR; apply le_INR; lia).
  pose proof (pos_INR m) as Hm0.
  unfold stepOf. case_decide; [| apply List.Forall_nil].
  apply List.Forall_cons; [cbn [px]; split; nra |].
  apply List.Forall_cons; [cbn [px]; split; nra | apply List.Forall_nil].
Qed.

Lemma pairs_lookup {A : Type} (f g : nat -> A) (m : nat) :
  let l := flat_map (fun j => [f j; g j]) (seq 0 m) in
  length l = (2 * m)%nat /\
  forall k : nat, (k < m)%nat ->
    l !! (2 * k)%nat = Some (f k) /\ l !! (2 * k + 1)%nat = Some (g k).
Proof.
  cbv zeta. induction m as [| m [IHlen IHget]].
  - split; [reflexivity | intros k Hk; lia].
  - rewrite seq_S, flat_map_app. cbn [flat_map Nat.add]. rewrite app_nil_r.
    split; [rewrite length_app, IHlen; simpl; lia |].
    intros k Hk. destruct (decide (k = m)) as [-> | Hne].
    + rewrite !lookup_app_r by lia. rewrite IHlen.
      replace (2 * m - 2 * m)%nat with 0%nat by lia.
      replace (2 * m + 1 - 2 * m)%nat with 1%nat by lia.
      split; reflexivity.
    + rewrite !lookup_app_l by lia. apply IHget. lia.
Qed.

Lemma stepsFrom_full (continuousData : list Point) (p s0 : R) (ys : nat -> R) (m : nat) :
  (forall j : nat, (j < m)%nat ->
     (0 < length (inPixel continuousData (s0 + INR j * p) (s0 + INR j * p + p)))%nat) ->
  stepsFrom continuousData p s0 ys m
  = flat_map (fun j => [mkPoint (s0 + INR j * p) (ys j);
                        mkPoint (s0 + INR j * p + p) (ys j)]) (seq 0 m).
Proof.
  induction m as [| m IH]; intros Hfull; [reflexivity |].
  rewrite stepsFrom_snoc, seq_S, flat_map_app, IH by (intros j Hj; apply Hfull; lia).
  cbn [flat_map Nat.add]. rewrite app_nil_r. f_equal.
  unfold stepOf. rewrite decide_True by (apply Hfull; lia). reflexivity.
Qed.

(** C3, as the code has it.  For [pixelSize > 0] and
    [0 <= offset <= pixelSize / 2] the loops of [discretizeData] stop and its
    output is a sequence of steps: two samples per non-empty pixel, at the
    pixel's left and right edges, carrying the same value, every sample
    within [[-2 - pixelSize, 2 + pixelSize]].  The pixels themselves tile
    [[s0, s0 + m pixelSize]], which contains the domain [[-2, 2]]; a pixel
    that holds no sample of the profile emits no step.  When every pixel holds
    a sample, consecutive steps are contiguous and run from a left edge at or
    below -2 to a right edge at or above 2. *)
Theorem discretizeData_steps (continuousData : list Point)
    (pixelSize pixelOffset noiseLevel : R) (g : Rng)
    (Hsize : pixelSize > 0)
    (Hoffset : 0 <= pixelOffset <= pixelSize / 2) :
  exists (fuel0 : nat) (out : list Point) (g' : Rng) (s0 : R) (m : nat),
    (forall fuel : nat, (fuel0 <= fuel)%nat ->
       discretizeData fuel continuousData pixelSize pixelOffset noiseLevel g
       = Some (out, g')) /\
    (exists ys : nat -> R, out = stepsFrom continuousData pixelSize s0 ys m) /\
    Steps continuousData pixelSize out /\
    Forall (fun pt => -2 - pixelSize <= px pt <= 2 + pixelSize) out /\
    (s0 <= -2 /\ 2 <= s0 + INR m * pixelSize) /\
    ((forall j : nat, (j < m)%nat ->
        (0 < length (inPixel continuousData (s0 + INR j * pixelSize)
                             (s0 + INR j * pixelSize + pixelSize)))%nat) ->
     contiguous out /\
     exists a z : Point,
       out !! 0%nat = Some a /\ out !! (length out - 1)%nat = Some z /\
       px a <= -2 /\ 2 <= px z).
Proof.
  destruct (discretizeData_closed_form continuousData pixelSize pixelOffset
              noiseLevel g Hsize Hoffset)
    as (fuel0 & n & m & s0 & ys & g' & _ & [Hlo Hle] & [Hge Hhi] & Hrun).
  unfold rMin, rMax in *.
  exists fuel0, (stepsFrom continuousData pixelSize s0 ys m), g', s0, m.
  split; [exact Hrun |].
  split; [exists ys; reflexivity |].
  split; [apply Steps_stepsFrom |].
  split; [apply (stepsFrom_bounds _ _ _ _ _ _ m); try lra; lia |].
  split; [lra |].
  intros Hfull. rewrite (stepsFrom_full _ _ _ _ _ Hfull).
  set (f := fun j : nat => mkPoint (s0 + INR j * pixelSize) (ys j)).
  set (e := fun j : nat => mkPoint (s0 + INR j * pixelSize + pixelSize) (ys j)).
  destruct (pairs_lookup f e m) as [Hlen Hget].
  change (flat_map _ (seq 0 m)) with (flat_map (fun j => [f j; e j]) (seq 0 m)).
  set (out := flat_map _ (seq 0 m)) in *.
  assert (Hm : (0 < m)%nat).
  { destruct m as [| m']; [simpl in Hge; lra | lia]. }
  split.
  - intros k b c Hb Hc.
    assert (Hk : (S k < m)%nat).
    { apply lookup_lt_Some in Hc. lia. }
    destruct (Hget k) as [_ Hbk]; [lia |].
    destruct (Hget (S k) Hk) as [Hck _].
    replace (2 * S k)%nat with (2 * k + 2)%nat in Hck by lia.
    rewrite Hbk in Hb. rewrite Hck in Hc.
    injection Hb as <-. injection Hc as <-.
    unfold f, e. cbn [px]. rewrite S_INR. lra.
  - exists (f 0%nat), (e (m - 1)%nat).
    destruct (Hget 0%nat Hm) as [H0 _].
    destruct (Hget (m - 1)%nat) as [_ Hlast]; [lia |].
    split; [exact H0 |].
    split; [rewrite Hlen; replace (2 * m - 1)%nat with (2 * (m - 1) + 1)%nat by lia;
            exact Hlast |].
    unfold f, e. cbn [px]. rewrite minus_INR by lia. simpl INR. lra.
Qed.

Lemma discretizeData_steps_witness :
  0.25 > 0 /\ 0 <= 0.1 <= 0.25 / 2 /\
  exists (fuel0 : nat) (out : list Point) (g' : Rng),
    (forall fuel : nat, (fuel0 <= fuel)%nat ->
       discretizeData fuel sampleSum 0.25 0.1 0 halfDraws = Some (out, g')) /\
    Steps sampleSum 0.25 out /\
    Forall (fun pt => -2 - 0.25 <= px pt <= 2 + 0.25) out.
Proof.
  assert (Hsize : 0.25 > 0) by lra.
  assert (Hoffset : 0 <= 0.1 <= 0.25 / 2) by lra.
  split; [exact Hsize | split; [exact Hoffset |]].
  destruct (discretizeData_steps sampleSum 0.25 0.1 0 halfDraws Hsize Hoffset)
    as (fuel0 & out & g' & s0 & m & Hrun & _ & Hsteps & Hbounds & _).
  exists fuel0, out, g'. auto.
Defined.

(** *** A pixel grid finer than the sampling of the profile *)

Lemma inPixel_nonempty (continuousData : list Point) (a b : R) (pt : Point) :
  pt ∈ continuousData -> a <= px pt < b ->
  (0 < length (inPixel continuousData a b))%nat.
Proof.
  intros Hin [Ha Hb].
  assert (Hpt : pt ∈ inPixel continuousData a b).
  { unfold inPixel. apply list_elem_of_filter. split; [split; lra | exact Hin]. }
  destruct (inPixel continuousData a b); [inversion Hpt | simpl; lia].
Qed.

Lemma inPixel_empty (continuousData : list Point) (a b : R) :
  (forall pt : Point, pt ∈ continuousData -> ~ (a <= px pt < b)) ->
  inPixel continuousData a b = [].
Proof.
  unfold inPixel. induction continuousData as [| pt rest IH]; intros Hnone.
  - reflexivity.
  - rewrite filter_cons_False.
    + apply IH. intros q Hq. apply Hnone. right. exact Hq.
    + intros [Hge Hlt]. apply (Hnone pt); [left | lra].
Qed.

Lemma sampleSum_positions :
  exists v : nat -> R,
    sampleSum = (fun i : nat => mkPoint (-2 + INR i * (4 / 299)) (v i)) <$> seq 0 300.
Proof.
  unfold sampleSum. rewrite generateAiryData_closed. cbn [dataSum].
  eexists (fun i => _). reflexivity.
Qed.

Lemma sampleSum_has (i : nat) (a b : R) :
  (i < 300)%nat -> a <= -2 + INR i * (4 / 299) < b ->
  (0 < length (inPixel sampleSum a b))%nat.
Proof.
  intros Hi Hab. destruct sampleSum_positions as [v ->].
  apply (inPixel_nonempty _ a b (mkPoint (-2 + INR i * (4 / 299)) (v i))).
  - apply list_elem_of_fmap. exists i. split; [reflexivity |].
    apply elem_of_seq. lia.
  - exact Hab.
Qed.

Lemma sampleSum_lacks (i : nat) (a b : R) :
  -2 + INR i * (4 / 299) < a -> b <= -2 + INR (S i) * (4 / 299) ->
  inPixel sampleSum a b = [].
Proof.
  intros Ha Hb. destruct sampleSum_positions as [v ->].
  apply inPixel_empty. intros pt Hpt [Hge Hlt].
  apply list_elem_of_fmap in Hpt as (j & -> & _). cbn [px] in *.
  destruct (le_lt_dec j i) as [Hle | Hgt].
  - apply le_INR in Hle. lra.
  - apply le_INR in Hgt. lra.
Qed.

Lemma stepOf_nonempty (continuousData : list Point) (a b y : R) :
  (0 < length (inPixel continuousData a b))%nat ->
  stepOf continuousData a b y = [mkPoint a y; mkPoint b y].
Proof. intros H. unfold stepOf. rewrite decide_True by exact H. reflexivity. Qed.

Lemma stepOf_empty (continuousData : list Point) (a b y : R) :
  inPixel continuousData a b = [] -> stepOf continuousData a b y = [].
Proof.
  intros H. unfold stepOf. rewrite H. rewrite decide_False by (simpl; lia).
  reflexivity.
Qed.

(** C3, counterexample to contiguity.  On the 300-sample profile of the
    default parameters, with pixels of 1/128 um (finer than the 4/299 um
    between samples), no offset and no noise, the pixel
    [[-1.984375, -1.9765625)] holds no sample and emits no step: the second
    step ends at -1.984375 and the third starts at -1.9765625. *)
Lemma discretizeData_gap_in_profile :
  0.0078125 > 0 /\ 0 <= 0 <= 0.0078125 / 2 /\
  exists (fuel0 : nat) (out : list Point) (g' : Rng) (b c : Point),
    (forall fuel : nat, (fuel0 <= fuel)%nat ->
       discretizeData fuel sampleSum 0.0078125 0 0 halfDraws = Some (out, g')) /\
    out !! 3%nat = Some b /\ out !! 4%nat = Some c /\
    px b = -1.984375 /\ px c = -1.9765625 /\
    ~ contiguous out.
Proof.
  assert (Hsize : 0.0078125 > 0) by lra.
  assert (Hoffset : 0 <= 0 <= 0.0078125 / 2) by lra.
  split; [exact Hsize | split; [exact Hoffset |]].
  destruct (discretizeData_closed_form sampleSum 0.0078125 0 0 halfDraws Hsize Hoffset)
    as (fuel0 & n & m & s0 & ys & g' & Hs0 & [Hlo Hle] & [Hge Hhi] & Hrun).
  unfold rMin, rMax in *.
  assert (I256 : INR 256 = 256) by (rewrite INR_IZR_INZ; reflexivity).
  assert (I257 : INR 257 = 257) by (rewrite INR_IZR_INZ; reflexivity).
  assert (Hn : n = 256%nat).
  { apply Nat.le_antisymm.
    - assert (n < 257)%nat; [| lia]. apply INR_lt. rewrite I257. lra.
    - apply INR_le. rewrite I256. lra. }
  assert (Hstart : s0 = -2) by (rewrite Hs0, Hn, I256; lra).
  clear Hs0 Hlo Hle Hn n. subst s0.
  destruct m as [| [| [| [| m]]]]; try (simpl in Hge; lra).
  exists fuel0, (stepsFrom sampleSum 0.0078125 (-2) ys (S (S (S (S m))))), g'.
  unfold stepsFrom in *. cbn [seq flat_map] in *.
  rewrite (stepOf_nonempty sampleSum (-2 + INR 0 * 0.0078125)) in *
    by (apply (sampleSum_has 0); [lia | simpl INR; lra]).
  rewrite (stepOf_nonempty sampleSum (-2 + INR 1 * 0.0078125)) in *
    by (apply (sampleSum_has 1); [lia | simpl INR; lra]).
  rewrite (stepOf_empty sampleSum (-2 + INR 2 * 0.0078125)) in *
    by (apply (sampleSum_lacks 1); simpl INR; lra).
  rewrite (stepOf_nonempty sampleSum (-2 + INR 3 * 0.0078125)) in *
    by (apply (sampleSum_has 2); [lia | simpl INR; lra]).
  cbn [app] in *.
  eexists _, _. split; [exact Hrun |].
  split; [reflexivity |]. split; [reflexivity |].
  cbn [px]. split; [simpl INR; lra |]. split; [simpl INR; lra |].
  intros Hcont.
  specialize (Hcont 1%nat _ _ eq_refl eq_refl). cbn [px] in Hcont.
  simpl INR in Hcont. lra.
Qed.

(** ** The wavefronts mode on a computed field *)

Lemma cellValue_insert (l : list R) (idx i : nat) (v : R) :
  cellValue (<[idx := v]> l) i
  = if decide (idx = i /\ (i < length l)%nat) then v else cellValue l i.
Proof.
  unfold cellValue. case_decide as Hc.
  - destruct Hc as [-> Hlt]. rewrite list_lookup_insert_eq by exact Hlt. reflexivity.
  - destruct (decide (idx = i)) as [-> | Hne].
    + rewrite list_insert_ge by lia. reflexivity.
    + rewrite list_lookup_insert_ne by exact Hne. reflexivity.
Qed.

Lemma computeCell_consistent k res dxSrc dy dy2 sources rowOff acc hx :
  consistent acc ->
  consistent (computeCell k res dxSrc dy dy2 sources rowOff acc hx).
Proof.
  intros (HlenR & HlenI & Hmax & Hcells). unfold computeCell.
  destruct (fold_left _ sources (0, 0)) as [uR uI].
  unfold consistent. cbn [fR fI fA maxAmp]. rewrite !length_insert.
  split; [exact HlenR |]. split; [exact HlenI |]. split.
  - case_decide; [apply sqrt_pos | exact Hmax].
  - intros i. rewrite !cellValue_insert, HlenR, HlenI.
    case_decide; [reflexivity | apply Hcells].
Qed.

Lemma fold_left_invariant {A B : Type} (P : A -> Prop) (f : A -> B -> A) (l : list B) :
  (forall a b, P a -> P (f a b)) -> forall a, P a -> P (fold_left f l a).
Proof.
  intros Hstep. induction l as [| b l IH]; intros a Ha; simpl; auto.
Qed.

Lemma fieldGrid_consistent (this : DiffractionSlit) : consistent (fieldGrid this).
Proof.
  unfold fieldGrid. apply fold_left_invariant.
  - intros acc hy Hacc. unfold computeRow. case_decide; [exact Hacc |].
    apply fold_left_invariant; [| exact Hacc].
    intros acc' hx. apply computeCell_consistent.
  - unfold consistent. cbn [fR fI fA maxAmp].
    split; [reflexivity |]. split; [reflexivity |]. split; [lra |].
    intros i. unfold cellValue.
    destruct (replicate _ 0 !! i) as [v |] eqn:Hv; simpl.
    + apply lookup_replicate in Hv as [-> _].
      rewrite Rmult_0_l, Rplus_0_l. unfold JsMath.sqrt. rewrite sqrt_0. reflexivity.
    + rewrite Rmult_0_l, Rplus_0_l. unfold JsMath.sqrt. rewrite sqrt_0. reflexivity.
Qed.

Lemma phase_turn_bound (a b c s : R) :
  c * c + s * s = 1 -> Rabs (a * c + b * s) <= sqrt (a * a + b * b).
Proof.
  intros Hunit. rewrite <- sqrt_Rsqr_abs. apply sqrt_le_1_alt.
  assert (H : (a * a + b * b) * (c * c + s * s) - (a * c + b * s) * (a * c + b * s)
              = (a * s - b * c) * (a * s - b * c)) by ring.
  rewrite Hunit in H. pose proof (Rle_0_sqr (a * s - b * c)) as Hsq.
  unfold Rsqr in *. lra.
Qed.

(** *** The cells the renderer reads *)

Lemma computeCell_peaked k res dxSrc dy dy2 sources rowOff acc hx :
  peaked acc -> peaked (computeCell k res dxSrc dy dy2 sources rowOff acc hx).
Proof.
  intros Hacc. unfold computeCell.
  destruct (fold_left _ sources (0, 0)) as [uR uI].
  unfold peaked. cbn [fA maxAmp]. intros i. rewrite cellValue_insert.
  specialize (Hacc i). repeat case_decide; lra.
Qed.

Lemma fieldGrid_peaked (this : DiffractionSlit) : peaked (fieldGrid this).
Proof.
  unfold fieldGrid. apply fold_left_invariant.
  - intros acc hy Hacc. unfold computeRow. case_decide; [exact Hacc |].
    apply fold_left_invariant; [| exact Hacc].
    intros acc' hx. apply computeCell_peaked.
  - unfold peaked. cbn [fA maxAmp]. intros i. unfold cellValue.
    destruct (replicate _ 0 !! i) as [v |] eqn:Hv; simpl; [| lra].
    apply lookup_replicate in Hv as [-> _]. lra.
Qed.

Lemma fieldGrid_cells (this : DiffractionSlit) :
  let s := _computeField this in
  let dy := fun hy : nat => _barrierY - INR hy * _res s in
  length (fA (fieldGrid this)) = (_hBY s * _hW s)%nat /\
  forall hy hx : nat, (hy < _hBY s)%nat -> (hx < _hW s)%nat ->
    dy hy < 2 -> cellValue (fA (fieldGrid this)) (hy * _hW s + hx) = 0.
Proof.
  unfold _computeField. cbn [_hW _hBY _res].
  set (res := if highQuality this then 1 else 2).
  set (hW := Z.to_nat (Zceil (_W / res))).
  set (hBY := Z.to_nat (Zceil (_barrierY / res))).
  unfold fieldGrid. fold res hW hBY.
  set (acc0 := mkFieldAcc _ _ _ 0).
  match goal with
  | |- context [fold_left (computeRow ?k res ?dx _barrierY ?src hW) (seq 0 hBY) acc0] =>
      destruct (fA_rows k res dx _barrierY src hW hBY acc0) as [Hlen Hget]
  end.
  assert (Hlen0 : length (fA acc0) = (hBY * hW)%nat)
    by (unfold acc0; cbn [fA]; apply length_replicate).
  split; [rewrite Hlen; exact Hlen0 |].
  intros hy hx Hy Hx Hnear. unfold cellValue.
  rewrite Hget by (try exact Hx; rewrite Hlen0; nia).
  rewrite decide_False by tauto.
  unfold acc0. cbn [fA]. rewrite lookup_replicate_2 by nia. reflexivity.
Qed.

(** The grid is the canvas above the barrier at full or at half resolution. *)
Lemma gridSize (this : DiffractionSlit) :
  let s := _computeField this in
  (_res s = 1 /\ _hW s = 800%nat /\ _hBY s = 300%nat) \/
  (_res s = 2 /\ _hW s = 400%nat /\ _hBY s = 150%nat).
Proof.
  unfold _computeField. cbn [_hW _hBY _res]. unfold _W, _barrierY.
  destruct (highQuality this).
  - left. rewrite (Zceil_eq 800), (Zceil_eq 300) by lra. auto.
  - right. rewrite (Zceil_eq 400), (Zceil_eq 150) by lra. auto.
Qed.

Lemma toInt_lt (x : R) (n : nat) : x < INR n -> (0 < n)%nat -> (toInt x < n)%nat.
Proof.
  intros Hx Hn. unfold toInt. pose proof (Zfloor_bound x) as [Hlo _].
  assert (Hz : (Zfloor x < Z.of_nat n)%Z).
  { apply lt_IZR. rewrite <- INR_IZR_INZ. lra. }
  lia.
Qed.

Lemma toInt_INR (n : nat) : toInt (INR n / 1) = n.
Proof.
  unfold toInt. rewrite (Zfloor_eq (Z.of_nat n)).
  - apply Nat2Z.id.
  - rewrite <- INR_IZR_INZ. lra.
Qed.

(** Every pixel above the barrier falls on a cell of the grid. *)
Lemma cell_in_grid (this : DiffractionSlit) (cy cx : nat) :
  let s := _computeField this in
  INR cy < _barrierY -> INR cx < _W ->
  (toInt (INR cy / _res s) < _hBY s)%nat /\ (toInt (INR cx / _res s) < _hW s)%nat.
Proof.
  intros s Hcy Hcx. unfold _barrierY in Hcy. unfold _W in Hcx.
  destruct (gridSize this) as [(Hr & Hw & Hb) | (Hr & Hw & Hb)];
    fold s in Hr, Hw, Hb; rewrite Hr, Hw, Hb;
    split; apply toInt_lt; try lia;
    match goal with
    | |- _ < INR ?n =>
        let z := eval compute in (Z.of_nat n) in
        rewrite (INR_IZR_INZ n); change (Z.of_nat n) with z; lra
    end.
Qed.

(** What the three arrays hold at the cell of a pixel above the barrier. *)
Lemma grid_cell_read (this : DiffractionSlit) (cy cx : nat) :
  let s := _computeField this in
  let acc := fieldGrid this in
  let fi := (toInt (INR cy / _res s) * _hW s + toInt (INR cx / _res s))%nat in
  INR cy < _barrierY -> INR cx < _W ->
  exists re im a : R,
    fR acc !! fi = Some re /\ fI acc !! fi = Some im /\ fA acc !! fi = Some a /\
    a = JsMath.sqrt (re * re + im * im) /\ a <= maxAmp acc.
Proof.
  intros s acc fi Hcy Hcx.
  destruct (cell_in_grid this cy cx Hcy Hcx) as [Hy Hx]. fold s in Hy, Hx.
  destruct (fieldGrid_cells this) as [Hlen _]. fold s acc in Hlen.
  destruct (fieldGrid_consistent this) as (HlenR & HlenI & _ & Hcells).
  fold acc in HlenR, HlenI, Hcells.
  pose proof (fieldGrid_peaked this fi) as Hpeak. fold acc in Hpeak.
  assert (Hfi : (fi < length (fA acc))%nat) by (rewrite Hlen; unfold fi; nia).
  destruct (lookup_lt_is_Some_2 (fR acc) fi) as [re Hre]; [lia |].
  destruct (lookup_lt_is_Some_2 (fI acc) fi) as [im Him]; [lia |].
  destruct (lookup_lt_is_Some_2 (fA acc) fi) as [a Ha]; [lia |].
  specialize (Hcells fi). unfold cellValue in Hcells, Hpeak.
  rewrite Hre, Him, Ha in Hcells. rewrite Ha in Hpeak. simpl in Hcells, Hpeak.
  exists re, im, a. auto.
Qed.

(** The shade of a pixel above the barrier, at least 2 px from it, whose cell
    the three arrays hold. *)
Lemma pixelShade_above (this : DiffractionSlit)
    (fieldReal fieldImag fieldAmp : list R) (slitMask : list bool)
    (cy cx : nat) (re im a : R) :
  let fi := (toInt (INR cy / _res this) * _hW this
             + toInt (INR cx / _res this))%nat in
  let wt := 2 * JsMath.PI / Slit.wavelength this * _time this in
  let field := (re * JsMath.cos wt + im * JsMath.sin wt) * _normScale this in
  let amp := a * _normScale this in
  INR cy < _barrierY -> ~ (_barrierY - INR cy < 2) ->
  fieldReal !! fi = Some re -> fieldImag !! fi = Some im ->
  fieldAmp !! fi = Some a ->
  pixelShade this fieldReal fieldImag fieldAmp slitMask cy cx
  = if decide (renderMode this = "intensity")
    then Gray (128 + 127 * clamp field (-1) 1)
    else if decide (renderMode this = "wavefronts")
         then Gray (wavefrontGray field amp)
         else Gray (50 + 30 * clamp field (-1) 1).
Proof.
  intros fi wt field amp Habove Hfar Hre Him Ha. unfold pixelShade.
  rewrite (decide_True (P := INR cy < _barrierY)) by exact Habove.
  rewrite (decide_False (P := _barrierY - INR cy < 2)) by exact Hfar.
  fold fi. rewrite Hre, Him, Ha. reflexivity.
Qed.

(** In the [wavefronts] mode, on the field [_computeField] has stored and at
    any time [t], every pixel the renderer shades gets an integer gray level
    between 0 and 255. *)
Lemma wavefronts_pixel_gray_level (this : DiffractionSlit) (t : R)
    (slitMask : list bool) (cy cx : nat) :
  renderMode this = "wavefronts" -> INR cx < _W ->
  match pixelShade (set_time t (_computeField this))
          (fR (fieldGrid this)) (fI (fieldGrid this)) (fA (fieldGrid this))
          slitMask cy cx with
  | Gray gray => exists z : Z, gray = IZR z /\ (0 <= z <= 255)%Z
  | BarrierColour => True
  | NotANumber => False
  end.
Proof.
  intros Hmode Hcx.
  destruct (fieldGrid_consistent this) as (_ & _ & Hmax & _).
  assert (Hcos : forall x, exists z : Z,
             wavefrontGray (JsMath.cos x) 1 = IZR z /\ (0 <= z <= 255)%Z).
  { intros x. apply wavefrontGray_integer; [lra |].
    apply Rabs_le. unfold JsMath.cos. pose proof (COS_bound x). lra. }
  destruct (decide (INR cy < _barrierY)) as [Habove | Hbelow].
  - destruct (decide (_barrierY - INR cy < 2)) as [Hnear | Hfar].
    + unfold pixelShade.
      rewrite (decide_True (P := INR cy < _barrierY)) by exact Habove.
      rewrite (decide_True (P := _barrierY - INR cy < 2)) by exact Hnear.
      destruct (default false (slitMask !! cx));
        [exists 80%Z | exists 40%Z]; (split; [reflexivity | lia]).
    + destruct (grid_cell_read this cy cx Habove Hcx)
        as (re & im & a & Hre & Him & Ha & Hmod & _).
      rewrite (pixelShade_above (set_time t (_computeField this)) _ _ _ slitMask
                 cy cx re im a Habove Hfar Hre Him Ha).
      set (s := set_time t (_computeField this)).
      assert (Hrm : renderMode s = "wavefronts") by exact Hmode.
      rewrite Hrm, decide_False by discriminate.
      rewrite decide_True by reflexivity.
      assert (Hnorm : 0 <= _normScale s).
      { unfold s. cbn [set_time _normScale _computeField].
        case_decide as Hpos; [| lra].
        unfold Rdiv. rewrite Rmult_1_l. left. apply Rinv_0_lt_compat. lra. }
      set (norm := _normScale s) in *. clearbody norm.
      apply wavefrontGray_integer.
      * rewrite Hmod. apply Rmult_le_pos; [apply sqrt_pos | exact Hnorm].
      * rewrite Rabs_mult, (Rabs_pos_eq norm) by exact Hnorm.
        apply Rmult_le_compat_r; [exact Hnorm |].
        rewrite Hmod. apply phase_turn_bound.
        unfold JsMath.cos, JsMath.sin.
        pose proof (sin2_cos2 (2 * JsMath.PI / Slit.wavelength s * _time s)) as Hsc.
        unfold Rsqr in Hsc. lra.
  - unfold pixelShade, set_time, _computeField.
    cbn [Slit.wavelength _time _normScale _res _hW renderMode].
    rewrite Hmode.
    rewrite (decide_False (P := INR cy < _barrierY)) by exact Hbelow.
    repeat case_decide; try discriminate; try congruence.
    + destruct (default false (slitMask !! cx)); [apply Hcos | exact I].
    + apply Hcos.
Qed.

(** ** The intensity mode on a computed field *)

(** C4, as the code has it.  In the [intensity] render mode, on a state that
    holds a computed field, every pixel of the diffracted region (above the
    barrier line) gets a gray level in [1, 255], and the byte stored for it
    is in [1, 255] too.  For a pixel at least 2 px from the barrier line the
    gray level is [128 + 127 * clamp(field, -1, 1)], the field value being
    the precomputed cell (which the arrays hold) turned by the current phase
    and normalised; for a pixel closer than 2 px to the barrier line it is
    the flat 80 in a slit column and 40 elsewhere. *)
Theorem intensity_gray_range (this0 this : DiffractionSlit)
    (slitMask : list bool) (cy cx : nat)
    (Hfield : holdsField this0 this)
    (Hmode : renderMode this = "intensity")
    (Habove : INR cy < _barrierY)
    (Hcx : INR cx < _W) :
  let fi := (toInt (INR cy / _res this) * _hW this
             + toInt (INR cx / _res this))%nat in
  let wt := 2 * JsMath.PI / Slit.wavelength this * _time this in
  exists (fieldReal fieldImag fieldAmp : list R) (gray : R),
    _fieldReal this = Some fieldReal /\
    _fieldImag this = Some fieldImag /\
    _fieldAmp this = Some fieldAmp /\
    pixelShade this fieldReal fieldImag fieldAmp slitMask cy cx = Gray gray /\
    1 <= gray <= 255 /\
    (1 <= toUint8Clamp gray <= 255)%Z /\
    (_barrierY - INR cy < 2 ->
       gray = if default false (slitMask !! cx) then 80 else 40) /\
    (~ (_barrierY - INR cy < 2) ->
       exists re im : R,
         fieldReal !! fi = Some re /\ fieldImag !! fi = Some im /\
         gray = 128 + 127 * clamp ((re * JsMath.cos wt + im * JsMath.sin wt)
                                   * _normScale this) (-1) 1).
Proof.
  intros fi wt.
  destruct Hfield as (HfR & HfI & HfA & _ & Hres & HhW).
  exists (fR (fieldGrid this0)), (fI (fieldGrid this0)), (fA (fieldGrid this0)).
  assert (Hbyte : forall g, 1 <= g <= 255 -> (1 <= toUint8Clamp g <= 255)%Z)
    by (intros g Hg; apply toUint8Clamp_bounds; [lia | exact Hg]).
  destruct (decide (_barrierY - INR cy < 2)) as [Hnear | Hfar].
  - exists (if default false (slitMask !! cx) then 80 else 40).
    assert (Hg : 1 <= (if default false (slitMask !! cx) then 80 else 40) <= 255)
      by (destruct (default false (slitMask !! cx)); lra).
    do 3 (split; [assumption |]).
    split.
    { unfold pixelShade.
      rewrite (decide_True (P := INR cy < _barrierY)) by exact Habove.
      rewrite (decide_True (P := _barrierY - INR cy < 2)) by exact Hnear.
      reflexivity. }
    split; [exact Hg |]. split; [apply Hbyte; exact Hg |].
    split; [reflexivity | contradiction].
  - destruct (grid_cell_read this0 cy cx Habove Hcx)
      as (re & im & a & Hre & Him & Ha & _).
    rewrite <- Hres, <- HhW in Hre, Him, Ha. fold fi in Hre, Him, Ha.
    set (field := (re * JsMath.cos wt + im * JsMath.sin wt) * _normScale this).
    exists (128 + 127 * clamp field (-1) 1).
    assert (Hg : 1 <= 128 + 127 * clamp field (-1) 1 <= 255)
      by (pose proof (clamp_bounds field (-1) 1); lra).
    do 3 (split; [assumption |]).
    split.
    { rewrite (pixelShade_above this _ _ _ slitMask cy cx re im a
                 Habove Hfar Hre Him Ha).
      rewrite decide_True by exact Hmode. reflexivity. }
    split; [exact Hg |]. split; [apply Hbyte; exact Hg |].
    split; [contradiction |].
    intros _. exists re, im. auto.
Qed.

Lemma holdsField_computed (this : DiffractionSlit) (t : R) :
  holdsField this (set_time t (_computeField this)).
Proof. unfold holdsField. repeat split; reflexivity. Qed.

Lemma intensity_gray_range_witness :
  holdsField singleSlit (set_time 3 (_computeField singleSlit)) /\
  renderMode (set_time 3 (_computeField singleSlit)) = "intensity" /\
  INR 7 < _barrierY /\ INR 1 < _W /\
  exists gray : R,
    pixelShade (set_time 3 (_computeField singleSlit))
      (fR (fieldGrid singleSlit)) (fI (fieldGrid singleSlit))
      (fA (fieldGrid singleSlit)) [] 7 1 = Gray gray /\
    1 <= gray <= 255.
Proof.
  assert (Hfield : holdsField singleSlit (set_time 3 (_computeField singleSlit)))
    by apply holdsField_computed.
  assert (Hmode : renderMode (set_time 3 (_computeField singleSlit)) = "intensity")
    by reflexivity.
  assert (Habove : INR 7 < _barrierY) by (unfold _barrierY; simpl; lra).
  assert (Hcx : INR 1 < _W) by (unfold _W; simpl; lra).
  do 4 (split; [assumption |]).
  destruct (intensity_gray_range singleSlit (set_time 3 (_computeField singleSlit))
              [] 7 1 Hfield Hmode Habove Hcx)
    as (fieldReal & fieldImag & fieldAmp & gray & HfR & HfI & HfA & Hshade & Hg & _).
  injection HfR as <-. injection HfI as <-. injection HfA as <-.
  exists gray. split; [exact Hshade | exact Hg].
Defined.

(** *** The brightest cell at its crest *)

Lemma attained_mono (b b' : nat) (acc : FieldAcc) :
  attained b acc -> (b <= b')%nat -> attained b' acc.
Proof.
  intros [H0 | (i & Hi & Hget)] Hb; [left; exact H0 |].
  right. exists i. split; [lia | exact Hget].
Qed.

Lemma computeCell_attained k res dxSrc dy dy2 sources rowOff acc hx (b : nat) :
  attained b acc -> (b <= rowOff + hx)%nat ->
  (rowOff + hx < length (fA acc))%nat ->
  attained (S (rowOff + hx)) (computeCell k res dxSrc dy dy2 sources rowOff acc hx).
Proof.
  intros Hacc Hb Hlen. unfold computeCell.
  destruct (fold_left _ sources (0, 0)) as [uR uI].
  unfold attained. cbn [fA maxAmp]. case_decide as Hgt.
  - right. exists (rowOff + hx)%nat. split; [lia |].
    apply list_lookup_insert_eq. exact Hlen.
  - destruct Hacc as [H0 | (i & Hi & Hget)]; [left; exact H0 |].
    right. exists i. split; [lia |].
    rewrite list_lookup_insert_ne by lia. exact Hget.
Qed.

Lemma row_attained k res dxSrc dy dy2 sources rowOff (n : nat) acc :
  attained rowOff acc -> (rowOff + n <= length (fA acc))%nat ->
  attained (rowOff + n)
    (fold_left (computeCell k res dxSrc dy dy2 sources rowOff) (seq 0 n) acc) /\
  length (fA (fold_left (computeCell k res dxSrc dy dy2 sources rowOff) (seq 0 n) acc))
  = length (fA acc).
Proof.
  intros Hacc. induction n as [| n IH]; intros Hlen.
  - cbn [seq fold_left]. rewrite Nat.add_0_r. split; [exact Hacc | reflexivity].
  - destruct IH as [IHatt IHlen]; [lia |].
    rewrite seq_S, fold_left_app. cbn [fold_left Nat.add].
    set (prev := fold_left _ (seq 0 n) acc) in *.
    split.
    + replace (rowOff + S n)%nat with (S (rowOff + n)) by lia.
      apply (computeCell_attained _ _ _ _ _ _ _ _ _ (rowOff + n)%nat);
        [exact IHatt | lia | rewrite IHlen; lia].
    + rewrite fA_computeCell, length_insert. exact IHlen.
Qed.

Lemma rows_attained k res dxSrc barrierY sources (hW n : nat) (acc0 : FieldAcc) :
  attained 0 acc0 -> (n * hW <= length (fA acc0))%nat ->
  attained (n * hW)
    (fold_left (computeRow k res dxSrc barrierY sources hW) (seq 0 n) acc0).
Proof.
  intros Hacc. induction n as [| n IH]; intros Hlen.
  - cbn [seq fold_left]. exact Hacc.
  - specialize (IH ltac:(lia)).
    destruct (fA_rows k res dxSrc barrierY sources hW n acc0) as [Hprev _].
    rewrite seq_S, fold_left_app. cbn [fold_left Nat.add].
    set (prev := fold_left _ (seq 0 n) acc0) in *.
    unfold computeRow. case_decide.
    + apply (attained_mono (n * hW)); [exact IH | lia].
    + replace (S n * hW)%nat with (n * hW + hW)%nat by lia.
      apply row_attained; [exact IH | rewrite Hprev; lia].
Qed.

(** The maximum [_computeField] normalises by is 0 or the magnitude of a
    cell of the grid. *)
Lemma fieldGrid_attained (this : DiffractionSlit) :
  attained (length (fA (fieldGrid this))) (fieldGrid this).
Proof.
  destruct (fieldGrid_cells this) as [Hlen _]. rewrite Hlen.
  unfold _computeField. cbn [_hW _hBY]. unfold fieldGrid.
  apply rows_attained.
  - left. reflexivity.
  - cbn [fA]. rewrite length_replicate. lia.
Qed.

Lemma Rsum_positive (l : list R) :
  l <> [] -> Forall (fun x => 0 < x) l -> 0 < Rsum l.
Proof.
  intros Hne Hall. destruct Hall as [| x l Hx Hl]; [contradiction |].
  clear Hne. simpl.
  assert (H0 : 0 <= Rsum l).
  { induction Hl as [| y l Hy _ IH]; simpl; lra. }
  lra.
Qed.

(** At the top of the grid, straight above a slit of one wavelength, the
    wavelets of all sources arrive within a sixtieth of a turn of each other:
    the real part of each is positive. *)
Lemma wavelet_above_slit (s : R) :
  390 < s < 410 ->
  0 < waveletRe (2 * JsMath.PI / 20) 300 (300 * 300) 400 s.
Proof.
  intros Hs. unfold waveletRe. cbv zeta.
  set (dx := 400 - s).
  assert (Hdx : dx * dx < 100) by (unfold dx; nra).
  assert (Hdx0 : 0 <= dx * dx) by nra.
  unfold JsMath.sqrt, JsMath.cos, JsMath.PI.
  set (r := sqrt (dx * dx + 300 * 300)).
  assert (Hlo : 300 <= r).
  { rewrite <- (sqrt_square 300) by lra. apply sqrt_le_1_alt. lra. }
  assert (Hhi : r <= 300 + 1 / 6).
  { rewrite <- (sqrt_square (300 + 1 / 6)) by lra. apply sqrt_le_1_alt. lra. }
  assert (Hsr : 0 < sqrt r) by (apply sqrt_lt_R0; lra).
  apply Rmult_lt_0_compat.
  - apply Rdiv_lt_0_compat; [lra |]. apply Rmult_lt_0_compat; lra.
  - pose proof PI_RGT_0 as Hpi.
    replace (2 * PI / 20 * r) with (2 * PI / 20 * (r - 300) + 2 * INR 15 * PI)
      by (rewrite (INR_IZR_INZ 15); change (Z.of_nat 15) with 15%Z; field).
    rewrite cos_period. apply cos_gt_0; nra.
Qed.

(** A phase at which a cell shows its full magnitude. *)
Lemma crest_phase (a b : R) :
  exists theta : R,
    0 <= theta /\ a * cos theta + b * sin theta = sqrt (a * a + b * b).
Proof.
  set (m := sqrt (a * a + b * b)).
  assert (Hsq : 0 <= a * a + b * b) by nra.
  assert (Hm0 : 0 <= m) by apply sqrt_pos.
  assert (Hmm : m * m = a * a + b * b) by (apply sqrt_sqrt; exact Hsq).
  destruct (Req_dec m 0) as [Hz | Hnz].
  { exists 0. split; [lra |]. rewrite cos_0, sin_0.
    assert (Ha : a = 0) by nra. lra. }
  assert (Hm : 0 < m) by lra.
  set (x := a / m).
  assert (Hxm : x * m = a) by (unfold x; field; lra).
  assert (Hx2 : x * x <= 1).
  { apply (Rmult_le_reg_r (m * m)); [nra |].
    replace (x * x * (m * m)) with (a * a) by (rewrite <- Hxm; ring). nra. }
  assert (Hx : -1 <= x <= 1) by (split; nra).
  pose proof (acos_bound x) as Hbound.
  pose proof (cos_acos x Hx) as Hcos.
  pose proof (sin_acos x Hx) as Hsin.
  assert (Hroot : sqrt (1 - x²) = Rabs b / m).
  { replace (1 - x²) with ((Rabs b / m) * (Rabs b / m)).
    - apply sqrt_square. unfold Rdiv. apply Rmult_le_pos; [apply Rabs_pos |].
      left. apply Rinv_0_lt_compat. exact Hm.
    - unfold Rsqr. rewrite <- Hxm in Hmm.
      assert (Habs : Rabs b * Rabs b = b * b).
      { unfold Rabs. destruct (Rcase_abs b); ring. }
      field_simplify_eq; [| lra]. nra. }
  rewrite Hroot in Hsin.
  assert (Hfull : a * (a / m) + b * (b / m) = m).
  { apply (Rmult_eq_reg_r m); [| lra]. rewrite Hmm. field. lra. }
  destruct (Rle_dec 0 b) as [Hb | Hb].
  - exists (acos x). split; [lra |]. rewrite Hcos, Hsin.
    rewrite Rabs_pos_eq by exact Hb. exact Hfull.
  - exists (2 * PI - acos x). pose proof PI_RGT_0. split; [lra |].
    rewrite cos_minus, sin_minus, cos_2PI, sin_2PI, Hcos, Hsin.
    rewrite Rabs_left by lra.
    transitivity (a * (a / m) + b * (b / m)); [unfold x; field; lra | exact Hfull].
Qed.

Lemma upto_INR (n : nat) : upto (INR n) = seq 0 n.
Proof.
  unfold upto. rewrite INR_IZR_INZ, Zceil_IZR, Nat2Z.id. reflexivity.
Qed.

Lemma sourcesOf_inside (n : nat) (l r : R) :
  (0 < n)%nat -> l < r ->
  Forall (fun s => l < s < r) (sourcesOf (INR n) (l, r)).
Proof.
  intros Hn Hlr. unfold sourcesOf. rewrite upto_INR. cbn [fst snd].
  apply List.Forall_forall. intros s Hs.
  apply in_map_iff in Hs as (j & <- & Hj). apply in_seq in Hj.
  assert (Hn0 : 0 < INR n) by (apply lt_0_INR; exact Hn).
  assert (Hj0 : 0 <= INR j) by apply pos_INR.
  assert (Hjn : INR j + 1 <= INR n) by (rewrite <- S_INR; apply le_INR; lia).
  set (d := (r - l) / INR n).
  assert (Hd : d * INR n = r - l) by (unfold d; field; lra).
  assert (Hdpos : 0 < d) by (unfold d; apply Rdiv_lt_0_compat; lra).
  split; nra.
Qed.

Lemma cellValue_lookup (l : list R) (i : nat) (v : R) :
  l !! i = Some v -> cellValue l i = v.
Proof. intros H. unfold cellValue. rewrite H. reflexivity. Qed.

(** The magnitude [_computeField] stores for a cell of a row it fills. *)
Lemma fieldGrid_cell_amp (this : DiffractionSlit) (hy hx : nat) :
  let s := _computeField this in
  let dy := _barrierY - INR hy * _res s in
  (hy < _hBY s)%nat -> (hx < _hW s)%nat -> ~ (dy < 2) ->
  fA (fieldGrid this) !! (hy * _hW s + hx)%nat
  = Some (cellAmp (2 * JsMath.PI / Slit.wavelength this) (_res s)
            (slitWidth this * Slit.wavelength this / sourceCount this)
            dy (dy * dy) (_sources s) hx).
Proof.
  unfold _computeField. cbn [_hW _hBY _res _sources].
  set (res := if highQuality this then 1 else 2).
  set (hW := Z.to_nat (Zceil (_W / res))).
  set (hBY := Z.to_nat (Zceil (_barrierY / res))).
  unfold fieldGrid. fold res hW hBY.
  set (acc0 := mkFieldAcc _ _ _ 0).
  match goal with
  | |- context [fold_left (computeRow ?k res ?dx _barrierY ?src hW) (seq 0 hBY) acc0] =>
      destruct (fA_rows k res dx _barrierY src hW hBY acc0) as [Hlen Hget]
  end.
  assert (Hlen0 : length (fA acc0) = (hBY * hW)%nat)
    by (unfold acc0; cbn [fA]; apply length_replicate).
  intros Hy Hx Hfar.
  rewrite Hget by (try exact Hx; rewrite Hlen0; nia).
  rewrite decide_True by (split; assumption). reflexivity.
Qed.

Lemma cellAmp_positive k res dxSrc dy dy2 (sources : list R) (hx : nat) :
  0 < dxSrc -> sources <> [] ->
  Forall (fun s => 0 < waveletRe k dy dy2 (INR hx * res) s) sources ->
  0 < cellAmp k res dxSrc dy dy2 sources hx.
Proof.
  intros Hdx Hne Hall. unfold cellAmp. rewrite cellSum_sums. cbn [fst snd].
  set (uR := Rsum (map (waveletRe k dy dy2 (INR hx * res)) sources)).
  set (uI := Rsum (map (waveletIm k dy dy2 (INR hx * res)) sources)).
  assert (HuR : 0 < uR).
  { apply Rsum_positive.
    - destruct sources; [contradiction | discriminate].
    - apply List.Forall_forall. intros x Hx.
      apply in_map_iff in Hx as (s & <- & Hs).
      revert s Hs. apply List.Forall_forall. exact Hall. }
  unfold JsMath.sqrt. apply sqrt_lt_R0.
  assert (Hp : 0 < uR * dxSrc) by (apply Rmult_lt_0_compat; assumption).
  nra.
Qed.

(** The field of the single slit of one wavelength is not dark: the cell at
    the top of the grid straight above the slit has a positive magnitude. *)
Lemma singleSlit_top_cell_positive :
  0 < cellValue (fA (fieldGrid singleSlit)) (0 * 800 + 400).
Proof.
  destruct gridSize_singleSlit as (HW & HBY & Hres).
  assert (Hy : (0 < _hBY (_computeField singleSlit))%nat) by (rewrite HBY; lia).
  assert (Hx : (400 < _hW (_computeField singleSlit))%nat) by (rewrite HW; lia).
  assert (Hfar : ~ (_barrierY - INR 0 * _res (_computeField singleSlit) < 2))
    by (rewrite Hres; unfold _barrierY; simpl; lra).
  pose proof (fieldGrid_cell_amp singleSlit 0 400 Hy Hx Hfar) as Hget.
  rewrite HW, Hres in Hget. rewrite (cellValue_lookup _ _ _ Hget).
  destruct (sourceCount_positive singleSlit) as (n & HN & Hn & _).
  assert (Hn0 : 0 < INR n) by (apply lt_0_INR; exact Hn).
  assert (Hsrc : _sources (_computeField singleSlit) = sourcesOf (INR n) (390, 410)).
  { cbn [_sources _computeField]. rewrite buildSources_flat_map, HN.
    unfold _getSlitRanges. rewrite decide_True by reflexivity.
    cbn [flat_map slitWidth Slit.wavelength singleSlit]. rewrite app_nil_r.
    unfold _W. do 2 f_equal; lra. }
  rewrite Hsrc, HN. cbn [slitWidth Slit.wavelength singleSlit].
  replace (_barrierY - INR 0 * 1) with 300 by (unfold _barrierY; simpl; lra).
  apply cellAmp_positive.
  - apply Rdiv_lt_0_compat; lra.
  - unfold sourcesOf. rewrite upto_INR. destruct n; [lia | discriminate].
  - eapply List.Forall_impl; [| apply (sourcesOf_inside n 390 410 Hn); lra].
    intros s Hs. cbn beta in Hs.
    replace (INR 400 * 1) with 400
      by (rewrite (INR_IZR_INZ 400); change (Z.of_nat 400) with 400%Z; lra).
    apply wavelet_above_slit. exact Hs.
Qed.

Lemma singleSlit_maxAmp_positive : 0 < maxAmp (fieldGrid singleSlit).
Proof.
  eapply Rlt_le_trans; [exact singleSlit_top_cell_positive |].
  apply fieldGrid_peaked.
Qed.

Lemma clamp_inside (v : R) : -1 <= v <= 1 -> clamp v (-1) 1 = v.
Proof. intros Hv. unfold clamp. repeat case_decide; lra. Qed.

(** On the full-resolution grid of a field that is not dark, the brightest
    cell of the grid reaches gray level 255 in the [intensity] mode whenever
    the animation phase lines up with the phase of the cell. *)
Lemma crest_gray_255 (this : DiffractionSlit) (slitMask : list bool) :
  renderMode this = "intensity" -> highQuality this = true ->
  0 < Slit.wavelength this -> 0 < maxAmp (fieldGrid this) ->
  exists (t : R) (cy cx : nat),
    0 <= t /\ INR cy < _barrierY /\ ~ (_barrierY - INR cy < 2) /\ INR cx < _W /\
    pixelShade (set_time t (_computeField this))
      (fR (fieldGrid this)) (fI (fieldGrid this)) (fA (fieldGrid this))
      slitMask cy cx = Gray 255.
Proof.
  intros Hmode HQ Hlambda Hmax.
  destruct (fieldGrid_attained this) as [H0 | (i & Hi & Hget)]; [lra |].
  assert (Hres : _res (_computeField this) = 1)
    by (cbn [_res _computeField]; rewrite HQ; reflexivity).
  destruct (gridSize this) as [(_ & Hw & Hb) | (Hr & _)]; [| lra].
  destruct (fieldGrid_cells this) as [Hlen Hzero].
  destruct (fieldGrid_consistent this) as (HlenR & HlenI & _ & Hcells).
  rewrite Hw, Hb, Hres in *.
  set (M := maxAmp (fieldGrid this)) in *.
  set (hy := (i / 800)%nat). set (hx := (i mod 800)%nat).
  assert (Hi_eq : (hy * 800 + hx)%nat = i)
    by (unfold hy, hx; pose proof (Nat.div_mod_eq i 800); lia).
  assert (Hhx : (hx < 800)%nat) by (apply Nat.mod_upper_bound; lia).
  assert (Hhy : (hy < 300)%nat) by (apply Nat.Div0.div_lt_upper_bound; lia).
  assert (Hfar : ~ (_barrierY - INR hy < 2)).
  { intros Hnear. specialize (Hzero hy hx Hhy Hhx).
    rewrite Hi_eq, (cellValue_lookup _ _ _ Hget) in Hzero. lra. }
  assert (Habove : INR hy < _barrierY).
  { unfold _barrierY. apply lt_INR in Hhy.
    rewrite (INR_IZR_INZ 300) in Hhy. change (Z.of_nat 300) with 300%Z in Hhy.
    exact Hhy. }
  assert (Hcx : INR hx < _W).
  { unfold _W. apply lt_INR in Hhx.
    rewrite (INR_IZR_INZ 800) in Hhx. change (Z.of_nat 800) with 800%Z in Hhx.
    exact Hhx. }
  destruct (lookup_lt_is_Some_2 (fR (fieldGrid this)) i) as [re Hre]; [lia |].
  destruct (lookup_lt_is_Some_2 (fI (fieldGrid this)) i) as [im Him]; [lia |].
  specialize (Hcells i).
  rewrite (cellValue_lookup _ _ _ Hre), (cellValue_lookup _ _ _ Him),
    (cellValue_lookup _ _ _ Hget) in Hcells.
  unfold JsMath.sqrt in Hcells.
  destruct (crest_phase re im) as (theta & Htheta & Hcrest).
  rewrite <- Hcells in Hcrest.
  pose proof PI_RGT_0 as Hpi.
  set (omega := 2 * JsMath.PI / Slit.wavelength this).
  assert (Homega : 0 < omega)
    by (unfold omega, JsMath.PI; apply Rdiv_lt_0_compat; lra).
  exists (theta / omega), hy, hx.
  split; [apply Rle_mult_inv_pos; assumption |].
  do 3 (split; [assumption |]).
  set (s := set_time (theta / omega) (_computeField this)).
  assert (Hfi : (toInt (INR hy / _res s) * _hW s + toInt (INR hx / _res s))%nat = i).
  { change (_res s) with (_res (_computeField this)).
    change (_hW s) with (_hW (_computeField this)).
    rewrite Hres, Hw, !toInt_INR. exact Hi_eq. }
  rewrite <- Hfi in Hre, Him, Hget.
  rewrite (pixelShade_above s _ _ _ slitMask hy hx re im M
             Habove Hfar Hre Him Hget).
  rewrite decide_True by exact Hmode. f_equal.
  change (Slit.wavelength s) with (Slit.wavelength this).
  change (_time s) with (theta / omega).
  change (_normScale s)
    with (if decide (M > 0) then 1 / M else 1).
  rewrite decide_True by lra. fold omega.
  replace (omega * (theta / omega)) with theta by (field; lra).
  unfold JsMath.cos, JsMath.sin. rewrite Hcrest.
  replace (M * (1 / M)) with 1 by (field; lra).
  rewrite clamp_inside by lra. lra.
Qed.

(** C4, counterexample.  The single slit of one wavelength, as computed on
    the full-resolution grid, is rendered in the [intensity] mode.  At some
    time of the animation a pixel of the diffracted region, at least 2 px
    from the barrier line, gets gray level 255: the brightest cell at its
    crest, where the normalised field value is 1.  The byte stored is 255,
    above the stated 254.  And the pixels of row 299, which belong to the
    diffracted region, get the flat 80 or 40 whatever the field and the
    time, not a linear map of a field value. *)
Lemma intensity_gray_reaches_255 :
  renderMode (_computeField singleSlit) = "intensity" /\
  (exists (t : R) (cy cx : nat),
     0 <= t /\ INR cy < _barrierY /\ ~ (_barrierY - INR cy < 2) /\
     INR cx < _W /\
     pixelShade (set_time t (_computeField singleSlit))
       (fR (fieldGrid singleSlit)) (fI (fieldGrid singleSlit))
       (fA (fieldGrid singleSlit))
       (buildSlitMask (_getSlitRanges singleSlit)) cy cx = Gray 255) /\
  toUint8Clamp 255 = 255%Z /\
  ~ (255 <= 254) /\
  INR 299 < _barrierY /\
  (forall (t : R) (fieldReal fieldImag fieldAmp : list R) (slitMask : list bool),
     pixelShade (set_time t (_computeField singleSlit))
       fieldReal fieldImag fieldAmp slitMask 299 0
     = Gray (if default false (slitMask !! 0%nat) then 80 else 40)).
Proof.
  assert (H299 : INR 299 = 299)
    by (rewrite (INR_IZR_INZ 299); reflexivity).
  split; [reflexivity |].
  split.
  { apply crest_gray_255; [reflexivity | reflexivity | simpl; lra |].
    exact singleSlit_maxAmp_positive. }
  split; [unfold toUint8Clamp; repeat case_decide; try reflexivity; lra |].
  split; [lra |].
  split; [rewrite H299; unfold _barrierY; lra |].
  intros t fieldReal fieldImag fieldAmp slitMask. unfold pixelShade.
  rewrite (decide_True (P := INR 299 < _barrierY))
    by (rewrite H299; unfold _barrierY; lra).
  rewrite (decide_True (P := _barrierY - INR 299 < 2))
    by (rewrite H299; unfold _barrierY; lra).
  reflexivity.
Qed.

(** * Further properties of the Airy component *)

(** ** The Bessel function *)

(** X1. [besselJ1] is odd, in the series branch as in the asymptotic one,
    and it vanishes at 0. *)
Theorem besselJ1_odd (x : R) :
  besselJ1 (- x) = - besselJ1 x /\ besselJ1 0 = 0.
Proof.
  split.
  - unfold besselJ1, JsMath.abs. rewrite Rabs_Ropp.
    destruct (decide (x = 0)) as [-> | Hx].
    + rewrite Ropp_0. rewrite decide_True by reflexivity. lra.
    + rewrite (decide_False (P := - x = 0)) by lra.
      replace (- x * - x) with (x * x) by ring.
      destruct (decide (Rabs x < 8.0)) as [Hsmall | Hlarge].
      * unfold Rdiv. ring.
      * destruct (decide (x < 0)) as [Hneg | Hpos].
        -- rewrite decide_False by lra. lra.
        -- rewrite decide_True by lra. reflexivity.
  - unfold besselJ1. rewrite decide_True by reflexivity. reflexivity.
Qed.

(** ** The profile of two sources *)

Lemma airyDisk_nonneg (r wl n c : R) : 0 <= airyDisk r wl n c.
Proof.
  unfold airyDisk. case_decide; [lra |].
  unfold JsMath.pow. apply pow2_ge_0.
Qed.

Lemma airyDisk_mirror (r wl n c : R) :
  airyDisk (- r) wl n (- c) = airyDisk r wl n c.
Proof.
  unfold airyDisk, JsMath.abs.
  replace (- r - - c) with (- (r - c)) by lra. rewrite Rabs_Ropp. reflexivity.
Qed.

(** X2. The generated profile is mirror symmetric about 0: sample [299 - i]
    sits at minus the position of sample [i], the two single-source series
    are mirror images of each other, and the summed series is its own mirror
    image.  No intensity is negative. *)
Theorem generateAiryData_mirror (wl n dist : R) (i : nat)
    (Hi : (i < 300)%nat) :
  let out := generateAiryData wl n dist in
  exists p1 p2 ps q1 q2 qs : Point,
    data1 out !! i = Some p1 /\ data2 out !! i = Some p2 /\
    dataSum out !! i = Some ps /\
    data1 out !! (299 - i)%nat = Some q1 /\ data2 out !! (299 - i)%nat = Some q2 /\
    dataSum out !! (299 - i)%nat = Some qs /\
    px q1 = - px p1 /\
    py q2 = py p1 /\ py q1 = py p2 /\ py qs = py ps /\
    0 <= py p1 /\ 0 <= py p2 /\ 0 <= py ps.
Proof.
  intros out. unfold out. rewrite generateAiryData_closed.
  cbn [data1 data2 dataSum].
  eexists _, _, _, _, _, _.
  rewrite !lookup_map_seq0 by lia.
  do 6 (split; [reflexivity |]). cbn [px py].
  assert (Hx : -2 + INR (299 - i) * (4 / 299) = - (-2 + INR i * (4 / 299))).
  { rewrite minus_INR by lia.
    replace (INR 299) with 299 by (rewrite INR_IZR_INZ; reflexivity). lra. }
  rewrite Hx.
  set (x := -2 + INR i * (4 / 299)).
  assert (H12 : airyDisk (- x) wl n (dist / 2) = airyDisk x wl n (- dist / 2)).
  { rewrite <- (airyDisk_mirror x). f_equal. lra. }
  assert (H21 : airyDisk (- x) wl n (- dist / 2) = airyDisk x wl n (dist / 2)).
  { rewrite <- (airyDisk_mirror x). f_equal. lra. }
  rewrite H12, H21.
  pose proof (airyDisk_nonneg x wl n (- dist / 2)).
  pose proof (airyDisk_nonneg x wl n (dist / 2)).
  repeat split; lra.
Qed.

Lemma generateAiryData_mirror_witness :
  (10 < 300)%nat /\
  exists ps qs : Point,
    dataSum (generateAiryData 550 1.0 0.5) !! 10%nat = Some ps /\
    dataSum (generateAiryData 550 1.0 0.5) !! 289%nat = Some qs /\
    py qs = py ps.
Proof.
  assert (Hi : (10 < 300)%nat) by lia.
  split; [exact Hi |].
  destruct (generateAiryData_mirror 550 1.0 0.5 10 Hi)
    as (p1 & p2 & ps & q1 & q2 & qs & _ & _ & Hs & _ & _ & Hq & _ & _ & _ & Hy & _).
  exists ps, qs. split; [exact Hs |]. split; [exact Hq | exact Hy].
Defined.

(** ** Pixels at least as wide as the sampling of the profile *)

Lemma dataSum_positions (wl n dist : R) :
  exists v : nat -> R,
    dataSum (generateAiryData wl n dist)
    = (fun i : nat => mkPoint (-2 + INR i * (4 / 299)) (v i)) <$> seq 0 300.
Proof.
  rewrite generateAiryData_closed. cbn [dataSum].
  eexists (fun i => _). reflexivity.
Qed.

Lemma profile_pixel_nonempty (wl n dist a p : R) :
  4 / 299 <= p -> a < 2 -> -2 < a + p ->
  (0 < length (inPixel (dataSum (generateAiryData wl n dist)) a (a + p)))%nat.
Proof.
  intros Hp Ha Hend. destruct (dataSum_positions wl n dist) as [v ->].
  assert (Hsample : forall i : nat, (i < 300)%nat ->
            a <= -2 + INR i * (4 / 299) < a + p ->
            (0 < length (inPixel ((fun i : nat => mkPoint (-2 + INR i * (4 / 299)) (v i))
                                    <$> seq 0 300) a (a + p)))%nat).
  { intros i Hi Hin.
    apply (inPixel_nonempty _ a (a + p) (mkPoint (-2 + INR i * (4 / 299)) (v i)));
      [| exact Hin].
    apply list_elem_of_fmap. exists i. split; [reflexivity |].
    apply elem_of_seq. lia. }
  destruct (Rle_dec a (-2)) as [Hleft | Hinside].
  - apply (Hsample 0%nat); [lia |]. simpl INR. lra.
  - set (q := (a + 2) * (299 / 4)).
    pose proof (Zceil_bound q) as [Hlo Hhi].
    assert (Hc1 : (1 <= Zceil q)%Z).
    { assert (0 < Zceil q)%Z; [| lia]. apply lt_IZR. unfold q in *. lra. }
    assert (Hc2 : (Zceil q < 300)%Z).
    { apply lt_IZR. unfold q in *. lra. }
    apply (Hsample (Z.to_nat (Zceil q))); [lia |].
    rewrite INR_IZR_INZ, Z2Nat.id by lia. unfold q in *. lra.
Qed.

Lemma stepsFrom_full_contiguous (continuousData : list Point) (p s0 : R)
    (ys : nat -> R) (m : nat) :
  (0 < m)%nat ->
  (forall j : nat, (j < m)%nat ->
     (0 < length (inPixel continuousData (s0 + INR j * p) (s0 + INR j * p + p)))%nat) ->
  let out := stepsFrom continuousData p s0 ys m in
  contiguous out /\ length out = (2 * m)%nat /\
  exists a z : Point,
    out !! 0%nat = Some a /\ out !! (length out - 1)%nat = Some z /\
    px a = s0 /\ px z = s0 + INR m * p.
Proof.
  intros Hm Hfull out. unfold out. rewrite (stepsFrom_full _ _ _ _ _ Hfull).
  set (f := fun j : nat => mkPoint (s0 + INR j * p) (ys j)).
  set (e := fun j : nat => mkPoint (s0 + INR j * p + p) (ys j)).
  destruct (pairs_lookup f e m) as [Hlen Hget].
  change (flat_map _ (seq 0 m)) with (flat_map (fun j => [f j; e j]) (seq 0 m)).
  set (l := flat_map _ (seq 0 m)) in *.
  split; [| split; [exact Hlen |]].
  - intros k b c Hb Hc.
    assert (Hk : (S k < m)%nat) by (apply lookup_lt_Some in Hc; lia).
    destruct (Hget k) as [_ Hbk]; [lia |].
    destruct (Hget (S k) Hk) as [Hck _].
    replace (2 * S k)%nat with (2 * k + 2)%nat in Hck by lia.
    rewrite Hbk in Hb. rewrite Hck in Hc.
    injection Hb as <-. injection Hc as <-.
    unfold f, e. cbn [px]. rewrite S_INR. lra.
  - exists (f 0%nat), (e (m - 1)%nat).
    destruct (Hget 0%nat Hm) as [H0 _].
    destruct (Hget (m - 1)%nat) as [_ Hlast]; [lia |].
    split; [exact H0 |].
    split; [rewrite Hlen; replace (2 * m - 1)%nat with (2 * (m - 1) + 1)%nat by lia;
            exact Hlast |].
    unfold f, e. cbn [px]. rewrite minus_INR by lia. simpl INR. lra.
Qed.

(** X3. On the profile [generateAiryData] returns, a pixel size of at
    least the sample spacing 4/299 leaves no pixel empty: [discretizeData]
    terminates with one step per pixel, consecutive steps share their edge,
    and the steps run from a left edge at or below -2 to a right edge at or
    above 2. *)
Theorem discretizeData_profile_gapless (wl n dist : R)
    (pixelSize pixelOffset noiseLevel : R) (g : Rng)
    (Hsize : 4 / 299 <= pixelSize)
    (Hoffset : 0 <= pixelOffset <= pixelSize / 2) :
  exists (fuel0 : nat) (out : list Point) (g' : Rng),
    (forall fuel : nat, (fuel0 <= fuel)%nat ->
       discretizeData fuel (dataSum (generateAiryData wl n dist))
                      pixelSize pixelOffset noiseLevel g = Some (out, g')) /\
    contiguous out /\
    exists a z : Point,
      out !! 0%nat = Some a /\ out !! (length out - 1)%nat = Some z /\
      -2 - pixelSize < px a <= -2 /\ 2 <= px z < 2 + pixelSize /\
      INR (length out) * pixelSize = 2 * (px z - px a).
Proof.
  assert (Hpos : pixelSize > 0) by lra.
  destruct (discretizeData_closed_form (dataSum (generateAiryData wl n dist))
              pixelSize pixelOffset noiseLevel g Hpos Hoffset)
    as (fuel0 & k & m & s0 & ys & g' & _ & [Hlo Hle] & [Hge Hhi] & Hrun).
  unfold rMin, rMax in *.
  assert (Hm : (0 < m)%nat).
  { destruct m as [| m']; [simpl in Hge; lra | lia]. }
  assert (Hfull : forall j : nat, (j < m)%nat ->
            (0 < length (inPixel (dataSum (generateAiryData wl n dist))
                                 (s0 + INR j * pixelSize)
                                 (s0 + INR j * pixelSize + pixelSize)))%nat).
  { intros j Hj. pose proof (pos_INR j) as Hj0.
    assert (HjM : INR j + 1 <= INR m) by (rewrite <- S_INR; apply le_INR; lia).
    apply profile_pixel_nonempty; [exact Hsize | nra | nra]. }
  destruct (stepsFrom_full_contiguous _ pixelSize s0 ys m Hm Hfull)
    as (Hcont & Hlen & a & z & Ha & Hz & Hpa & Hpz).
  exists fuel0, (stepsFrom (dataSum (generateAiryData wl n dist)) pixelSize s0 ys m), g'.
  split; [exact Hrun |]. split; [exact Hcont |].
  exists a, z. split; [exact Ha |]. split; [exact Hz |].
  rewrite Hpa, Hpz, Hlen.
  split; [lra |]. split; [lra |].
  rewrite mult_INR. simpl INR. lra.
Qed.

Lemma discretizeData_profile_gapless_witness :
  4 / 299 <= 0.05 /\ 0 <= 0.02 <= 0.05 / 2 /\
  exists (fuel0 : nat) (out : list Point) (g' : Rng),
    (forall fuel : nat, (fuel0 <= fuel)%nat ->
       discretizeData fuel (dataSum (generateAiryData 550 1.0 0.5))
                      0.05 0.02 0.1 halfDraws = Some (out, g')) /\
    contiguous out.
Proof.
  assert (Hsize : 4 / 299 <= 0.05) by lra.
  assert (Hoffset : 0 <= 0.02 <= 0.05 / 2) by lra.
  split; [exact Hsize | split; [exact Hoffset |]].
  destruct (discretizeData_profile_gapless 550 1.0 0.5 0.05 0.02 0.1 halfDraws
              Hsize Hoffset) as (fuel0 & out & g' & Hrun & Hcont & _).
  exists fuel0, out, g'. auto.
Defined.

(** ** Random draws of the discretizer *)

Lemma processPixel_draws (continuousData : list Point) (noise a b : R)
    (discretized : list Point) (g : Rng) :
  let r := processPixel continuousData noise a b discretized g in
  draws (snd r) = draws g /\
  (length discretized <= length (fst r))%nat /\
  cursor (snd r)
  = (cursor g
     + (if decide (noise > 0)%R then length (fst r) - length discretized else 0))%nat.
Proof.
  unfold processPixel. cbv zeta.
  destruct (decide (0 < length _)%nat) as [Hne | Hempty].
  - destruct (decide (noise > 0)) as [Hnoise | Hquiet].
    + unfold gaussianRandom, random. cbn [fst snd draws cursor].
      rewrite length_app. cbn [length].
      split; [reflexivity |]. split; lia.
    + cbn [fst snd]. rewrite length_app. cbn [length].
      split; [reflexivity |]. split; lia.
  - cbn [fst snd]. split; [reflexivity |]. split; [lia |].
    case_decide; lia.
Qed.

Lemma processPixels_draws (continuousData : list Point) (p noise : R) (fuel : nat) :
  forall (start : R) (discretized out : list Point) (g g' : Rng),
    processPixels fuel continuousData p noise start discretized g = Some (out, g') ->
    draws g' = draws g /\
    (length discretized <= length out)%nat /\
    cursor g'
    = (cursor g + (if decide (noise > 0)%R then length out - length discretized else 0))%nat.
Proof.
  induction fuel as [| fuel IH]; intros start discretized out g g' Hrun;
    [discriminate |].
  simpl in Hrun. destruct (decide (start < rMax)) as [Hlt | Hge].
  - pose proof (processPixel_draws continuousData noise start (start + p) discretized g)
      as (Hd & Hlen & Hc).
    destruct (processPixel continuousData noise start (start + p) discretized g)
      as [acc g1]. cbn [fst snd] in *.
    apply IH in Hrun as (Hd' & Hlen' & Hc').
    split; [congruence |]. split; [lia |].
    rewrite Hc', Hc. case_decide; lia.
  - injection Hrun as <- <-. split; [reflexivity |]. split; [lia |].
    case_decide; lia.
Qed.

(** X4. With a positive noise level the discretizer takes exactly two draws
    from the random source for each pixel it emits, that is as many draws as
    there are samples in its output; with a noise level of zero or below it
    takes none. *)
Theorem discretizeData_draws (continuousData : list Point)
    (pixelSize pixelOffset noiseLevel : R) (g : Rng)
    (Hsize : pixelSize > 0)
    (Hoffset : 0 <= pixelOffset <= pixelSize / 2) :
  exists (fuel0 : nat) (out : list Point) (g' : Rng),
    (forall fuel : nat, (fuel0 <= fuel)%nat ->
       discretizeData fuel continuousData pixelSize pixelOffset noiseLevel g
       = Some (out, g')) /\
    draws g' = draws g /\
    (noiseLevel > 0 -> cursor g' = (cursor g + length out)%nat) /\
    (noiseLevel <= 0 -> g' = g).
Proof.
  destruct (discretizeData_closed_form continuousData pixelSize pixelOffset
              noiseLevel g Hsize Hoffset)
    as (fuel0 & k & m & s0 & ys & g' & _ & _ & _ & Hrun).
  exists fuel0, (stepsFrom continuousData pixelSize s0 ys m), g'.
  split; [exact Hrun |].
  specialize (Hrun fuel0 (Nat.le_refl _)).
  unfold discretizeData in Hrun. rewrite decide_False in Hrun by lra.
  destruct (adjustStart fuel0 pixelSize (- pixelOffset)) as [start |];
    [| discriminate].
  apply processPixels_draws in Hrun as (Hd & _ & Hc).
  cbn [length] in Hc. rewrite Nat.sub_0_r in Hc.
  split; [exact Hd |]. split.
  - intros Hnoise. rewrite Hc, decide_True by exact Hnoise. reflexivity.
  - intros Hquiet. rewrite decide_False in Hc by lra.
    destruct g as [dg cg], g' as [dg' cg']. cbn [draws cursor] in *.
    subst dg'. f_equal. lia.
Qed.

Lemma discretizeData_draws_witness :
  0.25 > 0 /\ 0 <= 0.1 <= 0.25 / 2 /\
  exists (fuel0 : nat) (out : list Point) (g' : Rng),
    (forall fuel : nat, (fuel0 <= fuel)%nat ->
       discretizeData fuel sampleSum 0.25 0.1 0.3 halfDraws = Some (out, g')) /\
    (0.3 > 0 -> cursor g' = (cursor halfDraws + length out)%nat).
Proof.
  assert (Hsize : 0.25 > 0) by lra.
  assert (Hoffset : 0 <= 0.1 <= 0.25 / 2) by lra.
  split; [exact Hsize | split; [exact Hoffset |]].
  destruct (discretizeData_draws sampleSum 0.25 0.1 0.3 halfDraws Hsize Hoffset)
    as (fuel0 & out & g' & Hrun & _ & Hc & _).
  exists fuel0, out, g'. auto.
Defined.

(** ** Pixel values without noise *)

Lemma sum_py_bounds (lo hi : R) (l : list Point) (s : R) :
  Forall (fun pt => lo <= py pt <= hi) l ->
  s + INR (length l) * lo <= fold_left (fun sum p => sum + py p) l s
  <= s + INR (length l) * hi.
Proof.
  intros Hall. revert s. induction Hall as [| pt l Hpt _ IH]; intros s.
  - simpl. lra.
  - cbn [fold_left length]. rewrite S_INR. specialize (IH (s + py pt)). lra.
Qed.

Lemma mean_py_bounds (lo hi : R) (l : list Point) :
  (0 < length l)%nat -> Forall (fun pt => lo <= py pt <= hi) l ->
  lo <= fold_left (fun sum p => sum + py p) l 0 / INR (length l) <= hi.
Proof.
  intros Hlen Hall. pose proof (sum_py_bounds lo hi l 0 Hall) as [Hlo Hhi].
  assert (Hn : 0 < INR (length l)) by (apply lt_0_INR; exact Hlen).
  split.
  - apply (Rmult_le_reg_r (INR (length l))); [exact Hn |].
    unfold Rdiv. rewrite Rmult_assoc, Rinv_l by lra. lra.
  - apply (Rmult_le_reg_r (INR (length l))); [exact Hn |].
    unfold Rdiv. rewrite Rmult_assoc, Rinv_l by lra. lra.
Qed.

Lemma processPixel_quiet_bounds (continuousData : list Point) (lo hi noise a b : R)
    (discretized : list Point) (g : Rng) :
  noise <= 0 ->
  Forall (fun pt => lo <= py pt <= hi) continuousData ->
  Forall (fun pt => lo <= py pt <= hi) discretized ->
  Forall (fun pt => lo <= py pt <= hi)
         (fst (processPixel continuousData noise a b discretized g)).
Proof.
  intros Hquiet Hdata Hacc. unfold processPixel. cbv zeta.
  set (pts := filter _ continuousData).
  assert (Hpts : Forall (fun pt => lo <= py pt <= hi) pts).
  { apply List.Forall_forall. intros pt Hin.
    apply list_elem_of_In in Hin. unfold pts in Hin.
    apply list_elem_of_filter in Hin as [_ Hin].
    apply (proj1 (List.Forall_forall _ _) Hdata). apply list_elem_of_In. exact Hin. }
  destruct (decide (0 < length pts)%nat) as [Hne | Hempty]; [| exact Hacc].
  rewrite (decide_False (P := noise > 0)) by lra. cbn [fst].
  pose proof (mean_py_bounds lo hi pts Hne Hpts) as Hmean.
  apply Forall_app. split; [exact Hacc |].
  apply List.Forall_cons; [exact Hmean |].
  apply List.Forall_cons; [exact Hmean | apply List.Forall_nil].
Qed.

Lemma processPixels_quiet_bounds (continuousData : list Point) (lo hi p noise : R)
    (fuel : nat) :
  noise <= 0 ->
  Forall (fun pt => lo <= py pt <= hi) continuousData ->
  forall (start : R) (discretized out : list Point) (g g' : Rng),
    Forall (fun pt => lo <= py pt <= hi) discretized ->
    processPixels fuel continuousData p noise start discretized g = Some (out, g') ->
    Forall (fun pt => lo <= py pt <= hi) out.
Proof.
  intros Hquiet Hdata.
  induction fuel as [| fuel IH]; intros start discretized out g g' Hacc Hrun;
    [discriminate |].
  simpl in Hrun. destruct (decide (start < rMax)) as [Hlt | Hge].
  - pose proof (processPixel_quiet_bounds continuousData lo hi noise start (start + p)
                  discretized g Hquiet Hdata Hacc) as Hstep.
    destruct (processPixel continuousData noise start (start + p) discretized g)
      as [acc g1]. cbn [fst] in Hstep.
    exact (IH _ _ _ _ _ Hstep Hrun).
  - injection Hrun as <- <-. exact Hacc.
Qed.

(** X5. Without noise, averaging keeps the values inside the range of the
    profile: when every intensity of the continuous profile lies in
    [[lo, hi]], so does every value of the discretized output. *)
Theorem discretizeData_quiet_range (continuousData : list Point)
    (lo hi pixelSize pixelOffset noiseLevel : R) (g : Rng)
    (Hsize : pixelSize > 0)
    (Hoffset : 0 <= pixelOffset <= pixelSize / 2)
    (Hquiet : noiseLevel <= 0)
    (Hdata : Forall (fun pt => lo <= py pt <= hi) continuousData) :
  exists (fuel0 : nat) (out : list Point) (g' : Rng),
    (forall fuel : nat, (fuel0 <= fuel)%nat ->
       discretizeData fuel continuousData pixelSize pixelOffset noiseLevel g
       = Some (out, g')) /\
    Forall (fun pt => lo <= py pt <= hi) out.
Proof.
  destruct (discretizeData_closed_form continuousData pixelSize pixelOffset
              noiseLevel g Hsize Hoffset)
    as (fuel0 & k & m & s0 & ys & g' & _ & _ & _ & Hrun).
  exists fuel0, (stepsFrom continuousData pixelSize s0 ys m), g'.
  split; [exact Hrun |].
  specialize (Hrun fuel0 (Nat.le_refl _)).
  unfold discretizeData in Hrun. rewrite decide_False in Hrun by lra.
  destruct (adjustStart fuel0 pixelSize (- pixelOffset)) as [start |];
    [| discriminate].
  apply (processPixels_quiet_bounds continuousData lo hi pixelSize noiseLevel fuel0
           Hquiet Hdata start [] _ g g'); [apply List.Forall_nil | exact Hrun].
Qed.

Lemma discretizeData_quiet_range_witness :
  exists (fuel0 : nat) (out : list Point) (g' : Rng),
    (forall fuel : nat, (fuel0 <= fuel)%nat ->
       discretizeData fuel [mkPoint (-2) 0.25; mkPoint 0 1; mkPoint 1.5 0.5]
                      1 0.5 0 halfDraws = Some (out, g')) /\
    Forall (fun pt => 0.25 <= py pt <= 1) out.
Proof.
  apply (discretizeData_quiet_range _ 0.25 1 1 0.5 0 halfDraws); try lra.
  repeat (apply List.Forall_cons; [cbn [py]; lra |]). apply List.Forall_nil.
Defined.

(** ** The chart *)





(** ** The criterion presets *)






(** ** Nyquist sampling *)








(** ** The playback timer *)

(** X9. [togglePlayback] flips [isPlaying] and keeps the timer sound: the
    element plays exactly when it holds the handle of the single interval
    running for it, so toggling never leaves two intervals running; after a
    second toggle as many intervals run as before the first, the parameters
    are never touched, and
    [disconnectedCallback] leaves no interval running. *)
Theorem togglePlayback_timer (this : AiryWidget.GaussianProfileElement)
    (Hsound : timerSound this) :
  timerSound (AiryWidget.togglePlayback this) /\
  AiryWidget.isPlaying (AiryWidget.togglePlayback this)
    = negb (AiryWidget.isPlaying this) /\
  AiryWidget.props (AiryWidget.togglePlayback this) = AiryWidget.props this /\
  (length (AiryWidget.intervals (AiryWidget.togglePlayback this)) <= 1)%nat /\
  length (AiryWidget.intervals
            (AiryWidget.togglePlayback (AiryWidget.togglePlayback this)))
    = length (AiryWidget.intervals this) /\
  AiryWidget.intervals (AiryWidget.disconnectedCallback this) = [].
Proof.
  unfold timerSound in Hsound.
  assert (Hself : forall id : positive, filter (fun h : positive => h <> id) [id] = []).
  { intros id. rewrite filter_cons_False by (intros H; apply H; reflexivity).
    reflexivity. }
  unfold timerSound, AiryWidget.togglePlayback, AiryWidget.disconnectedCallback.
  destruct (AiryWidget.animationInterval this) as [id |] eqn:Hid;
    destruct Hsound as [Hplay Hint]; rewrite Hplay, Hint;
    cbn [negb AiryWidget.isPlaying AiryWidget.animationInterval
         AiryWidget.intervals AiryWidget.props AiryWidget.nextHandle];
    rewrite ?Hself; cbn [length]; repeat split; try reflexivity; lia.
Qed.

Lemma togglePlayback_timer_witness :
  timerSound (AiryWidget.constructor halfDraws) /\
  AiryWidget.intervals (AiryWidget.togglePlayback (AiryWidget.constructor halfDraws))
    = [1%positive] /\
  timerSound (AiryWidget.togglePlayback (AiryWidget.constructor halfDraws)).
Proof.
  assert (Hsound : timerSound (AiryWidget.constructor halfDraws))
    by (split; reflexivity).
  split; [exact Hsound |]. split; [reflexivity |].
  exact (proj1 (togglePlayback_timer _ Hsound)).
Defined.

(** ** The values of the info box *)




(** * Further properties of the slit component *)

(** ** Apertures after an update *)

Lemma renderFrame_keeps (this : DiffractionSlit) :
  mode (_renderFrame this) = mode this /\
  Slit.wavelength (_renderFrame this) = Slit.wavelength this /\
  isPlaying (_renderFrame this) = isPlaying this /\
  _animationId (_renderFrame this) = _animationId this /\
  _recomputeTimer (_renderFrame this) = _recomputeTimer this.
Proof.
  unfold _renderFrame.
  destruct (_canvas this); [destruct (_fieldReal this) |]; auto 10.
Qed.

Lemma updated_keeps (changed : gset string) (this : DiffractionSlit) :
  mode (updated changed this) = mode this /\
  Slit.wavelength (updated changed this) = Slit.wavelength this /\
  isPlaying (updated changed this) = isPlaying this.
Proof.
  unfold updated.
  set (s0 := if decide (mode this = "double" /\ _) then _ else this).
  assert (H0 : mode s0 = mode this /\ Slit.wavelength s0 = Slit.wavelength this
               /\ isPlaying s0 = isPlaying this).
  { unfold s0. repeat case_decide; auto. }
  clearbody s0.
  set (s1 := if decide (Exists _ needsRecompute /\ _) then _ else s0).
  assert (H1 : mode s1 = mode this /\ Slit.wavelength s1 = Slit.wavelength this
               /\ isPlaying s1 = isPlaying this).
  { unfold s1. case_decide; exact H0. }
  clearbody s1.
  set (s2 := if decide (_ \/ _) then _ else s1).
  assert (H2 : mode s2 = mode this /\ Slit.wavelength s2 = Slit.wavelength this
               /\ isPlaying s2 = isPlaying this).
  { unfold s2. case_decide; [| exact H1]. case_decide; [| exact H1].
    destruct (renderFrame_keeps s1) as (Hm & Hw & Hp & _).
    rewrite Hm, Hw, Hp. exact H1. }
  clearbody s2.
  case_decide; [| exact H2].
  unfold _startAnimation, _stopAnimation.
  destruct (isPlaying s2) eqn:Hplay, (_animationId s2); cbn; rewrite ?Hplay; exact H2.
Qed.

(** X11. After [updated], the two apertures of a double slit do not overlap
    when the wavelength scale is positive: each is [slitWidth * wavelength]
    wide, the first ends at or before the start of the second, and they are
    mirror images of each other about the middle of the canvas. *)
Theorem updated_apertures_disjoint (changed : gset string) (this : DiffractionSlit)
    (Hmode : mode this = "double")
    (Hscale : 0 < Slit.wavelength this) :
  let this' := updated changed this in
  exists l1 r1 l2 r2 : R,
    _getSlitRanges this' = [(l1, r1); (l2, r2)] /\
    r1 - l1 = slitWidth this' * Slit.wavelength this' /\
    r2 - l2 = slitWidth this' * Slit.wavelength this' /\
    r1 <= l2 /\
    l1 + r2 = _W /\ r1 + l2 = _W.
Proof.
  intros this'.
  destruct (updated_keeps changed this) as (Hm & Hw & _).
  pose proof (updated_geometry changed this) as Hgeo. cbv zeta in Hgeo.
  destruct Hgeo as [Hwd Hsp].
  assert (Hge : slitWidth this' <= slitSeparation this').
  { unfold this'. rewrite Hwd, Hsp.
    destruct (decide (mode this = "double" /\ slitSeparation this < slitWidth this))
      as [[_ Hlt] | Hn].
    - case_decide; simpl; lra.
    - assert (Hnlt : ~ slitSeparation this < slitWidth this) by tauto. lra. }
  unfold _getSlitRanges. fold this'.
  rewrite decide_False by (unfold this'; rewrite Hm, Hmode; discriminate).
  eexists _, _, _, _. split; [reflexivity |].
  assert (Hl : 0 < Slit.wavelength this') by (unfold this'; rewrite Hw; exact Hscale).
  repeat split; try lra. nra.
Qed.

Lemma updated_apertures_disjoint_witness :
  exists l1 r1 l2 r2 : R,
    _getSlitRanges (updated {["slitWidth"]} wideSlit) = [(l1, r1); (l2, r2)] /\
    r1 <= l2.
Proof.
  assert (Hmode : mode wideSlit = "double") by reflexivity.
  assert (Hscale : 0 < Slit.wavelength wideSlit) by (simpl; lra).
  destruct (updated_apertures_disjoint {["slitWidth"]} wideSlit Hmode Hscale)
    as (l1 & r1 & l2 & r2 & Hr & _ & _ & Hle & _).
  exists l1, r1, l2, r2. split; [exact Hr | exact Hle].
Defined.

(** ** Normalisation of the field *)


(** ** Shape of the field grid *)



(** ** Gray levels of a frame *)

Lemma cos_clamped (x : R) : -1 <= JsMath.cos x <= 1.
Proof. unfold JsMath.cos. apply COS_bound. Qed.

(** X14. On the field [_computeField] has stored and at any time, whatever
    the render mode, every pixel of a canvas column gets a gray level (or the
    barrier colour), never a [NaN]: the cell it reads lies inside the
    arrays.  The gray level is between 0 and 255, so the store into the pixel
    buffer never saturates; in the [wavefronts] mode it is an integer. *)
Theorem frame_gray_levels (this : DiffractionSlit) (t : R)
    (slitMask : list bool) (cy cx : nat)
    (Hcx : INR cx < _W) :
  match pixelShade (set_time t (_computeField this))
          (fR (fieldGrid this)) (fI (fieldGrid this)) (fA (fieldGrid this))
          slitMask cy cx with
  | Gray gray =>
      0 <= gray <= 255 /\
      (renderMode this = "wavefronts" -> exists z : Z, gray = IZR z)
  | BarrierColour => True
  | NotANumber => False
  end.
Proof.
  destruct (decide (renderMode this = "wavefronts")) as [Hwf | Hother].
  { pose proof (wavefronts_pixel_gray_level this t slitMask cy cx Hwf Hcx) as H.
    destruct (pixelShade _ _ _ _ _ _ _) as [gray | |]; [| exact I | exact H].
    destruct H as (z & -> & Hz). split; [| intros _; exists z; reflexivity].
    split; apply IZR_le; lia. }
  assert (Hclamp : forall v, -1 <= clamp v (-1) 1 <= 1)
    by (intros v; apply clamp_bounds; lra).
  destruct (decide (INR cy < _barrierY)) as [Habove | Hbelow].
  - destruct (decide (_barrierY - INR cy < 2)) as [Hnear | Hfar].
    + unfold pixelShade.
      rewrite (decide_True (P := INR cy < _barrierY)) by exact Habove.
      rewrite (decide_True (P := _barrierY - INR cy < 2)) by exact Hnear.
      split; [| intros Hw; contradiction].
      destruct (default false (slitMask !! cx)); lra.
    + destruct (grid_cell_read this cy cx Habove Hcx)
        as (re & im & a & Hre & Him & Ha & _).
      rewrite (pixelShade_above (set_time t (_computeField this)) _ _ _ slitMask
                 cy cx re im a Habove Hfar Hre Him Ha).
      change (renderMode (set_time t (_computeField this))) with (renderMode this).
      rewrite (decide_False (P := renderMode this = "wavefronts")) by exact Hother.
      case_decide; (split; [| intros Hw; contradiction]);
        match goal with
        | |- context [clamp ?v (-1) 1] => pose proof (Hclamp v); lra
        end.
  - unfold pixelShade, set_time, _computeField.
    cbn [Slit.wavelength _time _normScale _res _hW renderMode].
    rewrite (decide_False (P := INR cy < _barrierY)) by exact Hbelow.
    rewrite (decide_False (P := renderMode this = "wavefronts")) by exact Hother.
    repeat case_decide; try contradiction;
      try destruct (default false (slitMask !! cx));
      try exact I;
      (split; [| intros Hw; contradiction]);
      match goal with
      | |- context [clamp ?v (-1) 1] => pose proof (Hclamp v); lra
      | |- context [JsMath.cos ?x] => pose proof (cos_clamped x); lra
      end.
Qed.

Lemma frame_gray_levels_witness :
  INR 1 < _W /\
  match pixelShade (set_time 3 (_computeField singleSlit))
          (fR (fieldGrid singleSlit)) (fI (fieldGrid singleSlit))
          (fA (fieldGrid singleSlit)) [] 7 1 with
  | Gray gray => 0 <= gray <= 255
  | BarrierColour => True
  | NotANumber => False
  end.
Proof.
  assert (Hcx : INR 1 < _W) by (unfold _W; simpl; lra).
  split; [exact Hcx |].
  pose proof (frame_gray_levels singleSlit 3 [] 7 1 Hcx) as H.
  destruct (pixelShade _ _ _ _ _ _ _) as [gray | |]; [| exact I | exact H].
  exact (proj1 H).
Defined.

(** ** Sources and their apertures *)

Lemma filter_keeps_all {A : Type} (P : A -> Prop) `{forall x, Decision (P x)}
    (l : list A) :
  Forall P l -> filter P l = l.
Proof.
  induction 1 as [| x l Hx _ IH]; [reflexivity |].
  rewrite filter_cons_True by exact Hx. f_equal. exact IH.
Qed.

Lemma filter_keeps_none {A : Type} (P : A -> Prop) `{forall x, Decision (P x)}
    (l : list A) :
  Forall (fun x => ~ P x) l -> filter P l = [].
Proof.
  induction 1 as [| x l Hx _ IH]; [reflexivity |].
  rewrite filter_cons_False by exact Hx. exact IH.
Qed.

(** X15. With a positive wavelength scale and slit width (and, for two
    slits, a separation of at least the width), the [N] sources
    [_computeField] places for an aperture lie strictly inside it, and the
    filter by which [_drawWavelets] collects the sources of an aperture
    returns exactly these [N] sources, none of the other aperture. *)
Theorem aperture_sources (this : DiffractionSlit)
    (Hscale : 0 < Slit.wavelength this)
    (Hwidth : 0 < slitWidth this)
    (Hsep : mode this <> "single" -> slitWidth this <= slitSeparation this) :
  let N := sourceCount this in
  let sources := _sources (_computeField this) in
  Forall
    (fun range =>
       filter (fun sx => sx >= fst range /\ sx <= snd range) sources
         = sourcesOf N range /\
       length (sourcesOf N range)
         = Z.to_nat (Z.max 10 (Zfloor (slitWidth this * 12 + 0.5))) /\
       Forall (fun s => fst range < s < snd range) (sourcesOf N range))
    (_getSlitRanges this).
Proof.
  intros N sources.
  destruct (sourceCount_positive this) as (n & HN & Hn & Hupto).
  assert (Hsrc : sources = flat_map (sourcesOf N) (_getSlitRanges this)).
  { unfold sources. cbn [_sources _computeField]. apply buildSources_flat_map. }
  assert (Hlen : forall rg, length (sourcesOf N rg)
                   = Z.to_nat (Z.max 10 (Zfloor (slitWidth this * 12 + 0.5)))).
  { intros rg. unfold sourcesOf, N, upto. rewrite length_map, length_seq.
    rewrite sourceCount_integer, Zceil_IZR. reflexivity. }
  assert (Hsw : 0 < slitWidth this * Slit.wavelength this)
    by (apply Rmult_lt_0_compat; assumption).
  set (sw := slitWidth this * Slit.wavelength this) in *.
  assert (Hin : forall l r, l < r -> Forall (fun s => l < s < r) (sourcesOf N (l, r))).
  { intros l r Hlr. unfold N. rewrite HN. apply sourcesOf_inside; assumption. }
  rewrite Hsrc. unfold _getSlitRanges. fold sw.
  destruct (decide (mode this = "single")) as [Hsingle | Hdouble].
  - cbn [flat_map]. rewrite app_nil_r.
    apply List.Forall_cons; [| apply List.Forall_nil]. cbn [fst snd].
    pose proof (Hin (_W / 2 - sw / 2) (_W / 2 + sw / 2) ltac:(lra)) as Hins.
    split; [| split; [apply Hlen | exact Hins]].
    apply filter_keeps_all. eapply List.Forall_impl; [| exact Hins].
    intros s Hs. cbn beta in *. lra.
  - specialize (Hsep Hdouble).
    assert (Hss : sw <= slitSeparation this * Slit.wavelength this)
      by (unfold sw; apply Rmult_le_compat_r; lra).
    set (sep := slitSeparation this * Slit.wavelength this) in *.
    cbn [flat_map]. rewrite app_nil_r.
    pose proof (Hin (_W / 2 - sep / 2 - sw / 2) (_W / 2 - sep / 2 + sw / 2) ltac:(lra))
      as H1.
    pose proof (Hin (_W / 2 + sep / 2 - sw / 2) (_W / 2 + sep / 2 + sw / 2) ltac:(lra))
      as H2.
    apply List.Forall_cons; [| apply List.Forall_cons; [| apply List.Forall_nil]];
      cbn [fst snd]; (split; [| split; [apply Hlen | assumption]]);
      rewrite filter_app.
    + rewrite (filter_keeps_all _ (sourcesOf N (_W / 2 - sep / 2 - sw / 2, _))).
      * rewrite filter_keeps_none; [apply app_nil_r |].
        eapply List.Forall_impl; [| exact H2]. intros s Hs. cbn beta in *. lra.
      * eapply List.Forall_impl; [| exact H1]. intros s Hs. cbn beta in *. lra.
    + rewrite (filter_keeps_none _ (sourcesOf N (_W / 2 - sep / 2 - sw / 2, _))).
      * rewrite filter_keeps_all; [reflexivity |].
        eapply List.Forall_impl; [| exact H2]. intros s Hs. cbn beta in *. lra.
      * eapply List.Forall_impl; [| exact H1]. intros s Hs. cbn beta in *. lra.
Qed.

Lemma aperture_sources_witness :
  Forall
    (fun range =>
       filter (fun sx => sx >= fst range /\ sx <= snd range)
              (_sources (_computeField singleSlit))
         = sourcesOf (sourceCount singleSlit) range /\
       length (sourcesOf (sourceCount singleSlit) range)
         = Z.to_nat (Z.max 10 (Zfloor (slitWidth singleSlit * 12 + 0.5))) /\
       Forall (fun s => fst range < s < snd range)
              (sourcesOf (sourceCount singleSlit) range))
    (_getSlitRanges singleSlit).
Proof.
  apply (aperture_sources singleSlit).
  - simpl. lra.
  - simpl. lra.
  - intros H. exfalso. apply H. reflexivity.
Defined.

(** ** The display sources of the wavelet overlay *)

Lemma Rmin_INR (a b : nat) : Rmin (INR a) (INR b) = INR (a `min` b).
Proof.
  destruct (le_lt_dec a b) as [Hab | Hba].
  - rewrite Nat.min_l by exact Hab. apply Rmin_left. apply le_INR. exact Hab.
  - rewrite Nat.min_r by lia. apply Rmin_right. apply le_INR. lia.
Qed.

Lemma at_index_nonneg {A : Type} (a : list A) (z : Z) :
  (0 <= z)%Z -> SlitOverlay.at_index a z = a !! Z.to_nat z.
Proof.
  intros Hz. unfold SlitOverlay.at_index. rewrite decide_False by lia. reflexivity.
Qed.

(** X16. For a whole number [c >= 1] of wavelets per slit and an aperture
    that holds [L >= 1] sources, [_drawWavelets] picks [min c L] of them:
    every index it computes falls inside the list of the aperture's sources,
    and the indices increase strictly, so no source is picked twice. *)
Theorem selectDisplaySources_indices (c : nat) (sources : list R)
    (displaySources : list (option R)) (l r : R)
    (Hc : (1 <= c)%nat)
    (Hsome : (1 <= length (filter (fun sx => (sx >= l /\ sx <= r)%R) sources))%nat) :
  let inSlit := filter (fun sx => sx >= l /\ sx <= r) sources in
  let L := length inSlit in
  let n := (c `min` L)%nat in
  let idx := fun i : nat =>
               Z.to_nat (Zfloor (INR i * (INR L / INR n) + INR L / INR n / 2)) in
  SlitOverlay.selectDisplaySources (INR c) sources displaySources (l, r)
    = displaySources ++ map (fun i => inSlit !! idx i) (seq 0 n) /\
  (forall i : nat, (i < n)%nat -> (idx i < L)%nat /\ is_Some (inSlit !! idx i)) /\
  (forall i j : nat, (i < j < n)%nat -> (idx i < idx j)%nat).
Proof.
  intros inSlit L n idx.
  assert (Hn : (1 <= n)%nat) by (unfold n, L, inSlit; lia).
  assert (HnL : (n <= L)%nat) by (unfold n; lia).
  assert (Hn0 : 0 < INR n) by (apply lt_0_INR; lia).
  assert (HnLr : INR n <= INR L) by (apply le_INR; exact HnL).
  set (step := INR L / INR n) in *.
  assert (Hstep : step * INR n = INR L) by (unfold step; field; lra).
  assert (Hstep1 : 1 <= step).
  { apply (Rmult_le_reg_r (INR n)); [exact Hn0 |]. rewrite Hstep. lra. }
  assert (Hpos : forall i : nat, 0 <= INR i * step + step / 2).
  { intros i. pose proof (pos_INR i). nra. }
  assert (Hfl : forall i : nat, (0 <= Zfloor (INR i * step + step / 2))%Z).
  { intros i. apply Zfloor_lub. apply Hpos. }
  assert (Hlt : forall i : nat, (i < n)%nat -> (idx i < L)%nat).
  { intros i Hi. unfold idx.
    assert (Hi1 : INR i + 1 <= INR n) by (rewrite <- S_INR; apply le_INR; lia).
    pose proof (pos_INR i) as Hi0.
    pose proof (Zfloor_bound (INR i * step + step / 2)) as [Hlo _].
    assert (Hz : (Zfloor (INR i * step + step / 2) < Z.of_nat L)%Z).
    { apply lt_IZR. rewrite <- INR_IZR_INZ. nra. }
    specialize (Hfl i). lia. }
  split; [| split].
  - unfold SlitOverlay.selectDisplaySources. fold inSlit L.
    unfold JsMath.min. rewrite Rmin_INR. fold n.
    rewrite decide_False by lra. rewrite upto_INR. fold step.
    rewrite (fold_left_push
               (fun i => SlitOverlay.at_index inSlit (Zfloor (INR i * step + step / 2)))).
    f_equal. apply map_ext. intros i. apply at_index_nonneg. apply Hfl.
  - intros i Hi. split; [apply Hlt; exact Hi |].
    apply lookup_lt_is_Some. apply Hlt. exact Hi.
  - intros i j [Hij Hj]. unfold idx.
    assert (Hstepij : INR i + 1 <= INR j) by (rewrite <- S_INR; apply le_INR; lia).
    pose proof (Zfloor_bound (INR i * step + step / 2)) as [Hlo _].
    assert (Hz : (Zfloor (INR i * step + step / 2) + 1
                  <= Zfloor (INR j * step + step / 2))%Z).
    { apply Zfloor_lub. rewrite plus_IZR. nra. }
    pose proof (Hfl i). lia.
Qed.

Lemma selectDisplaySources_indices_witness :
  exists picks : list (option R),
    SlitOverlay.selectDisplaySources (INR 2) [1; 2; 3] [] (0, 5) = picks /\
    length picks = 2%nat.
Proof.
  assert (Hfilter : filter (fun sx => sx >= 0 /\ sx <= 5) [1; 2; 3] = [1; 2; 3]).
  { apply filter_keeps_all.
    repeat (apply List.Forall_cons; [lra |]). apply List.Forall_nil. }
  assert (Hsome : le 1 (length (filter (fun sx => sx >= 0 /\ sx <= 5) [1; 2; 3])))
    by (rewrite Hfilter; simpl; lia).
  destruct (selectDisplaySources_indices 2 [1; 2; 3] [] 0 5 ltac:(lia) Hsome)
    as (Hpicks & _ & _).
  eexists. split; [exact Hpicks |].
  rewrite length_app, length_map, length_seq, Hfilter. reflexivity.
Defined.

(** ** The arcs of the wavelet overlay *)

Lemma rem_one_range (x : R) :
  -1 < JsNumber.rem x 1 < 1 /\ (0 <= x -> 0 <= JsNumber.rem x 1).
Proof.
  unfold JsNumber.rem, JsNumber.trunc.
  replace (x / 1) with x by (unfold Rdiv; rewrite Rinv_1; ring).
  case_decide.
  - pose proof (Zceil_bound x). split; [lra | intros; lra].
  - pose proof (Zfloor_bound x). split; [lra | intros; lra].
Qed.

Lemma phaseOffset_range (omega t : R) : 0 <= SlitOverlay.phaseOffset omega t < 1.
Proof.
  unfold SlitOverlay.phaseOffset.
  destruct (rem_one_range (omega * t / (2 * JsMath.PI))) as [Hinner _].
  destruct (rem_one_range (JsNumber.rem (omega * t / (2 * JsMath.PI)) 1 + 1))
    as [Houter Hpos].
  split; [apply Hpos; lra | lra].
Qed.

Lemma fold_left_invariant_in {A B : Type} (P : A -> Prop) (f : A -> B -> A)
    (l : list B) :
  (forall a b, In b l -> P a -> P (f a b)) -> forall a, P a -> P (fold_left f l a).
Proof.
  induction l as [| b l IH]; intros Hstep a Ha; simpl; [exact Ha |].
  apply IH.
  - intros a' b' Hin. apply Hstep. right. exact Hin.
  - apply Hstep; [left; reflexivity | exact Ha].
Qed.

Lemma upto_lt (q : R) (n : nat) : In n (upto q) -> INR n < q.
Proof.
  unfold upto. intros Hin. apply in_seq in Hin.
  pose proof (Zceil_bound q) as [Hlo _].
  assert (Hz : (Z.of_nat n <= Zceil q - 1)%Z) by lia.
  apply IZR_le in Hz. rewrite minus_IZR, <- INR_IZR_INZ in Hz. lra.
Qed.

(** X17. The phase offset of the wavelet overlay is a fraction in [0, 1)
    at every time.  With a positive wavelength scale, every arc
    [_drawWavelets] strokes is an upper half circle centred on the barrier
    line, of radius [(n + phaseOffset) * wavelength] for a whole [n], at
    least 2 and below the canvas diagonal plus one wavelength. *)
Theorem drawWavelets_arcs (this : DiffractionSlit) (k omega t : R)
    (Hscale : 0 < Slit.wavelength this) :
  0 <= SlitOverlay.phaseOffset omega t < 1 /\
  Forall
    (fun a =>
       2 <= SlitOverlay.arc_radius a
         < JsMath.sqrt (_W * _W + _barrierY * _barrierY) + Slit.wavelength this /\
       (exists n : nat,
          SlitOverlay.arc_radius a
          = (INR n + SlitOverlay.phaseOffset omega t) * Slit.wavelength this) /\
       SlitOverlay.arc_y a = _barrierY /\
       SlitOverlay.arc_start a = - JsMath.PI /\ SlitOverlay.arc_end a = 0)
    (SlitOverlay._drawWavelets this k omega t).
Proof.
  pose proof (phaseOffset_range omega t) as Hphase.
  split; [exact Hphase |].
  unfold SlitOverlay._drawWavelets.
  case_decide; [apply List.Forall_nil |].
  set (maxR := JsMath.sqrt (_W * _W + _barrierY * _barrierY)).
  set (lambda := Slit.wavelength this) in *.
  set (phaseOff := SlitOverlay.phaseOffset omega t) in *.
  apply fold_left_invariant; [| apply List.Forall_nil].
  intros arcs sx Harcs. unfold SlitOverlay.sourceArcs.
  apply fold_left_invariant_in; [| exact Harcs].
  intros arcs' n Hn Harcs'. apply upto_lt in Hn.
  case_decide as Hsmall; [exact Harcs' |].
  apply Forall_app. split; [exact Harcs' |].
  apply List.Forall_cons; [| apply List.Forall_nil].
  cbn [SlitOverlay.arc_radius SlitOverlay.arc_y SlitOverlay.arc_start
       SlitOverlay.arc_end].
  assert (Hq : maxR / lambda * lambda = maxR) by (field; lra).
  split; [split; [lra | nra] |].
  split; [exists n; reflexivity |]. auto.
Qed.

Lemma drawWavelets_arcs_witness :
  0 < Slit.wavelength singleSlit /\
  Forall (fun a => 2 <= SlitOverlay.arc_radius a /\ SlitOverlay.arc_y a = _barrierY)
         (SlitOverlay._drawWavelets (_computeField singleSlit) 0.1 0.1 3).
Proof.
  assert (Hscale : 0 < Slit.wavelength (_computeField singleSlit)) by (simpl; lra).
  split; [simpl; lra |].
  destruct (drawWavelets_arcs (_computeField singleSlit) 0.1 0.1 3 Hscale) as [_ Harcs].
  eapply List.Forall_impl; [| exact Harcs].
  intros a (Hr & _ & Hy & _). split; [lra | exact Hy].
Defined.

(** ** The stored field through the life of the component *)

Lemma holdsField_same (this0 a b : DiffractionSlit) :
  _fieldReal b = _fieldReal a -> _fieldImag b = _fieldImag a ->
  _fieldAmp b = _fieldAmp a -> _normScale b = _normScale a ->
  _res b = _res a -> _hW b = _hW a ->
  holdsField this0 a -> holdsField this0 b.
Proof.
  intros HR HI HA HN Hr Hw (H1 & H2 & H3 & H4 & H5 & H6).
  unfold holdsField. rewrite HR, HI, HA, HN, Hr, Hw. auto 10.
Qed.

Lemma renderFrame_holdsField (this0 this : DiffractionSlit) :
  holdsField this0 this -> holdsField this0 (_renderFrame this).
Proof.
  apply holdsField_same; unfold _renderFrame;
    (destruct (_canvas this); [| reflexivity]);
    destruct (_fieldReal this) eqn:E; try reflexivity; exact E.
Qed.

Lemma animation_holdsField (this0 this : DiffractionSlit) :
  holdsField this0 this ->
  holdsField this0 (_startAnimation this) /\ holdsField this0 (_stopAnimation this).
Proof.
  intros H. unfold _startAnimation, _stopAnimation.
  destruct (_animationId this); split; try exact H;
    revert H; apply holdsField_same; reflexivity.
Qed.

(** X18. The field the renderer reads is always one [_computeField] has
    stored.  [firstUpdated] and the callback of the recompute timer leave the
    component holding the field of its current properties, and an animation
    frame ([tick]) and a property update ([updated]) keep the field the
    component holds, whatever else they change. *)
Theorem stored_field_kept (this : DiffractionSlit) (ts : R) (changed : gset string) :
  holdsField this (SlitOverlay.firstUpdated this) /\
  holdsField this (recomputeTimeout this) /\
  forall this0 : DiffractionSlit,
    holdsField this0 this ->
    holdsField this0 (tick ts this) /\ holdsField this0 (updated changed this).
Proof.
  assert (Hcomputed : forall s, holdsField s (_computeField s))
    by (intros s; unfold holdsField; auto 10).
  split; [| split].
  - unfold SlitOverlay.firstUpdated.
    assert (H : holdsField this (_computeField (set_canvas (Some []) this)))
      by (unfold holdsField; auto 10).
    case_match.
    + apply animation_holdsField. exact H.
    + apply renderFrame_holdsField. exact H.
  - unfold recomputeTimeout. case_match; [apply Hcomputed |].
    apply renderFrame_holdsField, Hcomputed.
  - intros this0 H. split.
    + unfold tick.
      apply (holdsField_same this0 (_renderFrame (set_time (ts * 0.001 * speed this) this)));
        try reflexivity.
      apply renderFrame_holdsField. revert H. apply holdsField_same; reflexivity.
    + unfold updated.
      set (s0 := if decide (mode this = "double" /\ _) then _ else this).
      assert (H0 : holdsField this0 s0).
      { unfold s0. repeat case_decide; try exact H;
          revert H; apply holdsField_same; reflexivity. }
      clearbody s0.
      set (s1 := if decide (Exists _ needsRecompute /\ _) then _ else s0).
      assert (H1 : holdsField this0 s1).
      { unfold s1. case_decide; [| exact H0].
        revert H0. apply holdsField_same; reflexivity. }
      clearbody s1.
      set (s2 := if decide (_ \/ _) then _ else s1).
      assert (H2 : holdsField this0 s2).
      { unfold s2. repeat case_decide; try exact H1.
        apply renderFrame_holdsField. exact H1. }
      clearbody s2.
      case_decide; [| exact H2].
      destruct (animation_holdsField this0 s2 H2) as [Hstart Hstop].
      case_match; assumption.
Qed.

(** ** The barrier overlay *)

Lemma totalWidth_app (a b : list SlitOverlay.Rect) :
  totalWidth (a ++ b) = totalWidth a + totalWidth b.
Proof. unfold totalWidth. rewrite map_app. apply Rsum_app. Qed.

Lemma barrierFill_fold (by_ bh : R) (slitRanges : list (R * R)) :
  forall (prev : R) (fills : list SlitOverlay.Rect),
    inOrder prev slitRanges ->
    Forall (fun f => 0 < SlitOverlay.rect_w f) fills ->
    let st := fold_left (SlitOverlay.barrierFill by_ bh) slitRanges (prev, fills) in
    st.1 <= _W /\
    totalWidth st.2 + Rsum (map (fun rg => rg.2 - rg.1) slitRanges) + (_W - st.1)
    = totalWidth fills + (_W - prev) /\
    Forall (fun f => 0 < SlitOverlay.rect_w f) st.2 /\
    (Forall (fun f => SlitOverlay.rect_y f = by_ /\ SlitOverlay.rect_h f = bh) fills ->
     Forall (fun f => SlitOverlay.rect_y f = by_ /\ SlitOverlay.rect_h f = bh) st.2).
Proof.
  induction slitRanges as [| [l r] rest IH]; intros prev fills Hord Hpos; cbn [fold_left].
  - cbn [inOrder] in Hord. cbn [fst snd map Rsum fold_right].
    split; [exact Hord |]. split; [lra |]. split; [exact Hpos | auto].
  - cbn [inOrder] in Hord. destruct Hord as (Hl & Hlr & Hrest).
    cbn [SlitOverlay.barrierFill].
    set (fills' := if decide (l > prev) then _ else fills).
    assert (Hpos' : Forall (fun f => 0 < SlitOverlay.rect_w f) fills').
    { unfold fills'. case_decide; [| exact Hpos].
      apply Forall_app. split; [exact Hpos |].
      apply List.Forall_cons; [| apply List.Forall_nil]. simpl. lra. }
    assert (Hw : totalWidth fills' = totalWidth fills + (l - prev)).
    { unfold fills'. case_decide.
      - rewrite totalWidth_app. unfold totalWidth. simpl. lra.
      - lra. }
    destruct (IH r fills' Hrest Hpos') as (Hend & Hsum & Hp & Hy).
    split; [exact Hend |]. split; [| split; [exact Hp |]].
    + cbn [map Rsum fold_right fst snd]. fold (Rsum (map (fun rg => rg.2 - rg.1) rest)).
      lra.
    + intros Hfills. apply Hy. unfold fills'. case_decide; [| exact Hfills].
      apply Forall_app. split; [exact Hfills |].
      apply List.Forall_cons; [| apply List.Forall_nil]. simpl. auto.
Qed.

(** X19. When the apertures come in order along the barrier and lie on the
    canvas, the opaque segments [_drawBarrierOverlay] fills and the apertures
    it outlines tile the barrier: their widths add up to the canvas width,
    every filled segment has a positive width, and all rectangles sit on the
    barrier band. *)
Theorem drawBarrierOverlay_tiles (slitRanges : list (R * R))
    (Hord : inOrder 0 slitRanges) :
  let fills := (SlitOverlay._drawBarrierOverlay slitRanges).1 in
  let outlines := (SlitOverlay._drawBarrierOverlay slitRanges).2 in
  totalWidth fills + totalWidth outlines = _W /\
  Forall (fun f => 0 < SlitOverlay.rect_w f) fills /\
  Forall (fun f => SlitOverlay.rect_y f = _barrierY /\ SlitOverlay.rect_h f = _barrierH)
         (fills ++ outlines) /\
  map (fun o => (SlitOverlay.rect_x o, SlitOverlay.rect_x o + SlitOverlay.rect_w o))
      outlines = slitRanges.
Proof.
  unfold SlitOverlay._drawBarrierOverlay.
  destruct (barrierFill_fold _barrierY _barrierH slitRanges 0 [] Hord
              (List.Forall_nil _)) as (Hend & Hsum & Hpos & Hy).
  destruct (fold_left _ slitRanges (0, [])) as [prev fills0].
  cbn [fst snd] in *.
  assert (Houtw : totalWidth
                    (map (fun range => SlitOverlay.mkRect range.1 _barrierY
                                         (range.2 - range.1) _barrierH) slitRanges)
                  = Rsum (map (fun rg => rg.2 - rg.1) slitRanges)).
  { unfold totalWidth. rewrite map_map. reflexivity. }
  specialize (Hy (List.Forall_nil _)).
  unfold totalWidth in Hsum at 2. cbn [map Rsum fold_right] in Hsum.
  split; [| split; [| split]].
  - rewrite Houtw. case_decide.
    + rewrite totalWidth_app. unfold totalWidth at 2. simpl. lra.
    + lra.
  - case_decide; [| exact Hpos].
    apply Forall_app. split; [exact Hpos |].
    apply List.Forall_cons; [| apply List.Forall_nil]. simpl. lra.
  - apply Forall_app. split.
    + case_decide; [| exact Hy].
      apply Forall_app. split; [exact Hy |].
      apply List.Forall_cons; [| apply List.Forall_nil]. simpl. auto.
    + apply List.Forall_forall. intros o Ho.
      apply in_map_iff in Ho as (rg & <- & _). simpl. auto.
  - rewrite map_map. rewrite <- (map_id slitRanges) at 2.
    apply map_ext. intros [l r]. simpl. f_equal. lra.
Qed.

Lemma drawBarrierOverlay_tiles_witness :
  inOrder 0 (_getSlitRanges constructor) /\
  totalWidth (SlitOverlay._drawBarrierOverlay (_getSlitRanges constructor)).1
  + totalWidth (SlitOverlay._drawBarrierOverlay (_getSlitRanges constructor)).2 = _W.
Proof.
  assert (Hord : inOrder 0 (_getSlitRanges constructor)).
  { unfold _getSlitRanges. rewrite decide_False by discriminate.
    cbn [inOrder constructor slitWidth slitSeparation Slit.wavelength].
    unfold _W. repeat split; lra. }
  split; [exact Hord |].
  exact (proj1 (drawBarrierOverlay_tiles (_getSlitRanges constructor) Hord)).
Defined.

(** ** The intensity profile at the screen *)

Lemma canvas_columns : Z.to_nat (Zceil _W) = 800%nat.
Proof. unfold _W. rewrite Zceil_IZR. reflexivity. Qed.

Lemma profileStep_fold (fieldAmp : list R) (res norm : R) (n : nat) :
  (forall cx : nat, (cx < n)%nat -> (toInt (INR cx / res) < length fieldAmp)%nat) ->
  (n <= 800)%nat ->
  let value := profileValue fieldAmp res norm in
  let st := fold_left (SlitOverlay.profileStep fieldAmp res norm) (seq 0 n)
                      (replicate 800 (Some 0), 0) in
  length st.1 = 800%nat /\
  (forall cx : nat, (cx < 800)%nat ->
     st.1 !! cx = Some (Some (if decide (cx < n)%nat then value cx else 0))) /\
  0 <= st.2 /\
  (forall cx : nat, (cx < n)%nat -> value cx <= st.2) /\
  (st.2 = 0 \/ exists cx : nat, (cx < n)%nat /\ value cx = st.2).
Proof.
  intros Hread Hn value. induction n as [| n IH].
  - cbn [seq fold_left fst snd].
    split; [apply length_replicate |]. split.
    { intros cx Hcx. rewrite decide_False by lia.
      apply lookup_replicate_2. exact Hcx. }
    split; [lra |]. split; [intros cx Hcx; lia | left; reflexivity].
  - destruct IH as (Hlen & Hget & Hmax0 & Hle & Hatt);
      [intros cx Hcx; apply Hread; lia | lia |].
    rewrite seq_S, fold_left_app. cbn [fold_left Nat.add].
    destruct (fold_left _ (seq 0 n) _) as [ints maxI]. cbn [fst snd] in *.
    unfold SlitOverlay.profileStep.
    destruct (lookup_lt_is_Some_2 fieldAmp (toInt (INR n / res))) as [a Ha];
      [apply Hread; lia |].
    rewrite Ha. cbn [mbind option_bind fst snd].
    assert (Hval : a * a * norm * norm = value n).
    { unfold value, profileValue. rewrite (cellValue_lookup _ _ _ Ha). reflexivity. }
    rewrite Hval.
    assert (Hv0 : 0 <= value n).
    { rewrite <- Hval. replace (a * a * norm * norm) with ((a * norm) * (a * norm)) by ring.
      nra. }
    split; [rewrite length_insert; exact Hlen |]. split; [| split; [| split]].
    + intros cx Hcx. destruct (decide (n = cx)) as [<- | Hne].
      * rewrite list_lookup_insert_eq by lia. rewrite decide_True by lia. reflexivity.
      * rewrite list_lookup_insert_ne by exact Hne. rewrite Hget by exact Hcx.
        do 2 f_equal. repeat case_decide; try reflexivity; lia.
    + case_decide; lra.
    + intros cx Hcx. destruct (decide (cx = n)) as [-> | Hne].
      * case_decide; lra.
      * specialize (Hle cx ltac:(lia)). case_decide; lra.
    + case_decide as Hgt.
      * right. exists n. split; [lia | reflexivity].
      * destruct Hatt as [H0 | (cx & Hcx & Hcxv)]; [left; exact H0 |].
        right. exists cx. split; [lia | exact Hcxv].
Qed.

Lemma profile_path_fold (ints : list (option R)) (g : nat -> R) (maxI ph : R)
    (l : list nat) (path0 : list (R * R)) :
  Forall (fun cx => ints !! cx = Some (Some (g cx))) l ->
  fold_left
    (fun path cx =>
       match ints !! cx with
       | Some (Some v) => path ++ [(INR cx, ph - (v / maxI) * (ph - 6))]
       | _ => path
       end) l path0
  = path0 ++ map (fun cx => (INR cx, ph - (g cx / maxI) * (ph - 6))) l.
Proof.
  intros Hall. revert path0.
  induction Hall as [| cx l Hcx _ IH]; intros path0; cbn [fold_left map].
  - rewrite app_nil_r. reflexivity.
  - rewrite Hcx, IH, <- app_assoc. reflexivity.
Qed.

(** X20. On a state that holds a computed field, [_drawIntensityProfile]
    plots the squared, normalised magnitude of row 0 of the grid, column by
    column, scaled by its largest value.  It draws nothing when the row is
    dark.  Otherwise the curve runs from [(0, 55)] through one vertex per
    canvas column to [(799, 55)]; every vertex lies in the band between
    [y = 6] and [y = 55], and the column of the largest value touches
    [y = 6]. *)
Theorem drawIntensityProfile_curve (this0 this : DiffractionSlit)
    (Hfield : holdsField this0 this) :
  let value := profileValue (fA (fieldGrid this0)) (_res this) (_normScale this) in
  let ph := _profileH in
  ((forall cx : nat, (cx < 800)%nat -> value cx = 0) ->
   SlitOverlay._drawIntensityProfile this = None) /\
  ((exists c : nat, (c < 800)%nat /\ value c <> 0) ->
   exists maxI : R,
     0 < maxI /\
     (forall cx : nat, (cx < 800)%nat -> 0 <= value cx <= maxI) /\
     (exists cx : nat, (cx < 800)%nat /\ value cx = maxI) /\
     SlitOverlay._drawIntensityProfile this
     = Some ([(0, ph)]
             ++ map (fun cx => (INR cx, ph - (value cx / maxI) * (ph - 6))) (seq 0 800)
             ++ [(_W - 1, ph)]) /\
     (forall cx : nat, (cx < 800)%nat ->
        6 <= ph - (value cx / maxI) * (ph - 6) <= ph) /\
     (forall cx : nat, value cx = maxI -> ph - (value cx / maxI) * (ph - 6) = 6)).
Proof.
  intros value ph.
  destruct Hfield as (_ & _ & HfA & _ & Hres & _).
  assert (Hread : forall cx : nat, (cx < 800)%nat ->
            (toInt (INR cx / _res this) < length (fA (fieldGrid this0)))%nat).
  { intros cx Hcx. rewrite Hres.
    assert (Hc : INR cx < _W).
    { unfold _W. apply lt_INR in Hcx.
      rewrite (INR_IZR_INZ 800) in Hcx. change (Z.of_nat 800) with 800%Z in Hcx.
      exact Hcx. }
    assert (H0 : INR 0 < _barrierY) by (unfold _barrierY; simpl; lra).
    destruct (cell_in_grid this0 0 cx H0 Hc) as [Hy Hx].
    destruct (fieldGrid_cells this0) as [Hlen _]. rewrite Hlen.
    destruct (gridSize this0) as [(_ & Hw & Hb) | (_ & Hw & Hb)];
      rewrite Hw, Hb in *; lia. }
  destruct (profileStep_fold (fA (fieldGrid this0)) (_res this) (_normScale this)
              800 Hread ltac:(lia)) as (Hlen & Hget & Hmax0 & Hle & Hatt).
  fold value in Hget, Hle, Hatt.
  assert (Hv0 : forall cx : nat, 0 <= value cx).
  { intros cx. unfold value, profileValue. cbv zeta.
    set (a := cellValue _ _). set (nm := _normScale this).
    replace (a * a * nm * nm) with ((a * nm) * (a * nm)) by ring. nra. }
  unfold SlitOverlay._drawIntensityProfile. rewrite HfA.
  unfold upto. rewrite canvas_columns.
  destruct (fold_left _ (seq 0 800) _) as [ints maxI]. cbn [fst snd] in *.
  split.
  - intros Hdark. rewrite decide_True; [reflexivity |].
    destruct Hatt as [H0 | (cx & Hcx & Hcxv)]; [exact H0 |].
    rewrite <- Hcxv. apply Hdark. exact Hcx.
  - intros (c & Hc & Hcv).
    assert (Hpos : 0 < maxI).
    { specialize (Hle c Hc). specialize (Hv0 c). lra. }
    exists maxI. split; [exact Hpos |].
    split; [intros cx Hcx; split; [apply Hv0 | apply Hle; exact Hcx] |].
    split.
    { destruct Hatt as [H0 | Hsome]; [lra | exact Hsome]. }
    assert (Hq : forall cx : nat, (cx < 800)%nat -> 0 <= value cx / maxI <= 1).
    { intros cx Hcx. specialize (Hle cx Hcx). specialize (Hv0 cx).
      split.
      - apply Rmult_le_pos; [exact Hv0 |]. left. apply Rinv_0_lt_compat. exact Hpos.
      - apply (Rmult_le_reg_r maxI); [exact Hpos |].
        unfold Rdiv. rewrite Rmult_assoc, Rinv_l by lra. lra. }
    split; [| split].
    + rewrite decide_False by lra. f_equal.
      rewrite (profile_path_fold ints value maxI _profileH).
      * rewrite <- app_assoc. reflexivity.
      * apply List.Forall_forall. intros cx Hcx. apply in_seq in Hcx.
        rewrite Hget by lia. rewrite decide_True by lia. reflexivity.
    + intros cx Hcx. specialize (Hq cx Hcx). unfold ph, _profileH. nra.
    + intros cx Hcx. rewrite Hcx. unfold ph, _profileH.
      replace (maxI / maxI) with 1 by (field; lra). lra.
Qed.

Lemma drawIntensityProfile_curve_witness :
  holdsField singleSlit (_computeField singleSlit) /\
  exists path : list (R * R),
    SlitOverlay._drawIntensityProfile (_computeField singleSlit) = Some path /\
    length path = 802%nat.
Proof.
  assert (Hfield : holdsField singleSlit (_computeField singleSlit))
    by (unfold holdsField; auto 10).
  split; [exact Hfield |].
  destruct (drawIntensityProfile_curve singleSlit (_computeField singleSlit) Hfield)
    as [_ Hcurve].
  destruct Hcurve as (maxI & _ & _ & _ & Hpath & _).
  - exists 400%nat. split; [lia |].
    pose proof singleSlit_top_cell_positive as Hcell.
    pose proof singleSlit_maxAmp_positive as Hmax.
    unfold profileValue.
    change (_res (_computeField singleSlit)) with 1.
    rewrite toInt_INR.
    change (_normScale (_computeField singleSlit))
      with (if decide (maxAmp (fieldGrid singleSlit) > 0)
            then 1 / maxAmp (fieldGrid singleSlit) else 1).
    rewrite decide_True by lra.
    change (0 * 800 + 400)%nat with 400%nat in Hcell.
    set (a := cellValue (fA (fieldGrid singleSlit)) 400) in *.
    assert (Hn : 0 < 1 / maxAmp (fieldGrid singleSlit))
      by (apply Rdiv_lt_0_compat; lra).
    set (nm := 1 / maxAmp (fieldGrid singleSlit)) in *.
    assert (Hp : 0 < a * nm) by (apply Rmult_lt_0_compat; assumption).
    replace (a * a * nm * nm) with ((a * nm) * (a * nm)) by ring. nra.
  - eexists. split; [exact Hpath |].
    rewrite !length_app, length_map, length_seq. reflexivity.
Defined.
